(** * influxql/engine.go: the map/reduce query engine, embedded in Rocq

    The file has two parts. The first is the embedding of the source,
    ordered by dependency: Go values and panics, the tagset codec, the
    buffered iterator and the Mapper, the aggregation catalog, the
    Reducer's merge loop, the binary expression evaluator, the order of
    rows and the planner. The second part holds the properties, module by
    module in the same order.

    Conventions.
    - [int64] is a [Z] together with [wrap64], written at every arithmetic
      operation of the source that can overflow.
    - [float64] is the kernel's binary64 type [PrimFloat.float]; the
      operators [+ - * /], [==] and [math.Sqrt] are the IEEE 754 ones.
    - a Go [string] is a [string] (a sequence of 8-bit characters), a
      [[]byte] is a [list byte].
    - [interface{}] is the tagged sum [Value]; a failed type assertion, an
      index out of range and an explicit [panic] are the [Panicked] outcome.
    - a [map[K]V] is a [gmap K V]; [range] over a map visits
      [map_to_list] (the engine never depends on the visiting order except
      where stated).
    - a channel is the list of batches that will be received from it, the
      closed channel being the empty list. *)

Set Warnings "-register-all".
From Stdlib Require Import ZArith List Lia Bool String Ascii Strings.Byte.
From Stdlib Require Import PrimFloat FloatOps SpecFloat FloatAxioms Uint63.
From Stdlib Require Import Sorting.Sorted Sorting.Permutation.
From stdpp Require Import base option list gmap strings.

Local Open Scope Z_scope.
Local Open Scope list_scope.

(** ** Outcomes of Go code *)

(** The run-time panics the engine can raise. *)
Inductive panic : Type :=
| InterfaceConversion   (* x.(T) on a value of another dynamic type, or nil *)
| SliceBounds           (* b[lo:hi] with lo > hi or hi > len(b) *)
| IndexOutOfRange       (* a[i] with i < 0 or i >= len(a) *)
| InvalidOperation.     (* panic("invalid operation: ...") in eval *)

Inductive outcome (A : Type) : Type :=
| Done (a : A)
| Panicked (p : panic).
Arguments Done {A} a.
Arguments Panicked {A} p.

Definition obind {A B} (m : outcome A) (k : A -> outcome B) : outcome B :=
  match m with
  | Done a => k a
  | Panicked p => Panicked p
  end.

(** [outcome] is a monad; stdpp's [x ← m; k] notation sequences it. *)
Global Instance outcome_ret : MRet outcome := fun _ a => Done a.
Global Instance outcome_bind : MBind outcome := fun _ _ k m => obind m k.

(** ** Machine integers *)

Module Int64.

Definition min_int : Z := - 2 ^ 63.
Definition max_int : Z := 2 ^ 63 - 1.

(** Two's complement wrap-around of a mathematical integer. *)
Definition wrap64 (z : Z) : Z := (z + 2 ^ 63) mod 2 ^ 64 - 2 ^ 63.

Definition in_range (z : Z) : Prop := min_int <= z <= max_int.

Definition add (a b : Z) : Z := wrap64 (a + b).
Definition sub (a b : Z) : Z := wrap64 (a - b).

(** Go's [%] truncates toward zero: the sign follows the dividend. *)
Definition rem (a b : Z) : Z := Z.rem a b.

End Int64.

(** [uint16] arithmetic, as used by the tagset decoder. *)
Definition uint16 (z : Z) : Z := z mod 65536.

(** ** float64 *)

Module Float64.

Definition zero : float := PrimFloat.zero.

(** [float64(n)] for an [int] [n]. *)
Definition of_int (n : Z) : float :=
  if 0 <=? n then PrimFloat.of_uint63 (Uint63.of_Z n)
  else PrimFloat.opp (PrimFloat.of_uint63 (Uint63.of_Z (- n))).

(** Go's [x == y] on floats: IEEE equality (NaN differs from itself,
    the two zeros are equal). *)
Definition eqb (x y : float) : bool := PrimFloat.eqb x y.

End Float64.

(** The vocabulary for reading a float through [SpecFloat], the
    specification of the kernel's binary64 operations. *)

Module Float64Spec.

(** A shifted mantissa none of whose dropped bits is set. *)
Definition exact (m : Z) : shr_record := Build_shr_record m false false.

(** [p] shifted left by [s] bits. *)
Definition shiftp (p : positive) (s : Z) : positive :=
  match s with
  | Zpos j => Pos.iter xO p j
  | _ => p
  end.

(** The float of an integer. *)
Definition SFofZ (n : Z) : spec_float := binary_normalize prec emax n 0 false.

(** [x * 2^e = n], for a mantissa [x] of 53 bits: how the integer [n]
    sits in a float. The equation is scaled by [2^52] to stay in [Z]. *)
Definition represents (x : positive) (e n : Z) : Prop :=
  Pos.size x = 53%positive /\ -52 <= e <= 1 /\
  Zpos x * 2 ^ (e + 52) = n * 2 ^ 52.

End Float64Spec.

(** ** Dynamic values *)

(** The dynamic types that travel through the engine as [interface{}]. *)
Inductive Value : Type :=
| VNil
| VFloat (f : float)                  (* float64 *)
| VString (s : string)                (* string *)
| VFloats (l : list float)            (* []float64 *)
| VList (l : list Value)              (* []interface{} *)
| VInt (n : Z)                        (* int64 *)
| VBool (b : bool)                    (* bool *)
| VTime (unixNano : Z)                (* time.Time, in UTC *)
| VDuration (d : Z).                  (* time.Duration *)

(** [v.(float64)] *)
Definition asFloat (v : Value) : outcome float :=
  match v with
  | VFloat f => Done f
  | _ => Panicked InterfaceConversion
  end.

(** [v.([]float64)] *)
Definition asFloats (v : Value) : outcome (list float) :=
  match v with
  | VFloats l => Done l
  | _ => Panicked InterfaceConversion
  end.

(** [v.([]interface{})] *)
Definition asList (v : Value) : outcome (list Value) :=
  match v with
  | VList l => Done l
  | _ => Panicked InterfaceConversion
  end.

(** ** Keys and emitters *)

Record Key : Type := mkKey { Timestamp : Z; Values : string }.

Global Instance Key_eq_dec : EqDecision Key.
Proof. solve_decision. Defined.

Global Instance Key_countable : Countable Key.
Proof.
  refine (inj_countable' (fun k => (Timestamp k, Values k))
                         (fun p => mkKey (fst p) (snd p)) _).
  intros []; reflexivity.
Defined.

(** [Key{}], the zero key under which a literal is sent. *)
Definition zeroKey : Key := mkKey 0 "".

(** What [Emitter.Emit] sends: a batch holding one key. An emitter is
    modelled by the list of the records sent so far, oldest first. *)
Definition Record_ : Type := (Key * Value)%type.
Definition Emitter : Type := list Record_.

Definition Emit (e : Emitter) (key : Key) (value : Value) : Emitter :=
  e ++ [(key, value)].

(** ** The binary expression evaluator: [eval] *)

Inductive Token : Type :=
| ADD | SUB | MUL | DIV
| OtherToken.   (* every other token of the language *)

Module binaryExprEvaluator.

Definition eval (op : Token) (lhs rhs : Value) : outcome Value :=
  match op with
  | ADD =>
      l ← asFloat lhs; r ← asFloat rhs; Done (VFloat (PrimFloat.add l r))
  | SUB =>
      l ← asFloat lhs; r ← asFloat rhs; Done (VFloat (PrimFloat.sub l r))
  | MUL =>
      l ← asFloat lhs; r ← asFloat rhs; Done (VFloat (PrimFloat.mul l r))
  | DIV =>
      r ← asFloat rhs;
      if Float64.eqb r Float64.zero then Done (VFloat Float64.zero)
      else l ← asFloat lhs; Done (VFloat (PrimFloat.div l r))
  | OtherToken => Panicked InvalidOperation
  end.

End binaryExprEvaluator.

(** ** The tagset codec: [MarshalStrings] and [UnmarshalStrings] *)

Module Tagset.

(** [len(s)] of a Go string, and the conversions [[]byte(s)], [string(b)]. *)
Definition len (s : string) : Z := Z.of_nat (String.length s).
Definition bytes_of (s : string) : list byte := list_byte_of_string s.
Definition string_of (b : list byte) : string := string_of_list_byte b.

Definition byte_of_Z (z : Z) : byte :=
  match Byte.of_N (Z.to_N (z mod 256)) with
  | Some b => b
  | None => x00
  end.
Definition Z_of_byte (b : byte) : Z := Z.of_N (Byte.to_N b).

(** [binary.BigEndian.PutUint16(b[0:2], v)]: [b[0] = byte(v >> 8)],
    [b[1] = byte(v)]. *)
Definition PutUint16 (v : Z) : list byte :=
  [byte_of_Z (Z.shiftr v 8); byte_of_Z v].

(** [binary.BigEndian.Uint16(b)]: [uint16(b[1]) | uint16(b[0])<<8]. *)
Definition Uint16 (b0 b1 : byte) : Z :=
  Z.lor (Z_of_byte b1) (Z.shiftl (Z_of_byte b0) 8).

(** One round of the loop of [MarshalStrings]: the slice [b] of
    [2+len(s)] bytes holding the length and the data. *)
Definition segment (s : string) : list byte :=
  PutUint16 (uint16 (len s)) ++ bytes_of s.

Definition MarshalStrings (a : list string) : list byte :=
  fold_left (fun ret s => ret ++ segment s) a [].

(** [b[lo:hi]] on a slice whose capacity is its length. *)
Definition slice (b : list byte) (lo hi : Z) : outcome (list byte) :=
  if (0 <=? lo) && (lo <=? hi) && (hi <=? Z.of_nat (length b))
  then Done (firstn (Z.to_nat (hi - lo)) (skipn (Z.to_nat lo) b))
  else Panicked SliceBounds.

(** The loop of [UnmarshalStrings]. [n] is a [uint16], and so is [n+2]:
    the sum wraps at 65536. Every round that does not panic drops at
    least two bytes, so [length b] rounds always suffice; [fuel] only
    makes the recursion structural. *)
Fixpoint UnmarshalStrings_loop (fuel : nat) (b : list byte) (ret : list string)
  : outcome (list string) :=
  match b with
  | [] => Done ret
  | _ =>
      match fuel with
      | O => Done ret
      | S fuel' =>
          hd ← slice b 0 2;
          match hd with
          | [b0; b1] =>
              let n := Uint16 b0 b1 in
              seg ← slice b 2 (uint16 (n + 2));
              rest ← slice b (uint16 (n + 2)) (Z.of_nat (length b));
              UnmarshalStrings_loop fuel' rest (ret ++ [string_of seg])
          | _ => Panicked SliceBounds
          end
      end
  end.

Definition UnmarshalStrings (b : list byte) : outcome (list string) :=
  UnmarshalStrings_loop (length b) b [].

End Tagset.

(** A tag value of 65534 bytes, and one of 65535: both are shorter than
    2^16 bytes, and [MarshalStrings] encodes their lengths exactly. *)
Definition tag65534 : string := string_of_list_byte (repeat "a"%byte (Z.to_nat 65534)).
Definition tag65535 : string := string_of_list_byte (repeat "a"%byte (Z.to_nat 65535)).

(** ** The buffered iterator *)

(** A point as [Iterator.Next] returns it: [(key, data, value)]. *)
Record Point : Type := mkPoint { key : Z; data : list byte; value : Value }.

(** [(0, nil, nil)]: what [Next] returns at the end of the stream. *)
Definition noPoint : Point := mkPoint 0 [] VNil.

(** The storage iterator is outside the engine. It is modelled by the
    finite list of the points it still has to return, after which it
    returns [noPoint] for ever, and by its encoded tagset. *)
Record Iterator : Type := mkIterator { points : list Point; itrTags : string }.

Definition Iterator_Next (i : Iterator) : Point * Iterator :=
  match points i with
  | [] => (noPoint, i)
  | p :: l => (p, mkIterator l (itrTags i))
  end.

Record bufIterator : Type := mkBufIterator {
  itr : Iterator;      (* underlying iterator *)
  tmax : Z;            (* maximum key *)
  buf : Point;
  buffered : bool
}.

Module BufIterator.

Definition Tags (i : bufIterator) : string := itrTags (itr i).

Definition Next (i : bufIterator) : Point * bufIterator :=
  let i1 :=
    if buffered i then mkBufIterator (itr i) (tmax i) (buf i) false
    else let '(p, it) := Iterator_Next (itr i) in
         mkBufIterator it (tmax i) p (buffered i) in
  let p := buf i1 in
  if negb (tmax i1 =? 0) && (key p >? tmax i1)
  then (noPoint, mkBufIterator (itr i1) (tmax i1) (buf i1) true)
  else (p, i1).

Definition Peek (i : bufIterator) : Point * bufIterator :=
  let '(p, i1) := Next i in
  (p, mkBufIterator (itr i1) (tmax i1) (buf i1) true).

Definition EOF (i : bufIterator) : bool * bufIterator :=
  let '(_, i1) := Peek i in (key (buf i1) =? 0, i1).

(** The loop every map function of the file is built on,
    [for k, d, v := itr.Next(); k != 0; k, d, v = itr.Next() { ... }]:
    the points it hands to its body, and the iterator it leaves. Each
    round that goes on consumes the buffered point or a point of the
    underlying list, so [drain] gives the loop enough rounds. *)
Fixpoint drain_loop (fuel : nat) (i : bufIterator) : list Point * bufIterator :=
  let '(p, i1) := Next i in
  if key p =? 0 then ([], i1)
  else match fuel with
       | O => ([], i1)
       | S fuel' => let '(ps, i2) := drain_loop fuel' i1 in (p :: ps, i2)
       end.

Definition drain (i : bufIterator) : list Point * bufIterator :=
  drain_loop (S (length (points (itr i)))) i.

End BufIterator.

(** ** The Mapper *)

(** What a function that emits leaves behind: the emitter after its
    sends, and whether it returned or panicked. What was sent before a
    panic stays sent. *)
Definition emitted (E : Type) : Type := (E * outcome unit)%type.

(** A map function, given by what it does with the points its loop draws:
    the iterator's tags, the window start and the emitter it sends to. *)
Definition MapFunc (E : Type) : Type :=
  list Point -> string -> Z -> E -> emitted E.

Record Mapper (E : Type) : Type := mkMapper {
  fn : MapFunc E;
  mitr : Iterator;
  interval : Z
}.
Arguments fn {E} _.
Arguments mitr {E} _.
Arguments interval {E} _.

Module MapperRun.

Import BufIterator.

Definition set_tmax (i : bufIterator) (t : Z) : bufIterator :=
  mkBufIterator (itr i) t (buf i) (buffered i).

(** The [for] loop of [Mapper.run]: what has been sent, and whether the
    loop reached its [break] within [fuel] rounds (or a map function
    panicked). *)
Fixpoint run_loop {E} (fuel : nat) (f : MapFunc E) (interval : Z)
    (bufItr : bufIterator) (e : E) (tmin : Z) : E * outcome bool :=
  match fuel with
  | O => (e, Done false)
  | S fuel' =>
      let bufItr1 :=
        if interval >? 0
        then set_tmax bufItr (Int64.sub (Int64.add tmin interval) 1)
        else bufItr in
      let '(eof, bufItr2) := EOF bufItr1 in
      if eof then (e, Done true)
      else
        let '(ps, bufItr3) := drain bufItr2 in
        match f ps (Tags bufItr2) tmin e with
        | (e', Done _) =>
            run_loop fuel' f interval bufItr3 e' (Int64.add tmin interval)
        | (e', Panicked p) => (e', Panicked p)
        end
  end.

(** The window start [Mapper.run] begins with. *)
Definition start (interval : Z) (bufItr : bufIterator) : Z * bufIterator :=
  if interval >? 0 then
    let '(p, bufItr1) := Peek bufItr in
    (Int64.sub (key p) (Int64.rem (key p) interval), bufItr1)
  else (0, bufItr).

Definition run {E} (fuel : nat) (m : Mapper E) (e : E) : E * outcome bool :=
  let bufItr := mkBufIterator (mitr m) 0 noPoint false in
  let '(tmin, bufItr1) := start (interval m) bufItr in
  run_loop fuel (fn m) (interval m) bufItr1 e tmin.

(** The calls [Mapper.run] makes to its map function: the window start
    and the points drawn, call by call. *)
Definition record_call : MapFunc (list (Z * list Point)) :=
  fun ps _ tmin calls => (calls ++ [(tmin, ps)], Done tt).

Definition calls (fuel : nat) (interval : Z) (it : Iterator)
  : list (Z * list Point) * outcome bool :=
  run fuel (mkMapper _ record_call it interval) [].

End MapperRun.

Module MapperSpec.

Import BufIterator MapperRun.

(** A call [(tmin, ps)] stays inside its window. *)
Definition in_window (interval : Z) (c : Z * list Point) : Prop :=
  Forall (fun p => fst c <= key p <= fst c + interval - 1) (snd c).

(** The streams the windowing is designed for: timestamps are positive,
    come in non-decreasing order, and leave room for one interval below
    the largest [int64]. *)
Definition time_ordered (l : list Point) : Prop :=
  StronglySorted (fun p q => key p <= key q) l.

Definition timestamp_ok (interval : Z) (p : Point) : Prop :=
  0 < key p /\ key p + interval <= Int64.max_int.

(** The points of [l] that a window ending at [T] takes, and the rest. *)
Fixpoint span (T : Z) (l : list Point) : list Point * list Point :=
  match l with
  | [] => ([], [])
  | q :: l' =>
      if key q >? T then ([], l)
      else let '(a, r) := span T l' in (q :: a, r)
  end.

(** The state a drained window leaves: the first point beyond the
    window is stashed, or the source is exhausted. *)
Definition after_span (tg : string) (T : Z) (r : list Point) : bufIterator :=
  match r with
  | [] => mkBufIterator (mkIterator [] tg) T noPoint false
  | q :: r' => mkBufIterator (mkIterator r' tg) T q true
  end.

(** The loop invariant of [Mapper.run] at the head of a round. *)
Definition loaded (interval tmin : Z) (b : bufIterator) : Prop :=
  buffered b = true /\
  0 < tmin + interval - 1 /\ tmin <= key (buf b) /\
  time_ordered (buf b :: points (itr b)) /\
  Forall (timestamp_ok interval) (buf b :: points (itr b)).

Definition ended (b : bufIterator) : Prop :=
  points (itr b) = [] /\ key (buf b) = 0.

(** The points a state still has to hand out. *)
Definition pending (b : bufIterator) : list Point :=
  if key (buf b) =? 0 then [] else buf b :: points (itr b).

End MapperSpec.

(** ** The aggregation catalog *)

(** A [for ... range] loop whose body may panic. *)
Fixpoint ofoldl {A B} (f : A -> B -> outcome A) (l : list B) (a : A) : outcome A :=
  match l with
  | [] => Done a
  | x :: l' => a' ← f a x; ofoldl f l' a'
  end.

(** [sort.Sort], [sort.Float64s] and [sort.Strings] belong to Go's library.
    They are modelled by an insertion sort driven by the [Less] the source
    supplies; on a strict total order every sorting algorithm returns the
    same slice. *)

Section Sort.

Context {A : Type} (less : A -> A -> bool).

Fixpoint insert_by (x : A) (l : list A) : list A :=
  match l with
  | [] => [x]
  | y :: l' => if less y x then y :: insert_by x l' else x :: l
  end.

Definition sort_by (l : list A) : list A := fold_right insert_by [] l.

(** [x] may stand before [y]. *)
Definition not_after (x y : A) : Prop := less y x = false.

End Sort.

(** A reduce function: the key, the values collected for it, the emitter. *)
Definition ReduceFunc : Type := Key -> list Value -> Emitter -> emitted Emitter.

Definition len {A} (l : list A) : Z := Z.of_nat (length l).

Module Catalog.

(** [MapCount]: [n := 0; for ... { n++ }; e.Emit(Key{tmin, itr.Tags()}, float64(n))]. *)
Definition MapCount : MapFunc Emitter :=
  fun ps tags tmin e =>
    let n := fold_left (fun n _ => Int64.add n 1) ps 0 in
    (Emit e (mkKey tmin tags) (VFloat (Float64.of_int n)), Done tt).

(** [MapSum]: [n += v.(float64)] over the points drawn. *)
Definition MapSum : MapFunc Emitter :=
  fun ps tags tmin e =>
    match ofoldl (fun n p => v ← asFloat (value p); Done (PrimFloat.add n v))
                 ps Float64.zero with
    | Done n => (Emit e (mkKey tmin tags) (VFloat n), Done tt)
    | Panicked p => (e, Panicked p)
    end.

(** [MapEcho]: the values of the window, in one slice. *)
Definition MapEcho : MapFunc Emitter :=
  fun ps tags tmin e =>
    (Emit e (mkKey tmin tags) (VList (map value ps)), Done tt).

(** [ReduceSum]: [var n float64; for _, v := range values { n += v.(float64) }]. *)
Definition ReduceSum : ReduceFunc :=
  fun key values e =>
    match ofoldl (fun n v => f ← asFloat v; Done (PrimFloat.add n f))
                 values Float64.zero with
    | Done n => (Emit e key (VFloat n), Done tt)
    | Panicked p => (e, Panicked p)
    end.

Section MathLibrary.

(** Two functions of Go's library are left open: [math.Pow], and what the
    conversion [int(f)] yields for a float that is NaN or outside [int64]
    (the language leaves it to the implementation). *)
Variable Pow : float -> float -> float.
Variable int_out_of_range : float -> Z.

(** [ReduceStddev] *)
Definition ReduceStddev : ReduceFunc :=
  fun key values e =>
    match ofoldl (fun data value => l ← asFloats value; Done (data ++ l)) values [] with
    | Panicked p => (e, Panicked p)
    | Done data =>
        if len data =? 0 then (e, Done tt)
        else if len data =? 1 then (Emit e key (VString "undefined"), Done tt)
        else
          let sum := fold_left (fun sum v => PrimFloat.add sum v) data Float64.zero in
          let mean := PrimFloat.div sum (Float64.of_int (len data)) in
          let variance :=
            fold_left (fun variance v =>
                         let dif := PrimFloat.sub v mean in
                         let sq := Pow dif (Float64.of_int 2) in
                         PrimFloat.add variance sq)
                      data Float64.zero in
          let variance := PrimFloat.div variance (Float64.of_int (Int64.sub (len data) 1)) in
          let stddev := PrimFloat.sqrt variance in
          (Emit e key (VFloat stddev), Done tt)
    end.

(** [math.Floor(f)] as an integer, for a finite [f]. *)
Definition floor (f : float) : option Z :=
  match Prim2SF f with
  | S754_zero _ => Some 0
  | S754_finite s m e =>
      let n := if s then Zneg m else Zpos m in
      Some (if 0 <=? e then n * 2 ^ e else n / 2 ^ (- e))
  | _ => None
  end.

(** [int(math.Floor(f))] *)
Definition int_of_Floor (f : float) : Z :=
  match floor f with
  | Some z =>
      if (Int64.min_int <=? z) && (z <=? Int64.max_int) then z
      else int_out_of_range f
  | None => int_out_of_range f
  end.

(** The [Less] of [sort.Float64s]: [x < y || (isNaN(x) && !isNaN(y))]. *)
Definition float_less (x y : float) : bool :=
  PrimFloat.ltb x y || (PrimFloat.is_nan x && negb (PrimFloat.is_nan y)).

Definition half : float := Eval vm_compute in PrimFloat.div (Float64.of_int 1) (Float64.of_int 2).

(** [a[i]] *)
Definition index {A} (a : list A) (i : Z) : outcome A :=
  if (i <? 0) || (len a <=? i) then Panicked IndexOutOfRange
  else match nth_error a (Z.to_nat i) with
       | Some x => Done x
       | None => Panicked IndexOutOfRange
       end.

(** [ReducePercentile(percentile)] *)
Definition ReducePercentile (percentile : float) : ReduceFunc :=
  fun key values e =>
    match ofoldl (fun allValues v =>
                    vals ← asList v;
                    ofoldl (fun allValues v => f ← asFloat v; Done (allValues ++ [f]))
                           vals allValues)
                 values [] with
    | Panicked p => (e, Panicked p)
    | Done allValues =>
        let allValues := sort_by float_less allValues in
        let length := len allValues in
        let index_ :=
          Int64.sub
            (int_of_Floor
               (PrimFloat.add
                  (PrimFloat.div (PrimFloat.mul (Float64.of_int length) percentile)
                                 (Float64.of_int 100))
                  half))
            1 in
        let e1 :=
          if (index_ <? 0) || (index_ >=? len allValues)
          then Emit e key (VFloat Float64.zero)
          else e in
        match index allValues index_ with
        | Done v => (Emit e1 key (VFloat v), Done tt)
        | Panicked p => (e1, Panicked p)
        end
    end.

End MathLibrary.

End Catalog.

(** The sends of a map function called on each window in turn, as
    [Mapper.run] calls it. *)
Fixpoint map_calls {E} (f : MapFunc E) (tags : string)
    (cs : list (Z * list Point)) (e : E) : emitted E :=
  match cs with
  | [] => (e, Done tt)
  | (tmin, ps) :: cs' =>
      match f ps tags tmin e with
      | (e', Done _) => map_calls f tags cs' e'
      | (e', Panicked p) => (e', Panicked p)
      end
  end.

(** The integer a float stands for, when it is one. *)
Definition float_to_Z (f : float) : option Z :=
  match Prim2SF f with
  | S754_zero _ => Some 0
  | S754_finite s m e =>
      let n := if s then Zneg m else Zpos m in
      if 0 <=? e then Some (n * 2 ^ e)
      else if n mod 2 ^ (- e) =? 0 then Some (n / 2 ^ (- e)) else None
  | _ => None
  end.

(** A window of [2^53 + 1] points. *)
Definition many_points : list Point :=
  repeat (mkPoint 1 [] VNil) (Z.to_nat (2 ^ 53 + 1)).

(** *** The standard deviation and the percentile *)

(** The sum of a list of floats, taken from the left starting at 0. *)
Definition fsum (l : list float) : float :=
  fold_left PrimFloat.add l Float64.zero.

(** The sample standard deviation in the words of the specification: the
    square root of the sum of the squared deviations from the mean,
    divided by [n - 1]. *)
Definition spec_sample_stddev (Pow : float -> float -> float) (data : list float)
  : float :=
  let n := len data in
  let mean := PrimFloat.div (fsum data) (Float64.of_int n) in
  let squares := map (fun v => Pow (PrimFloat.sub v mean) (Float64.of_int 2)) data in
  PrimFloat.sqrt (PrimFloat.div (fsum squares) (Float64.of_int (n - 1))).

(** The index [ReducePercentile] computes for [n] values:
    [int(math.Floor(float64(n)*percentile/100.0+0.5)) - 1]. *)
Definition percentile_index (int_out_of_range : float -> Z)
    (percentile : float) (n : Z) : Z :=
  Int64.sub
    (Catalog.int_of_Floor int_out_of_range
       (PrimFloat.add
          (PrimFloat.div (PrimFloat.mul (Float64.of_int n) percentile)
                         (Float64.of_int 100))
          Catalog.half))
    1.

Definition one_to_ten : list float :=
  [3; 1; 2; 10; 9; 8; 7; 6; 5; 4]%float.

(** ** The Reducer *)

(** A reducer reads the emitters of its mappers. An emitter's channel is
    the list of the records sent on it (every batch of an emitter holds
    one key); receiving from the exhausted, closed channel yields the nil
    map, that is no record. *)
Record bufInput : Type := mkBufInput {
  ibuf : option Record_;     (* buf *Record *)
  chan : list Record_        (* c <-chan map[Key]interface{} *)
}.

Module BufInput.

Definition read (i : bufInput) : option Record_ * bufInput :=
  match ibuf i with
  | Some rec => (Some rec, mkBufInput None (chan i))
  | None =>
      match chan i with
      | [] => (None, i)
      | rec :: c' => (Some rec, mkBufInput None c')
      end
  end.

Definition unread (i : bufInput) (rec : option Record_) : bufInput :=
  mkBufInput rec (chan i).

Definition peek (i : bufInput) : option Record_ * bufInput :=
  let '(rec, i1) := read i in (rec, unread i1 rec).

End BufInput.

(** [keySlice.Less] *)
Definition keyLess (a b : Key) : bool :=
  (Timestamp a <? Timestamp b) || String.ltb (Values a) (Values b).

Module ReducerRun.

Import BufInput.

(** The first inner loop of [Reducer.run]: the timestamp of the round. *)
Definition pick_timestamp (bufInputs : list bufInput) : Z * list bufInput :=
  fold_left
    (fun '(timestamp, seen) input =>
       let '(rec, input1) := peek input in
       match rec with
       | None => (timestamp, seen ++ [input1])
       | Some rec =>
           if (timestamp =? 0) || (Timestamp (fst rec) <? timestamp)
           then (Timestamp (fst rec), seen ++ [input1])
           else (timestamp, seen ++ [input1])
       end)
    bufInputs (0, []).

(** [data[rec.Key] = append(data[rec.Key], rec.Value)] *)
Definition append_value (data : gmap Key (list Value)) (rec : Record_)
  : gmap Key (list Value) :=
  <[fst rec := default [] (data !! fst rec) ++ [snd rec]]> data.

(** The loop that reads one input while its records carry the timestamp
    of the round. Every round of it takes a record off the input, so
    [read_input] gives it rounds enough. *)
Fixpoint read_loop (fuel : nat) (timestamp : Z) (input : bufInput)
    (data : gmap Key (list Value)) : bufInput * gmap Key (list Value) :=
  match fuel with
  | O => (input, data)
  | S fuel' =>
      let '(rec, input1) := read input in
      match rec with
      | None => (input1, data)
      | Some rec =>
          if negb (Timestamp (fst rec) =? timestamp)
          then (unread input1 (Some rec), data)
          else read_loop fuel' timestamp input1 (append_value data rec)
      end
  end.

Definition read_input (timestamp : Z) (input : bufInput)
    (data : gmap Key (list Value)) : bufInput * gmap Key (list Value) :=
  read_loop (S (S (length (chan input)))) timestamp input data.

(** The second inner loop: all inputs, one after the other. *)
Definition read_inputs (timestamp : Z) (bufInputs : list bufInput)
  : list bufInput * gmap Key (list Value) :=
  fold_left
    (fun '(seen, data) input =>
       let '(input1, data1) := read_input timestamp input data in
       (seen ++ [input1], data1))
    bufInputs ([], ∅).

(** [keys] after [sort.Sort(keys)]. *)
Definition sorted_keys (data : gmap Key (list Value)) : list Key :=
  sort_by keyLess (map fst (map_to_list data)).

(** The outer loop, over what is done with the keys of a round. *)
Fixpoint run_loop {E} (fuel : nat)
    (round : list Key -> gmap Key (list Value) -> E -> emitted E)
    (bufInputs : list bufInput) (e : E) : E * outcome bool :=
  match fuel with
  | O => (e, Done false)
  | S fuel' =>
      let '(timestamp, bufInputs1) := pick_timestamp bufInputs in
      let '(bufInputs2, data) := read_inputs timestamp bufInputs1 in
      if Z.of_nat (size data) =? 0 then (e, Done true)
      else
        match round (sorted_keys data) data e with
        | (e', Done _) => run_loop fuel' round bufInputs2 e'
        | (e', Panicked p) => (e', Panicked p)
        end
  end.

(** [for _, k := range keys { r.fn(k, data[k], e) }] *)
Fixpoint reduce_keys (fn : ReduceFunc) (keys : list Key)
    (data : gmap Key (list Value)) (e : Emitter) : emitted Emitter :=
  match keys with
  | [] => (e, Done tt)
  | k :: keys' =>
      match fn k (default [] (data !! k)) e with
      | (e', Done _) => reduce_keys fn keys' data e'
      | (e', Panicked p) => (e', Panicked p)
      end
  end.

Definition run (fuel : nat) (fn : ReduceFunc) (inputs : list (list Record_))
    (e : Emitter) : Emitter * outcome bool :=
  run_loop fuel (reduce_keys fn) (map (mkBufInput None) inputs) e.

(** The keys of each round, round by round. *)
Definition record_round : list Key -> gmap Key (list Value)
                          -> list (list Key) -> emitted (list (list Key)) :=
  fun keys _ rounds => (rounds ++ [keys], Done tt).

Definition rounds (fuel : nat) (inputs : list (list Record_))
  : list (list Key) * outcome bool :=
  run_loop fuel record_round (map (mkBufInput None) inputs) [].

(** [Reducer.Reduce]: the inputs are the emitters of the mappers. *)
Definition Reduce (fuel : nat) (fn : ReduceFunc) (mappers : list (Mapper Emitter))
  : Emitter * outcome bool :=
  run fuel fn (map (fun m => fst (MapperRun.run fuel m [])) mappers) [].

End ReducerRun.

Module ReducerSpec.

Import BufInput ReducerRun.

(** Every key of [data] carries the timestamp of the round. *)
Definition at_timestamp (timestamp : Z) (data : gmap Key (list Value)) : Prop :=
  forall k, is_Some (data !! k) -> Timestamp k = timestamp.

(** Tagset order alone. *)
Definition valuesLess (a b : Key) : bool := String.ltb (Values a) (Values b).

End ReducerSpec.

(** Two mappers of one reducer, with interval 10: the first reads a series
    tagged "a" with points at 1 and 11, the second a series tagged "b"
    with a point at 12. *)
Definition mapper_a : Mapper Emitter :=
  mkMapper _ Catalog.MapCount
    (mkIterator [mkPoint 1 [] (VFloat 1%float); mkPoint 11 [] (VFloat 1%float)] "a") 10.
Definition mapper_b : Mapper Emitter :=
  mkMapper _ Catalog.MapCount
    (mkIterator [mkPoint 12 [] (VFloat 1%float)] "b") 10.

(** ** The binary expression evaluator: [run] *)

Module binaryExprEvaluatorRun.

Import binaryExprEvaluator.

(** [for k, v := range lhs { m[k] = e.eval(v, rhs[k]) }]: indexing [rhs]
    with a key it does not hold yields the nil interface. *)
Definition lhs_loop (op : Token) (rhs : gmap Key Value)
    (lhs : list (Key * Value)) (m : gmap Key Value) : outcome (gmap Key Value) :=
  ofoldl (fun m kv =>
            r ← eval op (snd kv) (default VNil (rhs !! fst kv));
            Done (<[fst kv := r]> m))
         lhs m.

(** [for k, v := range rhs { if _, ok := m[k]; ok { continue };
    m[k] = e.eval(float64(0), v) }] *)
Definition rhs_loop (op : Token)
    (rhs : list (Key * Value)) (m : gmap Key Value) : outcome (gmap Key Value) :=
  ofoldl (fun m kv =>
            match m !! fst kv with
            | Some _ => Done m
            | None =>
                r ← eval op (VFloat Float64.zero) (snd kv);
                Done (<[fst kv := r]> m)
            end)
         rhs m.

(** The body of the loop of [run], after the two receives: the batch
    that is sent. *)
Definition merge (op : Token) (lhs rhs : gmap Key Value)
  : outcome (gmap Key Value) :=
  m ← lhs_loop op rhs (map_to_list lhs) ∅;
  rhs_loop op (map_to_list rhs) m.

(** [run]: the batches sent on [e.c] before it is closed, given the
    batches that the two children will send. *)
Fixpoint run (op : Token) (lhsC rhsC : list (gmap Key Value))
  : list (gmap Key Value) * outcome unit :=
  match lhsC, rhsC with
  | lhs :: lhsC', rhs :: rhsC' =>
      match merge op lhs rhs with
      | Done m => let '(out, r) := run op lhsC' rhsC' in (m :: out, r)
      | Panicked p => ([], Panicked p)
      end
  | _, _ => ([], Done tt)
  end.

End binaryExprEvaluatorRun.

(** ** Rows and their order *)

Record Row : Type := mkRow {
  Name : string;
  Tags : gmap string string;
  Columns : list string;
  RowValues : list (list Value)       (* Values [][]interface{} *)
}.

(** [hash/fnv]'s 64-bit FNV-1a, from Go's library: every byte written is
    xor-ed into the state, which is then multiplied by the prime. *)

Module Fnv64a.

Definition offset64 : Z := 14695981039346656037.
Definition prime64 : Z := 1099511628211.

Definition Write (h : Z) (b : list byte) : Z :=
  fold_left (fun h c => (Z.lxor h (Tagset.Z_of_byte c) * prime64) mod 2 ^ 64) b h.

End Fnv64a.

Module Rows.

(** [Row.tagsKeys]: the slice starts as [len(r.Tags)] empty strings, the
    keys are appended to it, and the whole is sorted. *)
Definition tagsKeys (r : Row) : list string :=
  sort_by String.ltb
    (repeat EmptyString (size (Tags r)) ++ map fst (map_to_list (Tags r))).

(** [Row.tagsHash] *)
Definition tagsHash (r : Row) : Z :=
  fold_left
    (fun h k =>
       let h1 := Fnv64a.Write h (Tagset.bytes_of k) in
       Fnv64a.Write h1 (Tagset.bytes_of (default EmptyString (Tags r !! k))))
    (tagsKeys r) Fnv64a.offset64.

(** [Rows.Less] *)
Definition Less (ri rj : Row) : bool :=
  if negb (String.eqb (Name ri) (Name rj))
  then String.ltb (Name ri) (Name rj)
  else tagsHash ri <? tagsHash rj.

End Rows.

Module ExecutorSend.

(** [t := time.Unix(0, values[0].(int64)); values[0] = t.UTC()] *)
Definition normalize_values (values : list Value) : outcome (list Value) :=
  match values with
  | VInt n :: rest => Done (VTime n :: rest)
  | [] => Panicked IndexOutOfRange
  | _ :: _ => Panicked InterfaceConversion
  end.

Definition normalize_row (row : Row) : outcome Row :=
  vs ← ofoldl (fun acc values => v ← normalize_values values; Done (acc ++ [v]))
              (RowValues row) [];
  Done (mkRow (Name row) (Tags row) (Columns row) vs).

(** The end of [Executor.execute], from "Normalize rows and values" on:
    the rows sent on [out], in the order they are sent. The rows come out
    of the map [rows] in the order [range] visits it. *)
Definition send (rows : gmap string Row) : outcome (list Row) :=
  a ← ofoldl (fun a row => r ← normalize_row row; Done (a ++ [r]))
             (map snd (map_to_list rows)) [];
  Done (sort_by Rows.Less a).

End ExecutorSend.

Module RowsSpec.

Import Rows.

(** [ri] may be sent before [rj]: its name is not above, and with equal
    names its hash is not above. *)
Definition le_name_hash (ri rj : Row) : Prop :=
  String.ltb (Name rj) (Name ri) = false /\
  (Name ri = Name rj -> tagsHash ri <= tagsHash rj).

(** A row as the assembly loop builds it: every value array starts with
    the timestamp, an [int64]. *)
Definition timestamped (row : Row) : Prop :=
  Forall (fun values => exists n rest, values = VInt n :: rest) (RowValues row).

End RowsSpec.

(** Two series of one measurement, tagged host=A and host=B. *)
Definition row_host (host : string) (ts : Z) : Row :=
  mkRow "cpu" {[ "host"%string := host ]} ["time"; "count"]%string
        [[VInt ts; VFloat 3%float]].

Definition two_rows : gmap string Row :=
  {[ "A"%string := row_host "A" 10; "B"%string := row_host "B" 10 ]}.

Definition two_rows_sent : list Row := Eval vm_compute in
    match ExecutorSend.send two_rows with Done out => out | Panicked _ => [] end.

Definition row_sent (n : nat) : Row := nth n two_rows_sent (row_host "" 0).

(** ** The planner *)

(** Modelled from the spec: the expression tree of a statement (the
    parser's AST is not part of the sources; the constructors are the
    cases of the type switch in [planExpr]). *)
Inductive Expr : Type :=
| VarRef (val : string)
| Call (name : string) (args : list Expr)
| BinaryExpr (op : Token) (lhs rhs : Expr)
| ParenExpr (e : Expr)
| NumberLiteral (val : float)
| StringLiteral (val : string)
| BooleanLiteral (val : bool)
| TimeLiteral (val : Z)
| DurationLiteral (val : Z).

(** The errors [Plan] returns, by the statement that creates them. *)
Inductive error : Type :=
| ErrRawMixed                 (* "query has a raw field mixed with an aggregate in the select" *)
| ErrTwoArguments             (* "expected two arguments for percentile()" *)
| ErrOneArgument (name : string)    (* "expected one argument for %s()" *)
| ErrFieldArgument (name : string)  (* "expected field argument in %s()" *)
| ErrFloatArgument            (* "expected float argument in percentile()" *)
| ErrFunctionNotFound (name : string)  (* "function not found: %q" *)
| ErrLhs (err : error)        (* "lhs: %s" *)
| ErrRhs (err : error)        (* "rhs: %s" *)
| ErrStorage (msg : string).  (* an error passed on from the database *)

Inductive planned (A : Type) : Type :=
| Planned (a : A)
| Failed (err : error)
| Crashed (p : panic).
Arguments Planned {A} a.
Arguments Failed {A} err.
Arguments Crashed {A} p.

(** The pair of functions [planCall] selects. *)
Inductive Aggregate : Type :=
| AggCount | AggSum | AggMean | AggMin | AggMax | AggSpread | AggStddev
| AggFirst | AggLast
| AggPercentile (p : float)
| AggRawQuery.

Inductive Processor : Type :=
| ReducerProcessor (name : string) (fns : Aggregate) (itrs : list Iterator)
                   (interval : Z) (isRawQuery : bool)
| BinaryProcessor (op : Token) (lhs rhs : Processor)
| LiteralProcessor (val : Value).

(** What the planner takes from outside the engine: the statement type
    with its methods, the [DB] and [Tx] interfaces, and
    [strings.ToLower]. An error of the outside is its message. *)
Record Externals : Type := mkExternals {
  Statement : Type;
  Fields : Statement -> list Expr;                 (* the Expr of each of stmt.Fields *)
  prepare : Statement -> Statement;                (* Clone, then Reduce with now *)
  Begin : option string;                           (* the error of DB.Begin, if any *)
  Normalize : Statement -> (Z * list string) + string;   (* stmt.Dimensions.Normalize *)
  Substatement : Statement -> string -> Statement + string;
  CreateIterators : Statement -> list Iterator + string;
  FieldIDs : Statement -> option string;           (* the error of Tx.FieldIDs, if any *)
  measurementName : Statement -> option string;    (* the name of the Measurement that is stmt.Source *)
  lastIdent : string -> string;
  ToLower : string -> string
}.

Record Executor (X : Externals) : Type := mkExecutor {
  stmt : Statement X;
  einterval : Z;
  etags : list string
}.
Arguments mkExecutor {X} _ _ _.
Arguments stmt {X} _.
Arguments einterval {X} _.
Arguments etags {X} _.

Module Planner.

Section WithExternals.
Context {X : Externals}.

(** The [switch strings.ToLower(c.Name)] of [planCall]. *)
Definition lookup (name : string) (args : list Expr) : planned Aggregate :=
  let lower := ToLower X name in
  if String.eqb lower "count" then Planned AggCount
  else if String.eqb lower "sum" then Planned AggSum
  else if String.eqb lower "mean" then Planned AggMean
  else if String.eqb lower "min" then Planned AggMin
  else if String.eqb lower "max" then Planned AggMax
  else if String.eqb lower "spread" then Planned AggSpread
  else if String.eqb lower "stddev" then Planned AggStddev
  else if String.eqb lower "first" then Planned AggFirst
  else if String.eqb lower "last" then Planned AggLast
  else if String.eqb lower "percentile" then
    match nth_error args 1 with
    | None => Crashed IndexOutOfRange
    | Some (NumberLiteral val) => Planned (AggPercentile val)
    | Some _ => Failed ErrFloatArgument
    end
  else Failed (ErrFunctionNotFound name).

(** [planCall] *)
Definition planCall (e : Executor X) (name : string) (args : list Expr)
  : planned Processor :=
  if String.eqb name "percentile" && negb (len args =? 2)
  then Failed ErrTwoArguments
  else if negb (String.eqb name "percentile") && negb (len args =? 1)
  then Failed (ErrOneArgument name)
  else
    match nth_error args 0 with
    | None => Crashed IndexOutOfRange
    | Some (VarRef ref) =>
        match Substatement X (stmt e) ref with
        | inr msg => Failed (ErrStorage msg)
        | inl sub =>
            match CreateIterators X sub with
            | inr msg => Failed (ErrStorage msg)
            | inl itrs =>
                match lookup name args with
                | Failed err => Failed err
                | Crashed p => Crashed p
                | Planned fns =>
                    match measurementName X sub with
                    | None => Crashed InterfaceConversion
                    | Some n =>
                        Planned (ReducerProcessor (lastIdent X n) fns itrs
                                                  (einterval e) false)
                    end
                end
            end
        end
    | Some _ => Failed (ErrFieldArgument name)
    end.

(** [planExpr], with [planBinaryExpr] in its place. *)
Fixpoint planExpr (e : Executor X) (expr : Expr) : planned Processor :=
  match expr with
  | VarRef _ => Failed ErrRawMixed
  | Call name args => planCall e name args
  | BinaryExpr op lhs rhs =>
      match planExpr e lhs with
      | Failed err => Failed (ErrLhs err)
      | Crashed p => Crashed p
      | Planned l =>
          match planExpr e rhs with
          | Failed err => Failed (ErrRhs err)
          | Crashed p => Crashed p
          | Planned r => Planned (BinaryProcessor op l r)
          end
      end
  | ParenExpr expr' => planExpr e expr'
  | NumberLiteral val => Planned (LiteralProcessor (VFloat val))
  | StringLiteral val => Planned (LiteralProcessor (VString val))
  | BooleanLiteral val => Planned (LiteralProcessor (VBool val))
  | TimeLiteral val => Planned (LiteralProcessor (VTime val))
  | DurationLiteral val => Planned (LiteralProcessor (VDuration val))
  end.

(** [planRawQuery] *)
Definition planRawQuery (e : Executor X) : planned Processor :=
  match CreateIterators X (stmt e) with
  | inr msg => Failed (ErrStorage msg)
  | inl itrs =>
      match FieldIDs X (stmt e) with
      | Some msg => Failed (ErrStorage msg)
      | None =>
          match measurementName X (stmt e) with
          | None => Crashed InterfaceConversion
          | Some n =>
              Planned (ReducerProcessor (lastIdent X n) AggRawQuery itrs
                                        (einterval e) true)
          end
      end
  end.

(** The loop of [Plan] over the fields: it stops at the first field that
    cannot be planned. *)
Fixpoint planFields (e : Executor X) (fields : list Expr)
  : planned (list Processor) :=
  match fields with
  | [] => Planned []
  | f :: fields' =>
      match planExpr e f with
      | Failed err => Failed err
      | Crashed p => Crashed p
      | Planned p =>
          match planFields e fields' with
          | Planned ps => Planned (p :: ps)
          | other => other
          end
      end
  end.

(** [Plan]: the processors of the executor it returns. *)
Definition Plan (statement : Statement X) : planned (list Processor) :=
  let statement := prepare X statement in
  match Begin X with
  | Some msg => Failed (ErrStorage msg)
  | None =>
      match Normalize X statement with
      | inr msg => Failed (ErrStorage msg)
      | inl (interval, tags) =>
          let e := mkExecutor statement interval tags in
          match Fields X statement with
          | [] => Crashed IndexOutOfRange
          | VarRef _ :: _ =>
              match planRawQuery e with
              | Planned p => Planned [p]
              | Failed err => Failed err
              | Crashed p => Crashed p
              end
          | fields => planFields e fields
          end
      end
  end.

End WithExternals.

End Planner.

(** Where a call stands in a field of the statement, as [planExpr] and
    [planBinaryExpr] descend to it: it is the field, or it stands in
    parentheses, or in an operand of a binary expression. The arguments
    of a call are no such place: [planCall] plans none of them. *)
Module PlannerSpec.

Inductive Place : Type :=
| Here
| InParen (p : Place)
| InLhs (op : Token) (p : Place) (rhs : Expr)
| InRhs (op : Token) (lhs : Expr) (p : Place).

(** The field that has the expression [c] at the place [p]. *)
Fixpoint field_with (p : Place) (c : Expr) : Expr :=
  match p with
  | Here => c
  | InParen p' => ParenExpr (field_with p' c)
  | InLhs op p' rhs => BinaryExpr op (field_with p' c) rhs
  | InRhs op lhs p' => BinaryExpr op lhs (field_with p' c)
  end.

(** An error of the place as the field returns it: every binary
    expression on the way puts "lhs: " or "rhs: " in front. *)
Fixpoint prefixed (p : Place) (err : error) : error :=
  match p with
  | Here => err
  | InParen p' => prefixed p' err
  | InLhs _ p' _ => ErrLhs (prefixed p' err)
  | InRhs _ _ p' => ErrRhs (prefixed p' err)
  end.

Section WithExternals.
Context {X : Externals}.

(** The expression is planned without an error. *)
Definition plans (e : Executor X) (expr : Expr) : bool :=
  match Planner.planExpr e expr with
  | Planned _ => true
  | _ => false
  end.

(** Planning the field gets to the place: the left operand is planned
    without an error wherever the place is in the right operand. *)
Fixpoint reached (e : Executor X) (p : Place) : bool :=
  match p with
  | Here => true
  | InParen p' => reached e p'
  | InLhs _ p' _ => reached e p'
  | InRhs _ lhs p' => plans e lhs && reached e p'
  end.

End WithExternals.

End PlannerSpec.

(** A storage that accepts every statement: a statement is the list of
    its fields, every substatement has one empty iterator, and [ToLower]
    lowers the letters A to Z. *)
Definition lower_ascii (c : ascii) : ascii :=
  let n := nat_of_ascii c in
  if (65 <=? n)%nat && (n <=? 90)%nat then ascii_of_nat (n + 32) else c.

Fixpoint lower_string (s : string) : string :=
  match s with
  | EmptyString => EmptyString
  | String c s' => String (lower_ascii c) (lower_string s')
  end.

Definition demo : Externals :=
  mkExternals (list Expr) (fun s => s) (fun s => s) None
              (fun _ => inl (0, []))
              (fun s _ => inl s) (fun _ => inl [mkIterator [] ""])
              (fun _ => None) (fun _ => Some "cpu"%string) (fun n => n)
              lower_string.

Definition demo_executor (fields : list Expr) : Executor demo :=
  mkExecutor (fields : Statement demo) 0 [].

(** ** More of the aggregation catalog *)

(** [emitBatchSize]: how many values are mapped before emitting. *)
Definition emitBatchSize : Z := 1000.

Module Aggregates.

(** The loop of [MapStddev]: the values collected and not yet sent when
    the loop ends, and what was sent on the way. *)
Fixpoint MapStddev_loop (ps : list Point) (k : Key) (values : list float)
    (e : Emitter) : list float * emitted Emitter :=
  match ps with
  | [] => (values, (e, Done tt))
  | p :: ps' =>
      match asFloat (value p) with
      | Panicked x => (values, (e, Panicked x))
      | Done v =>
          let values := values ++ [v] in
          if len values =? emitBatchSize
          then MapStddev_loop ps' k [] (Emit e k (VFloats values))
          else MapStddev_loop ps' k values e
      end
  end.

(** [MapStddev] *)
Definition MapStddev : MapFunc Emitter :=
  fun ps tags tmax e =>
    match MapStddev_loop ps (mkKey tmax tags) [] e with
    | (values, (e1, Done _)) =>
        if len values >? 0
        then (Emit e1 (mkKey tmax tags) (VFloats values), Done tt)
        else (e1, Done tt)
    | (_, (e1, Panicked x)) => (e1, Panicked x)
    end.

(** The structs that the mean and the first and last aggregates send from
    Map to Reduce. *)
Record meanMapOutput : Type := mkMeanMapOutput { Count : Z; Sum : float }.

Record firstLastMapOutput : Type := mkFirstLastMapOutput { Time : Z; Val : Value }.

(** [interface{}] as these aggregates use it: the dynamic types of [Value]
    and the two structs. *)
Inductive Intermediate : Type :=
| IValue (v : Value)
| IMean (out : meanMapOutput)              (* *meanMapOutput *)
| IFirstLast (out : firstLastMapOutput).   (* firstLastMapOutput *)

(** [v.( *meanMapOutput)] *)
Definition asMean (v : Intermediate) : outcome meanMapOutput :=
  match v with
  | IMean out => Done out
  | _ => Panicked InterfaceConversion
  end.

(** [v.(firstLastMapOutput)] *)
Definition asFirstLast (v : Intermediate) : outcome firstLastMapOutput :=
  match v with
  | IFirstLast out => Done out
  | _ => Panicked InterfaceConversion
  end.

(** An emitter of such values, and a reduce function over them. *)
Definition IEmitter : Type := list (Key * Intermediate).

Definition IEmit (e : IEmitter) (key : Key) (v : Intermediate) : IEmitter :=
  e ++ [(key, v)].

Definition IReduceFunc : Type := Key -> list Intermediate -> IEmitter -> emitted IEmitter.

(** [MapMean]: [out.Count++; out.Sum += v.(float64)] over the points
    drawn, and an emit when [out.Count > 0]. *)
Definition MapMean : MapFunc IEmitter :=
  fun ps tags tmin e =>
    match ofoldl (fun out p =>
                    let count := Int64.add (Count out) 1 in
                    v ← asFloat (value p);
                    Done (mkMeanMapOutput count (PrimFloat.add (Sum out) v)))
                 ps (mkMeanMapOutput 0 Float64.zero) with
    | Done out =>
        if Count out >? 0 then (IEmit e (mkKey tmin tags) (IMean out), Done tt)
        else (e, Done tt)
    | Panicked x => (e, Panicked x)
    end.

(** [ReduceMean] *)
Definition ReduceMean : IReduceFunc :=
  fun key values e =>
    match ofoldl (fun out v =>
                    val ← asMean v;
                    Done (mkMeanMapOutput (Int64.add (Count out) (Count val))
                                          (PrimFloat.add (Sum out) (Sum val))))
                 values (mkMeanMapOutput 0 Float64.zero) with
    | Done out =>
        if Count out >? 0
        then (IEmit e key
                (IValue (VFloat (PrimFloat.div (Sum out) (Float64.of_int (Count out))))),
              Done tt)
        else (e, Done tt)
    | Panicked x => (e, Panicked x)
    end.

(** The body of the loops of [MapFirst], [ReduceFirst], [MapLast] and
    [ReduceLast], which differ in the comparison only ([<] for the first,
    [>] for the last): [out] is initialized with the first time and value
    seen, and replaced when the time seen comes [before] its own. *)
Definition firstLast_step (before : Z -> Z -> bool)
    (st : firstLastMapOutput * bool) (k : Z) (v : Value)
  : firstLastMapOutput * bool :=
  let '(out, pointsYielded) := st in
  let out := if negb pointsYielded then mkFirstLastMapOutput k v else out in
  let out := if before k (Time out) then mkFirstLastMapOutput k v else out in
  (out, true).

(** [firstLastMapOutput{}] and [pointsYielded := false] *)
Definition firstLast_init : firstLastMapOutput * bool :=
  (mkFirstLastMapOutput 0 VNil, false).

Definition map_firstLast (before : Z -> Z -> bool) : MapFunc IEmitter :=
  fun ps tags tmax e =>
    let '(out, pointsYielded) :=
      fold_left (fun st p => firstLast_step before st (key p) (value p))
                ps firstLast_init in
    if pointsYielded then (IEmit e (mkKey tmax tags) (IFirstLast out), Done tt)
    else (e, Done tt).

Definition reduce_firstLast (before : Z -> Z -> bool) : IReduceFunc :=
  fun key values e =>
    match ofoldl (fun st v =>
                    val ← asFirstLast v;
                    Done (firstLast_step before st (Time val) (Val val)))
                 values firstLast_init with
    | Done (out, pointsYielded) =>
        if pointsYielded then (IEmit e key (IValue (Val out)), Done tt)
        else (e, Done tt)
    | Panicked x => (e, Panicked x)
    end.

(** [MapFirst] and [ReduceFirst]: [if k < out.Time]. *)
Definition MapFirst : MapFunc IEmitter := map_firstLast Z.ltb.
Definition ReduceFirst : IReduceFunc := reduce_firstLast Z.ltb.

(** [MapLast] and [ReduceLast]: [if k > out.Time]. *)
Definition MapLast : MapFunc IEmitter := map_firstLast Z.gtb.
Definition ReduceLast : IReduceFunc := reduce_firstLast Z.gtb.

End Aggregates.

Module AggregateSpec.

(** A point whose value is a [float64], and the float it carries. *)
Definition float_point (p : Point) : Prop := exists f, value p = VFloat f.

Definition point_float (p : Point) : float :=
  match value p with
  | VFloat f => f
  | _ => Float64.zero
  end.

(** The sum [MapMean] forms over a window, and the windows it emits for:
    those that hold a point. *)
Definition window_sum (ps : list Point) : float := fsum (map point_float ps).

Definition sent_windows (cs : list (Z * list Point)) : list (list Point) :=
  List.filter (fun ps => match ps with [] => false | _ :: _ => true end) (map snd cs).

(** The records [MapMean] sends over the windows [cs]. *)
Definition mean_records (tags : string) (cs : list (Z * list Point))
  : Aggregates.IEmitter :=
  concat (map (fun c =>
                 match snd c with
                 | [] => []
                 | _ :: _ =>
                     [(mkKey (fst c) tags,
                       Aggregates.IMean
                         (Aggregates.mkMeanMapOutput (len (snd c)) (window_sum (snd c))))]
                 end) cs).

(** What [MapFirst] and [MapLast] send over the windows [cs]: a time and
    a value for each window that holds a point. *)
Definition firstLast_outputs (before : Z -> Z -> bool) (chunks : list (list Point))
  : list Aggregates.firstLastMapOutput :=
  concat (map (fun ps =>
                 match ps with
                 | [] => []
                 | _ :: _ =>
                     [fst (fold_left
                             (fun st p =>
                                Aggregates.firstLast_step before st (key p) (value p))
                             ps Aggregates.firstLast_init)]
                 end) chunks).

(** The element at index [i] of [l] is the best of [l] for the comparison
    [before] of the times [kf] gives, and the first of the best ones. *)
Definition optimal_at {A : Type} (before : Z -> Z -> bool) (kf : A -> Z)
    (l : list A) (i : nat) (x : A) : Prop :=
  l !! i = Some x
  /\ (forall y, y ∈ l -> before (kf y) (kf x) = false)
  /\ (forall (j : nat) y, (j < i)%nat -> l !! j = Some y -> before (kf x) (kf y) = true).

(** The point at index [i] of [ps] is the earliest of [ps], and the first
    of the earliest ones. *)
Definition earliest_at (ps : list Point) (i : nat) (p : Point) : Prop :=
  ps !! i = Some p
  /\ (forall q, q ∈ ps -> key p <= key q)
  /\ (forall (j : nat) q, (j < i)%nat -> ps !! j = Some q -> key p < key q).

(** The point at index [i] of [ps] is the latest of [ps], and the first
    of the latest ones. *)
Definition latest_at (ps : list Point) (i : nat) (p : Point) : Prop :=
  ps !! i = Some p
  /\ (forall q, q ∈ ps -> key q <= key p)
  /\ (forall (j : nat) q, (j < i)%nat -> ps !! j = Some q -> key q < key p).

End AggregateSpec.

(** ** The merge of the Reducer, in the terms of its inputs *)

Module ReducerMergeSpec.

(** The timestamp of a record. *)
Definition ts (r : Record_) : Z := Timestamp (fst r).

(** The records an input still has to hand out: the one put back, if any,
    and then the channel. *)
Definition pending (b : bufInput) : list Record_ :=
  match ibuf b with
  | Some r => r :: chan b
  | None => chan b
  end.

(** The records at the head of [l] with timestamp [T], and the rest. *)
Fixpoint take_eq (T : Z) (l : list Record_) : list Record_ :=
  match l with
  | [] => []
  | r :: l' => if ts r =? T then r :: take_eq T l' else []
  end.

Fixpoint drop_eq (T : Z) (l : list Record_) : list Record_ :=
  match l with
  | [] => []
  | r :: l' => if ts r =? T then drop_eq T l' else l
  end.

(** An input whose timestamps do not decrease. *)
Definition ordered (l : list Record_) : Prop :=
  StronglySorted (fun a b => ts a <= ts b) l.

(** The order of keys by timestamp, then tagset. *)
Definition key_lt (a b : Key) : Prop :=
  Timestamp a < Timestamp b
  \/ (Timestamp a = Timestamp b /\ String.ltb (Values a) (Values b) = true).

(** One round of the first inner loop of [Reducer.run], on the timestamp
    alone. *)
Definition min_step (t : Z) (b : bufInput) : Z :=
  match pending b with
  | [] => t
  | r :: _ => if (t =? 0) || (ts r <? t) then ts r else t
  end.

(** The invariant of the outer loop: every input is ordered and past the
    timestamp [T] of the round before. *)
Definition past (T : Z) (bs : list bufInput) : Prop :=
  Forall (fun b => ordered (pending b) /\ Forall (fun r => T < ts r) (pending b)) bs.

Definition all_pending (bs : list bufInput) : list Record_ :=
  concat (map pending bs).

(** The values the records of [l] carry for the key [k], in the order of
    [l]. *)
Definition values_of (k : Key) (l : list Record_) : list Value :=
  map snd (List.filter (fun r => bool_decide (fst r = k)) l).

(** A reduce function called on each key of [keys] in turn, with the
    values [l] carries for the key, up to the first call that panics. *)
Fixpoint reduce_in_order {E} (fn : Key -> list Value -> E -> emitted E)
    (keys : list Key) (l : list Record_) (e : E) : E * outcome bool :=
  match keys with
  | [] => (e, Done true)
  | k :: keys' =>
      match fn k (values_of k l) e with
      | (e', Done _) => reduce_in_order fn keys' l e'
      | (e', Panicked p) => (e', Panicked p)
      end
  end.

(** A reduce function called on each record of [l] in turn, with the
    value of the record alone, up to the first call that panics. *)
Fixpoint each_record {E} (fn : Key -> list Value -> E -> emitted E)
    (l : list Record_) (e : E) : E * outcome bool :=
  match l with
  | [] => (e, Done true)
  | r :: l' =>
      match fn (fst r) [snd r] e with
      | (e', Done _) => each_record fn l' e'
      | (e', Panicked p) => (e', Panicked p)
      end
  end.

End ReducerMergeSpec.

(** ** The binary expression evaluator on batches of floats *)

Module binaryExprSpec.

(** The arithmetic of [eval] on two floats. *)
Definition arith (op : Token) (l r : float) : float :=
  match op with
  | ADD => PrimFloat.add l r
  | SUB => PrimFloat.sub l r
  | MUL => PrimFloat.mul l r
  | DIV => if Float64.eqb r Float64.zero then Float64.zero else PrimFloat.div l r
  | OtherToken => Float64.zero
  end.

(** The batch for a left batch [fl] and a right batch [fr]: a value for
    every key of [fr], computed from the value [fl] has for the key, or
    from 0. *)
Definition merged (op : Token) (fl fr : gmap Key float) : gmap Key float :=
  map_imap (fun k r => Some (arith op (default Float64.zero (fl !! k)) r)) fr.

(** A batch of floats as it travels: every value a [float64]. *)
Definition batch (f : gmap Key float) : gmap Key Value := VFloat <$> f.

End binaryExprSpec.

(** ** Rows: the tag keys and the hash, in the terms of the tags *)

Module RowsVisit.

(** [Row.tagsKeys] when [range] visits the keys of [r.Tags] in the order
    [visit]. *)
Definition tagsKeys_visiting (r : Row) (visit : list string) : list string :=
  sort_by String.ltb (repeat EmptyString (size (Tags r)) ++ visit).

(** The hash state after writing the keys of [keys] with their values, as
    the loop of [Row.tagsHash] does. *)
Definition hash_over (r : Row) (keys : list string) : Z :=
  fold_left
    (fun h k =>
       let h1 := Fnv64a.Write h (Tagset.bytes_of k) in
       Fnv64a.Write h1 (Tagset.bytes_of (default EmptyString (Tags r !! k))))
    keys Fnv64a.offset64.

(** The tag keys of a row, in the order of the map. *)
Definition keys_of (r : Row) : list string := map fst (map_to_list (Tags r)).

(** A row after the conversion of its times. *)
Definition normalized_values (values : list Value) : list Value :=
  match values with
  | VInt n :: rest => VTime n :: rest
  | _ => values
  end.

Definition normalized (row : Row) : Row :=
  mkRow (Name row) (Tags row) (Columns row) (map normalized_values (RowValues row)).

End RowsVisit.

(** ** Row assembly: [createRowValuesIfNotExists] *)

(** The decimal digits of a number, for [fmt.Sprintf("col%d", i)]. *)
Fixpoint digits (d : Decimal.uint) : string :=
  match d with
  | Decimal.Nil => EmptyString
  | Decimal.D0 d => String "0" (digits d)
  | Decimal.D1 d => String "1" (digits d)
  | Decimal.D2 d => String "2" (digits d)
  | Decimal.D3 d => String "3" (digits d)
  | Decimal.D4 d => String "4" (digits d)
  | Decimal.D5 d => String "5" (digits d)
  | Decimal.D6 d => String "6" (digits d)
  | Decimal.D7 d => String "7" (digits d)
  | Decimal.D8 d => String "8" (digits d)
  | Decimal.D9 d => String "9" (digits d)
  end.

(** What the function reads of its executor: [e.tags], the names
    [f.Name()] of the fields [e.stmt.Fields], and [len(e.processors)]. *)
Record RowContext : Type := mkRowContext {
  ctags : list string;
  fieldNames : list string;
  nprocessors : Z
}.

Module RowAssembly.

(** The tag map of a new row: [row.Tags[e.tags[i]] = v] for the strings
    [v] decoded from the tagset. *)
Definition new_tags (tags : list string) (tagset : string)
  : outcome (gmap string string) :=
  vs ← Tagset.UnmarshalStrings (Tagset.bytes_of tagset);
  ofoldl (fun m iv =>
            k ← Catalog.index tags (Z.of_nat (fst iv));
            Done (<[k := snd iv]> m))
         (imap pair vs) ∅.

(** The column names of a new row. *)
Definition new_columns (names : list string) : list string :=
  "time"%string
  :: imap (fun i name =>
             if String.eqb name "" then ("col" ++ digits (Nat.to_uint i))%string
             else name)
          names.

(** [row.Values[len(row.Values)-1][0] != timestamp]: the interface value
    differs from the [int64] unless it holds an [int64] equal to it. *)
Definition differs (values : list Value) (timestamp : Z) : outcome bool :=
  v ← Catalog.index values 0;
  Done (negb (match v with VInt n => n =? timestamp | _ => false end)).

(** [make([]interface{}, len(e.processors)+1)] with [values[0] = timestamp]. *)
Definition new_values (c : RowContext) (timestamp : Z) : list Value :=
  VInt timestamp :: repeat VNil (Z.to_nat (nprocessors c)).

(** [createRowValuesIfNotExists]: the map of rows after the call, the row
    and the value array returned. *)
Definition createRowValuesIfNotExists (c : RowContext) (rows : gmap string Row)
    (name : string) (timestamp : Z) (tagset : string)
  : outcome (gmap string Row * Row * list Value) :=
  row ← match rows !! tagset with
        | Some row => Done row
        | None =>
            tags ← new_tags (ctags c) tagset;
            Done (mkRow name tags (new_columns (fieldNames c)) [])
        end;
  fresh ← match last (RowValues row) with
          | None => Done true
          | Some values => differs values timestamp
          end;
  let row :=
    if (fresh : bool)
    then mkRow (Name row) (Tags row) (Columns row)
               (RowValues row ++ [new_values c timestamp])
    else row in
  match last (RowValues row) with
  | Some values => Done (<[tagset := row]> rows, row, values)
  | None => Panicked IndexOutOfRange
  end.

End RowAssembly.

(** An executor grouping by host and region, with two fields of which the
    second has no name. *)
Definition demo_context : RowContext :=
  mkRowContext ["host"; "region"]%string ["count"; ""]%string 2.

(** * Properties

    Everything above is the embedding of the source. What follows are the
    facts about it, module by module, and the theorems that settle the
    claims. *)

(** Settles a boolean integer test that the context decides. *)
Ltac Zb_false t :=
  replace t with false
    by (symmetry;
        first [ apply Z.eqb_neq; lia
              | rewrite Z.gtb_ltb; apply Z.ltb_ge; lia
              | rewrite Z.geb_leb; apply Z.leb_gt; lia
              | apply Z.ltb_ge; lia
              | apply Z.leb_gt; lia ]).
Ltac Zb_true t :=
  replace t with true
    by (symmetry;
        first [ apply Z.eqb_eq; lia
              | rewrite Z.gtb_ltb; apply Z.ltb_lt; lia
              | rewrite Z.geb_leb; apply Z.leb_le; lia
              | apply Z.ltb_lt; lia
              | apply Z.leb_le; lia ]).

(** ** Machine integers *)

Module Int64Facts.

Import Int64.

Lemma wrap64_id z : in_range z -> wrap64 z = z.
Proof.
  unfold in_range, min_int, max_int, wrap64. intros H.
  rewrite Z.mod_small; lia.
Qed.

End Int64Facts.

(** ** Integers in binary64

    Counting in [float64] is exact as long as the count stays at or below
    [2^53]. The proof goes through the specification of the kernel's
    floats ([SpecFloat]): the float of a natural number is a mantissa of
    53 bits with the matching exponent, and the sum of two such floats is
    rounded from a mantissa whose dropped bits are all zero. *)

Module Float64Facts.

Import Float64Spec.

Lemma digits2_pos_size p : digits2_pos p = Pos.size p.
Proof. induction p; simpl; congruence. Qed.

Lemma iter_pos_iter {A} (f : A -> A) p : forall x, SpecFloat.iter_pos f p x = Pos.iter f x p.
Proof.
  induction p as [p IH|p IH|]; intros x; simpl.
  - rewrite !IH, !Pos.iter_swap. reflexivity.
  - rewrite !IH. reflexivity.
  - reflexivity.
Qed.

Lemma shr_iter_xO j : forall x,
  Pos.iter shr_1 (exact (Zpos (Pos.iter xO x j))) j = exact (Zpos x).
Proof.
  induction j as [|j IH] using Pos.peano_ind; intros x.
  - reflexivity.
  - rewrite Pos.iter_succ_r, Pos.iter_succ. simpl shr_1. apply IH.
Qed.

Lemma size_iter_xO x j : Pos.size (Pos.iter xO x j) = (Pos.size x + j)%positive.
Proof.
  induction j as [|j IH] using Pos.peano_ind.
  - simpl. lia.
  - rewrite Pos.iter_succ. simpl. rewrite IH. lia.
Qed.

Lemma Zpos_iter_xO x j : Zpos (Pos.iter xO x j) = Zpos x * 2 ^ Zpos j.
Proof.
  induction j as [|j IH] using Pos.peano_ind.
  - simpl. lia.
  - rewrite Pos.iter_succ, Pos2Z.inj_xO, IH, Pos2Z.inj_succ.
    rewrite Z.pow_succ_r by (apply Pos2Z.is_nonneg).
    ring.
Qed.

Lemma size_bounds p : 2 ^ Zpos (Pos.size p) <= 2 * Zpos p < 2 * 2 ^ Zpos (Pos.size p).
Proof.
  pose proof (Pos.size_gt p) as H1. pose proof (Pos.size_le p) as H2.
  apply Pos2Z.pos_lt_pos in H1. apply Pos2Z.pos_le_pos in H2.
  rewrite Pos2Z.inj_pow in H1, H2. change (Z.pos p~0) with (2 * Z.pos p) in H2.
  lia.
Qed.

(** A mantissa of 53 bits with its exponent is a float as it stands. *)
Lemma binary_round_aux_normal x e :
  Pos.size x = 53%positive -> -1074 <= e <= 971 ->
  binary_round_aux prec emax false (Zpos x) e loc_Exact = S754_finite false x e.
Proof.
  intros Hx He. unfold binary_round_aux, shr_fexp. cbn [Zdigits2].
  rewrite digits2_pos_size, Hx.
  replace (fexp prec emax (53 + e) - e) with 0
    by (unfold fexp, SpecFloat.emin, prec, emax; lia).
  cbn [shr shr_record_of_loc shr_m loc_of_shr_record round_nearest_even Zdigits2].
  rewrite digits2_pos_size, Hx.
  replace (fexp prec emax (53 + e) - e) with 0
    by (unfold fexp, SpecFloat.emin, prec, emax; lia).
  cbn [shr shr_record_of_loc shr_m].
  replace (e <=? emax - prec) with true
    by (symmetry; apply Z.leb_le; unfold emax, prec; lia).
  reflexivity.
Qed.

(** Rounding a mantissa with [s] trailing zero bits beyond 53. *)
Lemma binary_round_long mx x s e :
  Pos.size x = 53%positive -> -1074 <= e <= 971 -> 0 <= s ->
  Zpos mx = Zpos x * 2 ^ s ->
  binary_round prec emax false mx (e - s) = S754_finite false x e.
Proof.
  intros Hx He Hs Hmx. unfold binary_round.
  destruct s as [|j|j]; [| |lia].
  - assert (mx = x) by lia. subst mx.
    rewrite digits2_pos_size, Hx.
    replace (fexp prec emax (53 + (e - 0))) with e
      by (unfold fexp, SpecFloat.emin, prec, emax; lia).
    unfold shl_align. replace (e - (e - 0)) with 0 by lia.
    replace (e - 0) with e by lia.
    apply binary_round_aux_normal; assumption.
  - assert (mx = Pos.iter xO x j) by (rewrite <- Zpos_iter_xO in Hmx; congruence).
    subst mx.
    rewrite digits2_pos_size, size_iter_xO, Hx.
    replace (fexp prec emax (Zpos (53 + j) + (e - Zpos j))) with e
      by (unfold fexp, SpecFloat.emin, prec, emax; lia).
    unfold shl_align. replace (e - (e - Zpos j)) with (Zpos j) by lia.
    unfold binary_round_aux, shr_fexp. cbn [Zdigits2].
    rewrite digits2_pos_size, size_iter_xO, Hx.
    replace (fexp prec emax (Zpos (53 + j) + (e - Zpos j)) - (e - Zpos j))
      with (Zpos j) by (unfold fexp, SpecFloat.emin, prec, emax; lia).
    cbn [shr shr_record_of_loc].
    rewrite iter_pos_iter. fold (exact (Zpos (Pos.iter xO x j))).
    rewrite shr_iter_xO.
    cbn [exact shr_m loc_of_shr_record round_nearest_even Zdigits2].
    replace (e - Zpos j + Zpos j) with e by lia.
    rewrite digits2_pos_size, Hx.
    replace (fexp prec emax (53 + e) - e) with 0
      by (unfold fexp, SpecFloat.emin, prec, emax; lia).
    cbn [shr shr_record_of_loc shr_m].
    replace (e <=? emax - prec) with true
      by (symmetry; apply Z.leb_le; unfold emax, prec; lia).
    reflexivity.
Qed.

(** Rounding a mantissa of fewer than 53 bits. *)
Lemma binary_round_short y x s e :
  Pos.size x = 53%positive -> -1074 <= e <= 971 -> 0 <= s ->
  Zpos x = Zpos y * 2 ^ s ->
  binary_round prec emax false y (e + s) = S754_finite false x e.
Proof.
  intros Hx He Hs Hy. unfold binary_round.
  destruct s as [|j|j]; [| |lia].
  - assert (y = x) by lia. subst y.
    rewrite digits2_pos_size, Hx.
    replace (fexp prec emax (53 + (e + 0))) with e
      by (unfold fexp, SpecFloat.emin, prec, emax; lia).
    unfold shl_align. replace (e - (e + 0)) with 0 by lia.
    replace (e + 0) with e by lia.
    apply binary_round_aux_normal; assumption.
  - assert (x = Pos.iter xO y j) by (rewrite <- Zpos_iter_xO in Hy; congruence).
    subst x. rewrite size_iter_xO in Hx.
    rewrite digits2_pos_size.
    replace (fexp prec emax (Zpos (Pos.size y) + (e + Zpos j))) with e
      by (unfold fexp, SpecFloat.emin, prec, emax; lia).
    unfold shl_align. replace (e - (e + Zpos j)) with (Zneg j) by lia.
    apply binary_round_aux_normal; [|assumption].
    rewrite size_iter_xO. exact Hx.
Qed.

Lemma Zpos_shiftp p s : 0 <= s -> Zpos (shiftp p s) = Zpos p * 2 ^ s.
Proof.
  destruct s as [|j|j]; simpl shiftp; intros Hs; [simpl; lia | | lia].
  apply Zpos_iter_xO.
Qed.

Lemma size_shiftp p s : 0 <= s -> Zpos (Pos.size (shiftp p s)) = Zpos (Pos.size p) + s.
Proof.
  destruct s as [|j|j]; simpl shiftp; intros Hs; [lia | | lia].
  rewrite size_iter_xO. lia.
Qed.

Lemma shl_align_fst mx ex ez :
  ez <= ex -> fst (shl_align mx ex ez) = shiftp mx (ex - ez).
Proof.
  intros H. unfold shl_align, shiftp.
  destruct (ez - ex) as [|d|d] eqn:E1; destruct (ex - ez) as [|d'|d'] eqn:E2;
    simpl; try lia; try reflexivity.
  assert (d = d') by lia. now subst.
Qed.

Lemma size_53_bounds x :
  Pos.size x = 53%positive -> 2 ^ 52 <= Zpos x < 2 ^ 53.
Proof.
  intros H. pose proof (size_bounds x) as B. rewrite H in B.
  change (2 ^ 53) with (2 * 2 ^ 52) in *. lia.
Qed.

Lemma pow2_pos k : 0 < 2 ^ k \/ 2 ^ k = 0.
Proof.
  destruct (Z_le_gt_dec 0 k); [left; apply Z.pow_pos_nonneg; lia|].
  right. apply Z.pow_neg_r. lia.
Qed.

Lemma SFofZ_pos n :
  0 < n <= 2 ^ 53 ->
  exists x e, SFofZ n = S754_finite false x e /\ represents x e n.
Proof.
  intros Hn. destruct n as [|p|p]; try lia.
  pose proof (size_bounds p) as B.
  set (d := Zpos (Pos.size p)) in *.
  assert (Hd : 1 <= d <= 54).
  { split; [subst d; lia|].
    destruct (Z_le_gt_dec d 54) as [|G]; [assumption|exfalso].
    assert (2 ^ 55 <= 2 ^ d) by (apply Z.pow_le_mono_r; lia).
    change (2 ^ 55) with (4 * 2 ^ 53) in *. lia. }
  destruct (Z_le_gt_dec d 53) as [Hle|Hgt].
  - exists (shiftp p (53 - d)), (d - 53).
    assert (Hsz : Pos.size (shiftp p (53 - d)) = 53%positive).
    { pose proof (size_shiftp p (53 - d)) as E. fold d in E. lia. }
    split.
    + unfold SFofZ. cbn [binary_normalize].
      replace 0 with ((d - 53) + (53 - d)) at 1 by lia.
      apply binary_round_short; try assumption; try lia.
      apply Zpos_shiftp. lia.
    + split; [exact Hsz|]. split; [lia|].
      rewrite Zpos_shiftp by lia. rewrite <- Z.mul_assoc, <- Z.pow_add_r by lia.
      f_equal. f_equal. lia.
  - assert (d = 54) by lia.
    assert (Hp : Zpos p = 2 ^ 53).
    { replace d with 54 in B by lia. change (2 ^ 54) with (2 * 2 ^ 53) in B. lia. }
    exists (Z.to_pos (2 ^ 52)), 1. split.
    + unfold SFofZ. cbn [binary_normalize].
      replace 0 with (1 - 1) at 1 by lia.
      apply binary_round_long; [reflexivity | lia | lia |].
      rewrite Hp. reflexivity.
    + split; [reflexivity|]. split; [lia|]. rewrite Hp. reflexivity.
Qed.

Lemma represents_lt x e n : represents x e n -> n < 2 ^ 53 -> e <= 0.
Proof.
  intros (Hx & He & Hv) Hn. apply size_53_bounds in Hx.
  destruct (Z_le_gt_dec e 0) as [|G]; [assumption|exfalso].
  assert (e = 1) by lia. subst e.
  change (2 ^ (1 + 52)) with (2 * 2 ^ 52) in Hv.
  change (2 ^ 53) with (2 * 2 ^ 52) in *.
  assert (0 < 2 ^ 52) by reflexivity. nia.
Qed.

(** Adding the floats of two naturals whose sum is at most [2^53] is
    exact. *)
Lemma SFadd_ofZ a b :
  0 <= a -> 0 <= b -> a + b <= 2 ^ 53 ->
  SF64add (SFofZ a) (SFofZ b) = SFofZ (a + b).
Proof.
  intros Ha Hb Hab.
  destruct (Z.eq_dec a 0) as [->|Ha0].
  { rewrite Z.add_0_l. destruct (Z.eq_dec b 0) as [->|Hb0]; [reflexivity|].
    destruct (SFofZ_pos b) as (x & e & -> & _); [lia|reflexivity]. }
  destruct (Z.eq_dec b 0) as [->|Hb0].
  { rewrite Z.add_0_r.
    destruct (SFofZ_pos a) as (x & e & -> & _); [lia|reflexivity]. }
  destruct (SFofZ_pos a) as (xa & ea & -> & Ra); [lia|].
  destruct (SFofZ_pos b) as (xb & eb & -> & Rb); [lia|].
  destruct (SFofZ_pos (a + b)) as (xn & en & -> & Rn); [lia|].
  pose proof (represents_lt _ _ _ Ra ltac:(lia)) as Hea.
  pose proof (represents_lt _ _ _ Rb ltac:(lia)) as Heb.
  destruct Ra as (Sa & Ea & Va). destruct Rb as (Sb & Eb & Vb).
  destruct Rn as (Sn & En & Vn).
  pose proof (size_53_bounds _ Sa) as Ba.
  pose proof (size_53_bounds _ Sb) as Bb.
  pose proof (size_53_bounds _ Sn) as Bn.
  unfold SF64add, SFadd. cbn [cond_Zopp].
  set (ez := Z.min ea eb).
  rewrite !shl_align_fst by (subst ez; lia).
  rewrite <- Pos2Z.inj_add. cbn [binary_normalize].
  assert (Hs : Zpos (shiftp xa (ea - ez) + shiftp xb (eb - ez))
               * 2 ^ (ez + 52) = Zpos xn * 2 ^ (en + 52)).
  { rewrite Pos2Z.inj_add, !Zpos_shiftp by (subst ez; lia).
    rewrite Z.mul_add_distr_r, <- !Z.mul_assoc, <- !Z.pow_add_r by (subst ez; lia).
    replace (ea - ez + (ez + 52)) with (ea + 52) by lia.
    replace (eb - ez + (ez + 52)) with (eb + 52) by lia.
    rewrite Va, Vb, Vn. ring. }
  assert (Hge : Zpos xa + Zpos xb
                <= Zpos (shiftp xa (ea - ez) + shiftp xb (eb - ez))).
  { rewrite Pos2Z.inj_add, !Zpos_shiftp by (subst ez; lia).
    assert (1 <= 2 ^ (ea - ez)) by (apply (Z.pow_le_mono_r 2 0); subst ez; lia).
    assert (1 <= 2 ^ (eb - ez)) by (apply (Z.pow_le_mono_r 2 0); subst ez; lia).
    nia. }
  set (s := (shiftp xa (ea - ez) + shiftp xb (eb - ez))%positive) in *.
  assert (Hlt : ez < en).
  { destruct (Z_lt_ge_dec ez en) as [|G]; [assumption|exfalso].
    assert (2 ^ (en + 52) <= 2 ^ (ez + 52)) by (apply Z.pow_le_mono_r; lia).
    assert (0 < 2 ^ (en + 52)) by (apply Z.pow_pos_nonneg; lia).
    assert (Zpos s * 2 ^ (en + 52) <= Zpos s * 2 ^ (ez + 52))
      by (apply Z.mul_le_mono_nonneg_l; lia).
    assert (Zpos xn * 2 ^ (en + 52) < Zpos s * 2 ^ (en + 52)).
    { apply Z.mul_lt_mono_pos_r; [assumption|].
      change (2 ^ 53) with (2 * 2 ^ 52) in *. lia. }
    lia. }
  replace ez with (en - (en - ez)) at 1 by lia.
  apply binary_round_long; try assumption; try lia.
  replace (en + 52) with ((en - ez) + (ez + 52)) in Hs by lia.
  rewrite (Z.pow_add_r 2 (en - ez) (ez + 52)), Z.mul_assoc in Hs
    by (subst ez; lia).
  apply Z.mul_reg_r in Hs; [exact Hs|].
  assert (0 < 2 ^ (ez + 52)) by (apply Z.pow_pos_nonneg; subst ez; lia). lia.
Qed.

Lemma Prim2SF_of_int n : 0 <= n < 2 ^ 63 -> Prim2SF (Float64.of_int n) = SFofZ n.
Proof.
  intros Hn. unfold Float64.of_int.
  replace (0 <=? n) with true by (symmetry; apply Z.leb_le; lia).
  rewrite of_uint63_spec, Uint63.of_Z_spec, Z.mod_small; [reflexivity|].
  change wB with (2 ^ 63). lia.
Qed.

Lemma of_int_add a b :
  0 <= a -> 0 <= b -> a + b <= 2 ^ 53 ->
  PrimFloat.add (Float64.of_int a) (Float64.of_int b) = Float64.of_int (a + b).
Proof.
  intros Ha Hb Hab. apply Prim2SF_inj.
  assert (2 ^ 53 < 2 ^ 63) by reflexivity.
  rewrite FloatAxioms.add_spec, !Prim2SF_of_int by lia.
  apply SFadd_ofZ; assumption.
Qed.

End Float64Facts.

(** ** The binary expression evaluator: [eval] *)

(** C6. For the DIV operator [eval] returns 0.0 whenever the right operand
    is a float that compares equal to zero (either zero), whatever the
    left operand is, even one that is not a float; no panic is raised. *)
Theorem eval_div_by_zero (lhs : Value) (r : float) :
  Float64.eqb r Float64.zero = true ->
  binaryExprEvaluator.eval DIV lhs (VFloat r) = Done (VFloat Float64.zero).
Proof.
  intros Hz. unfold binaryExprEvaluator.eval. simpl. rewrite Hz. reflexivity.
Qed.

Lemma eval_div_by_zero_witness :
  binaryExprEvaluator.eval DIV (VFloat (Float64.of_int 7)) (VFloat Float64.zero)
    = Done (VFloat Float64.zero)
  /\ binaryExprEvaluator.eval DIV (VString "x") (VFloat PrimFloat.neg_zero)
    = Done (VFloat Float64.zero).
Proof.
  split.
  - apply (eval_div_by_zero (VFloat (Float64.of_int 7)) Float64.zero). reflexivity.
  - apply (eval_div_by_zero (VString "x") PrimFloat.neg_zero). reflexivity.
Defined.

(** ** The tagset codec *)

Module TagsetFacts.

Import Tagset.

Lemma Z_of_byte_of_Z z : Z_of_byte (byte_of_Z z) = z mod 256.
Proof.
  unfold Z_of_byte, byte_of_Z.
  assert (Hb : 0 <= z mod 256 < 256) by (apply Z.mod_pos_bound; lia).
  destruct (Byte.of_N (Z.to_N (z mod 256))) as [b|] eqn:E.
  - apply Byte.to_of_N in E. rewrite E. lia.
  - apply Byte.of_N_None_iff in E. lia.
Qed.

Lemma lor_low_high a b :
  0 <= a < 256 -> 0 <= b -> Z.lor a (Z.shiftl b 8) = a + b * 256.
Proof.
  intros Ha Hb.
  assert (Hland : Z.land a (Z.shiftl b 8) = 0).
  { apply Z.bits_inj'. intros n Hn. rewrite Z.land_spec, Z.bits_0.
    destruct (Z_lt_le_dec n 8).
    - rewrite Z.shiftl_spec_low by lia. apply andb_false_r.
    - replace a with (a mod 2 ^ 8) by (apply Z.mod_small; lia).
      rewrite Z.mod_pow2_bits_high by lia. reflexivity. }
  rewrite <- Z.lxor_lor by exact Hland.
  rewrite <- Z.add_nocarry_lxor by exact Hland.
  rewrite Z.shiftl_mul_pow2 by lia. reflexivity.
Qed.

Lemma Uint16_PutUint16 v :
  0 <= v < 65536 ->
  exists b0 b1, PutUint16 v = [b0; b1] /\ Uint16 b0 b1 = v.
Proof.
  intros Hv. unfold PutUint16, Uint16. do 2 eexists. split; [reflexivity|].
  rewrite !Z_of_byte_of_Z, Z.shiftr_div_pow2 by lia.
  change (2 ^ 8) with 256.
  assert (0 <= v / 256 < 256) by (split; [apply Z.div_pos|apply Z.div_lt_upper_bound]; lia).
  rewrite lor_low_high by (try apply Z.mod_pos_bound; try apply Z.mod_pos_bound; lia).
  rewrite (Z.mod_small (v / 256)) by lia.
  pose proof (Z.div_mod v 256). lia.
Qed.

Lemma length_bytes_of s : Z.of_nat (length (bytes_of s)) = len s.
Proof.
  unfold bytes_of, len, list_byte_of_string. rewrite length_map. f_equal.
  induction s as [|c s IH]; simpl; [reflexivity | now rewrite IH].
Qed.

Lemma string_of_bytes_of s : string_of (bytes_of s) = s.
Proof. apply string_of_list_byte_of_string. Qed.

(** [MarshalStrings] appends one segment per string. *)
Lemma MarshalStrings_app_acc (a : list string) (acc : list byte) :
  fold_left (fun ret s => ret ++ segment s) a acc
  = acc ++ fold_left (fun ret s => ret ++ segment s) a [].
Proof.
  revert acc. induction a as [|s a IH]; intros acc; simpl.
  - now rewrite app_nil_r.
  - rewrite IH, (IH (segment s)). now rewrite app_assoc.
Qed.

Lemma MarshalStrings_cons s a :
  MarshalStrings (s :: a) = segment s ++ MarshalStrings a.
Proof. unfold MarshalStrings. simpl. apply MarshalStrings_app_acc. Qed.

Lemma slice_prefix (x y : list byte) :
  slice (x ++ y) 0 (Z.of_nat (length x)) = Done x.
Proof.
  unfold slice. rewrite length_app.
  replace ((0 <=? 0) && (0 <=? Z.of_nat (length x))
           && (Z.of_nat (length x) <=? Z.of_nat (length x + length y)))
    with true by (symmetry; rewrite !andb_true_iff, !Z.leb_le; lia).
  rewrite Z.sub_0_r, Nat2Z.id. change (Z.to_nat 0) with 0%nat.
  now rewrite drop_0, take_app_length.
Qed.

Lemma slice_middle (x y z : list byte) :
  slice (x ++ y ++ z) (Z.of_nat (length x)) (Z.of_nat (length x + length y)) = Done y.
Proof.
  unfold slice. rewrite !length_app.
  replace ((0 <=? Z.of_nat (length x))
           && (Z.of_nat (length x) <=? Z.of_nat (length x + length y))
           && (Z.of_nat (length x + length y)
               <=? Z.of_nat (length x + (length y + length z))))
    with true by (symmetry; rewrite !andb_true_iff, !Z.leb_le; lia).
  rewrite Nat2Z.id.
  replace (Z.to_nat (Z.of_nat (length x + length y) - Z.of_nat (length x)))
    with (length y) by lia.
  now rewrite drop_app_length, take_app_length.
Qed.

Lemma slice_suffix (x y : list byte) :
  slice (x ++ y) (Z.of_nat (length x)) (Z.of_nat (length (x ++ y))) = Done y.
Proof.
  pose proof (slice_middle x y []) as H.
  rewrite app_nil_r, <- length_app in H. exact H.
Qed.

(** One round of the decoder on a well-formed segment whose length plus
    two still fits in a [uint16]. *)
Lemma UnmarshalStrings_loop_segment fuel s rest ret :
  len s <= 65533 ->
  UnmarshalStrings_loop (S fuel) (segment s ++ rest) ret
  = UnmarshalStrings_loop fuel rest (ret ++ [s]).
Proof.
  intros Hs.
  assert (Hlen : 0 <= len s < 65536) by (unfold len in *; lia).
  destruct (Uint16_PutUint16 (len s) Hlen) as (b0 & b1 & Hput & Hget).
  unfold segment, uint16. rewrite (Z.mod_small (len s)) by lia.
  rewrite Hput. cbn [app UnmarshalStrings_loop].
  change (slice (b0 :: b1 :: bytes_of s ++ rest) 0 2)
    with (slice ([b0; b1] ++ bytes_of s ++ rest) 0 (Z.of_nat (length [b0; b1]))).
  rewrite slice_prefix. cbn [mbind outcome_bind obind].
  rewrite Hget. unfold uint16. rewrite Z.mod_small by lia.
  pose proof (length_bytes_of s) as Hl.
  change (b0 :: b1 :: bytes_of s ++ rest) with ([b0; b1] ++ bytes_of s ++ rest).
  assert (E1 : slice ([b0; b1] ++ bytes_of s ++ rest) 2 (len s + 2)
               = Done (bytes_of s)).
  { rewrite <- (slice_middle [b0; b1] (bytes_of s) rest).
    f_equal; simpl length; lia. }
  assert (E2 : slice ([b0; b1] ++ bytes_of s ++ rest) (len s + 2)
                 (Z.of_nat (length ([b0; b1] ++ bytes_of s ++ rest)))
               = Done rest).
  { etransitivity; [|apply (slice_suffix ([b0; b1] ++ bytes_of s) rest)].
    rewrite <- app_assoc. f_equal. rewrite length_app. simpl length. lia. }
  rewrite E1. cbn [mbind outcome_bind obind].
  rewrite E2. cbn [mbind outcome_bind obind].
  now rewrite string_of_bytes_of.
Qed.

Lemma length_segment s : length (segment s) = (2 + String.length s)%nat.
Proof.
  unfold segment, PutUint16. simpl. f_equal. f_equal.
  pose proof (length_bytes_of s). unfold len in *. lia.
Qed.

Lemma length_MarshalStrings_ge a : (length a <= length (MarshalStrings a))%nat.
Proof.
  induction a as [|s a IH]; [simpl; lia|].
  rewrite MarshalStrings_cons, length_app, length_segment. simpl. lia.
Qed.

Lemma UnmarshalStrings_loop_Marshal a : forall fuel ret,
  (length a <= fuel)%nat ->
  Forall (fun s => len s <= 65533) a ->
  UnmarshalStrings_loop fuel (MarshalStrings a) ret = Done (ret ++ a).
Proof.
  induction a as [|s a IH]; intros fuel ret Hf Hall.
  - destruct fuel; simpl; now rewrite app_nil_r.
  - inversion Hall as [|? ? Hs Hall']; subst.
    destruct fuel as [|fuel]; [simpl in Hf; lia|].
    rewrite MarshalStrings_cons, UnmarshalStrings_loop_segment by assumption.
    rewrite IH by (simpl in Hf; try lia; assumption).
    now rewrite <- app_assoc.
Qed.

Lemma slice_Done b lo hi r :
  slice b lo hi = Done r ->
  0 <= lo <= hi /\ hi <= Z.of_nat (length b) /\ Z.of_nat (length r) = hi - lo.
Proof.
  unfold slice.
  destruct ((0 <=? lo) && (lo <=? hi) && (hi <=? Z.of_nat (length b))) eqn:E;
    [|discriminate].
  rewrite !andb_true_iff, !Z.leb_le in E. intros [= <-].
  rewrite length_take, length_drop. lia.
Qed.

(** The rounds [UnmarshalStrings] gives its loop are enough: with as many
    rounds as [b] has bytes, or more, the loop ends on the empty slice or
    on a panic, never for want of rounds. *)
Lemma UnmarshalStrings_loop_fuel : forall fuel fuel' b ret,
  (length b <= fuel)%nat -> (length b <= fuel')%nat ->
  UnmarshalStrings_loop fuel b ret = UnmarshalStrings_loop fuel' b ret.
Proof.
  induction fuel as [|fuel IH]; intros fuel' b ret H1 H2.
  - destruct b; [destruct fuel'; reflexivity | simpl in H1; lia].
  - destruct b as [|x b]; [destruct fuel'; reflexivity|].
    destruct fuel' as [|fuel']; [simpl in H2; lia|].
    cbn [UnmarshalStrings_loop].
    destruct (slice (x :: b) 0 2) as [hd|p]; [|reflexivity].
    cbn [mbind outcome_bind obind].
    destruct hd as [|b0 [|b1 [|? ?]]]; try reflexivity.
    destruct (slice (x :: b) 2 (uint16 (Uint16 b0 b1 + 2))) as [seg|p] eqn:E1;
      [|reflexivity].
    cbn [mbind outcome_bind obind].
    destruct (slice (x :: b) (uint16 (Uint16 b0 b1 + 2)) (Z.of_nat (length (x :: b))))
      as [rest|p] eqn:E2; [|reflexivity].
    cbn [mbind outcome_bind obind].
    apply slice_Done in E1, E2.
    apply IH; simpl length in *; lia.
Qed.

(** The round trip holds for strings of at most 65533 bytes. *)
Lemma Unmarshal_Marshal_upto_65533 (a : list string) :
  Forall (fun s => len s <= 65533) a ->
  UnmarshalStrings (MarshalStrings a) = Done a.
Proof.
  intros Hall. unfold UnmarshalStrings.
  apply (UnmarshalStrings_loop_Marshal a _ []); [apply length_MarshalStrings_ge | assumption].
Qed.

End TagsetFacts.

(** C9. The round trip fails on the code for a string of 65534 (or 65535)
    bytes: the decoder computes [n+2] in [uint16], the sum wraps to 0
    (or 1), and the slice expression [b[2:n+2]] panics. *)
Theorem UnmarshalStrings_MarshalStrings_65534 :
  Tagset.len tag65534 = 65534 /\ Tagset.len tag65535 = 65535 /\
  Tagset.UnmarshalStrings (Tagset.MarshalStrings [tag65534]) = Panicked SliceBounds /\
  Tagset.UnmarshalStrings (Tagset.MarshalStrings [tag65535]) = Panicked SliceBounds.
Proof. repeat split; vm_compute; reflexivity. Qed.

(** ** The windows of a Mapper over a time-ordered stream *)

Module MapperFacts.

Import BufIterator MapperRun MapperSpec.

Lemma span_le T l : Forall (fun q => key q <= T) (fst (span T l)).
Proof.
  induction l as [|q l IH]; simpl; [constructor|].
  destruct (key q >? T) eqn:E; simpl; [constructor|].
  destruct (span T l) as [a r]. simpl in *. constructor; [lia | exact IH].
Qed.

Lemma span_app T l : fst (span T l) ++ snd (span T l) = l.
Proof.
  induction l as [|q l IH]; simpl; [reflexivity|].
  destruct (key q >? T); simpl; [reflexivity|].
  destruct (span T l) as [a r]. simpl in *. now rewrite IH.
Qed.

Lemma span_rest_gt T l q r : snd (span T l) = q :: r -> T < key q.
Proof.
  induction l as [|q' l IH]; simpl; [discriminate|].
  destruct (key q' >? T) eqn:E; simpl.
  - intros [= -> ->]. lia.
  - destruct (span T l) as [a r']. simpl in *. exact IH.
Qed.

(** [Next], case by case. *)
Lemma Next_buffered it T p :
  Next (mkBufIterator it T p true)
  = if negb (T =? 0) && (key p >? T)
    then (noPoint, mkBufIterator it T p true)
    else (p, mkBufIterator it T p false).
Proof. reflexivity. Qed.

Lemma Next_nil tg T p :
  Next (mkBufIterator (mkIterator [] tg) T p false)
  = if negb (T =? 0) && (0 >? T)
    then (noPoint, mkBufIterator (mkIterator [] tg) T noPoint true)
    else (noPoint, mkBufIterator (mkIterator [] tg) T noPoint false).
Proof. reflexivity. Qed.

Lemma Next_cons q l tg T p :
  Next (mkBufIterator (mkIterator (q :: l) tg) T p false)
  = if negb (T =? 0) && (key q >? T)
    then (noPoint, mkBufIterator (mkIterator l tg) T q true)
    else (q, mkBufIterator (mkIterator l tg) T q false).
Proof. reflexivity. Qed.

Lemma drain_loop_eq fuel i :
  drain_loop fuel i
  = let '(p, i1) := Next i in
    if key p =? 0 then ([], i1)
    else match fuel with
         | O => ([], i1)
         | S fuel' => let '(ps, i2) := drain_loop fuel' i1 in (p :: ps, i2)
         end.
Proof. destruct fuel; reflexivity. Qed.

Lemma drain_loop_unbuffered l : forall fuel tg T p,
  0 < T ->
  Forall (fun q => 0 < key q) l ->
  (length l <= fuel)%nat ->
  drain_loop fuel (mkBufIterator (mkIterator l tg) T p false)
  = (fst (span T l), after_span tg T (snd (span T l))).
Proof.
  induction l as [|q l IH]; intros fuel tg T p HT Hpos Hfuel.
  - rewrite drain_loop_eq, Next_nil.
    Zb_false (T =? 0). Zb_false (0 >? T). reflexivity.
  - inversion Hpos as [|? ? Hq Hpos']; subst.
    destruct fuel as [|fuel]; [simpl in Hfuel; lia|].
    rewrite drain_loop_eq, Next_cons.
    Zb_false (T =? 0). cbn [negb andb span].
    destruct (key q >? T) eqn:E; [reflexivity|].
    Zb_false (key q =? 0).
    rewrite IH by (try assumption; simpl in Hfuel; lia).
    destruct (span T l) as [a r]. reflexivity.
Qed.

(** The rounds [drain] gives the loop are enough: a round that goes on
    has taken the buffered point or a point of the list. *)
Lemma drain_loop_fuel : forall fuel fuel' i,
  (length (points (itr i)) + (if buffered i then 1 else 0) <= fuel)%nat ->
  (length (points (itr i)) + (if buffered i then 1 else 0) <= fuel')%nat ->
  drain_loop fuel i = drain_loop fuel' i.
Proof.
  induction fuel as [|fuel IH]; intros fuel' [[l tg] T p bu] H1 H2;
    rewrite (drain_loop_eq _ (mkBufIterator _ _ _ _)),
            (drain_loop_eq fuel' (mkBufIterator _ _ _ _));
    cbn [itr points buffered] in H1, H2.
  - destruct bu; [lia|]. destruct l; [|simpl in H1; lia].
    rewrite Next_nil. destruct (negb (T =? 0) && (0 >? T)); reflexivity.
  - destruct bu.
    + rewrite Next_buffered. destruct (negb (T =? 0) && (key p >? T)); [reflexivity|].
      destruct (key p =? 0); [reflexivity|].
      destruct fuel' as [|fuel']; [lia|].
      rewrite (IH fuel'); [reflexivity | simpl; lia | simpl; lia].
    + destruct l as [|q l].
      * rewrite Next_nil. destruct (negb (T =? 0) && (0 >? T)); reflexivity.
      * rewrite Next_cons. destruct (negb (T =? 0) && (key q >? T)); [reflexivity|].
        destruct (key q =? 0); [reflexivity|].
        destruct fuel' as [|fuel']; [simpl in H2; lia|].
        rewrite (IH fuel'); [reflexivity | simpl in *; lia | simpl in *; lia].
Qed.

Lemma drain_loop_enough fuel i :
  (S (length (points (itr i))) <= fuel)%nat -> drain_loop fuel i = drain i.
Proof.
  intros H. unfold drain. apply drain_loop_fuel; destruct (buffered i); lia.
Qed.

Lemma EOF_ended b T :
  ended b -> exists b', EOF (set_tmax b T) = (true, b').
Proof.
  destruct b as [[l tg] T0 p bu]. unfold ended. simpl. intros [-> Hk].
  unfold EOF, Peek, Next, set_tmax. simpl.
  destruct bu; simpl.
  - destruct (negb (T =? 0) && (key p >? T)); simpl; rewrite Hk; eauto.
  - destruct (negb (T =? 0) && (0 >? T)); simpl; eauto.
Qed.

Lemma EOF_loaded interval tmin b T :
  loaded interval tmin b ->
  EOF (set_tmax b T) = (false, set_tmax b T).
Proof.
  destruct b as [[l tg] T0 p bu]. unfold loaded. simpl.
  intros (-> & _ & _ & _ & Hok).
  inversion Hok as [|? ? [Hp _] _]; subst.
  unfold EOF, Peek, Next, set_tmax. simpl.
  destruct (negb (T =? 0) && (key p >? T)); simpl;
    Zb_false (key p =? 0);
    reflexivity.
Qed.

Lemma time_ordered_app_r a r : time_ordered (a ++ r) -> time_ordered r.
Proof.
  induction a as [|x a IH]; simpl; [auto|].
  intros H. inversion H; subst. auto.
Qed.

Lemma pending_loaded interval tmin b :
  loaded interval tmin b -> pending b = buf b :: points (itr b).
Proof.
  intros (_ & _ & _ & _ & Hok). inversion Hok as [|? ? [Hp _] _]; subst.
  unfold pending. Zb_false (key (buf b) =? 0). reflexivity.
Qed.

Lemma pending_ended b : ended b -> pending b = [].
Proof. intros [_ He]. unfold pending. rewrite He. reflexivity. Qed.

(** One round from a loaded state: the points drawn lie in the window
    and the state left is loaded for the next window, or ended. *)
Lemma drain_loaded interval tmin b :
  0 < interval ->
  loaded interval tmin b ->
  Forall (fun q => tmin <= key q <= tmin + interval - 1)
         (fst (drain (set_tmax b (tmin + interval - 1)))) /\
  (loaded interval (tmin + interval)
          (snd (drain (set_tmax b (tmin + interval - 1))))
   \/ ended (snd (drain (set_tmax b (tmin + interval - 1))))) /\
  fst (drain (set_tmax b (tmin + interval - 1)))
  ++ pending (snd (drain (set_tmax b (tmin + interval - 1))))
  = pending b /\
  Tags (snd (drain (set_tmax b (tmin + interval - 1)))) = Tags b.
Proof.
  intros HI Hl. rewrite (pending_loaded _ _ _ Hl). revert Hl.
  destruct b as [[l tg] T0 p bu]. unfold loaded. simpl.
  intros (-> & HT & Hmin & Hsort & Hok).
  set (T := tmin + interval - 1) in *.
  inversion Hok as [|? ? [Hp Hpmax] Hokl]; subst.
  inversion Hsort as [|? ? Hsortl Hple]; subst.
  unfold drain, set_tmax. cbn [itr points tmax buf buffered].
  rewrite drain_loop_eq, Next_buffered.
  Zb_false (T =? 0).
  cbn [negb andb].
  destruct (key p >? T) eqn:E.
  - (* the stashed point is beyond the window: nothing is drawn *)
    simpl. split; [constructor|]. split.
    + left. repeat split; try assumption; try lia.
    + unfold pending. simpl. Zb_false (key p =? 0). split; reflexivity.
  - Zb_false (key p =? 0).
    rewrite drain_loop_unbuffered; try lia.
    2:{ eapply Forall_impl; [exact Hokl|]. intros q [Hq _]. exact Hq. }
    pose proof (span_le T l) as Hle.
    pose proof (span_app T l) as Happ.
    pose proof (span_rest_gt T l) as Hgt.
    destruct (span T l) as [a r]. simpl in *.
    split; [|split].
    + constructor; [lia|].
      rewrite Forall_forall in Hle, Hple |- *. intros q Hq.
      specialize (Hle q Hq).
      assert (Hin : q ∈ l) by (rewrite <- Happ; apply elem_of_app; now left).
      specialize (Hple q Hin). lia.
    + destruct r as [|q r]; [right; split; reflexivity|].
      left. simpl.
      specialize (Hgt q r eq_refl).
      assert (Hqr : Forall (timestamp_ok interval) (q :: r)).
      { rewrite <- Happ in Hokl. apply Forall_app in Hokl. tauto. }
      repeat split; try lia; try assumption.
      rewrite <- Happ in Hsortl. now apply time_ordered_app_r in Hsortl.
    + destruct r as [|q r]; unfold pending; simpl.
      * rewrite app_nil_r in Happ |- *. now subst a.
      * assert (Hqr : Forall (timestamp_ok interval) (q :: r)).
        { rewrite <- Happ in Hokl. apply Forall_app in Hokl. tauto. }
        inversion Hqr as [|? ? [Hq _] _]; subst.
        Zb_false (key q =? 0). split; reflexivity.
Qed.

Lemma record_call_eq ps tg tmin acc :
  record_call ps tg tmin acc = (acc ++ [(tmin, ps)], Done tt).
Proof. reflexivity. Qed.

Lemma tmax_no_overflow interval tmin b :
  0 < interval <= Int64.max_int ->
  loaded interval tmin b ->
  Int64.sub (Int64.add tmin interval) 1 = tmin + interval - 1
  /\ Int64.add tmin interval = tmin + interval.
Proof.
  intros HI (_ & HT & Hmin & _ & Hok).
  inversion Hok as [|? ? [Hp Hpmax] _]; subst.
  unfold Int64.sub, Int64.add.
  rewrite (Int64Facts.wrap64_id (tmin + interval))
    by (unfold Int64.in_range, Int64.min_int, Int64.max_int in *; lia).
  rewrite Int64Facts.wrap64_id
    by (unfold Int64.in_range, Int64.min_int, Int64.max_int in *; lia).
  split; reflexivity.
Qed.

(** The calls of the loop from a state that satisfies the invariant. *)
Lemma run_loop_calls interval :
  0 < interval <= Int64.max_int ->
  forall fuel b tmin acc,
    loaded interval tmin b \/ ended b ->
    exists ext fin,
      run_loop fuel record_call interval b acc tmin = (acc ++ ext, Done fin)
      /\ Forall (in_window interval) ext
      /\ (loaded interval tmin b -> (0 < fuel)%nat ->
          exists ps ext', ext = (tmin, ps) :: ext').
Proof.
  intros HI. induction fuel as [|fuel IH]; intros b tmin acc Hinv.
  - exists [], false. rewrite app_nil_r. repeat split; [constructor | lia].
  - cbn [run_loop]. Zb_true (interval >? 0).
    destruct Hinv as [Hl | He].
    + destruct (tmax_no_overflow interval tmin b HI Hl) as [-> ->].
      rewrite (EOF_loaded interval tmin b _ Hl).
      destruct (drain_loaded interval tmin b (proj1 HI) Hl) as (Hps & Hnext & _).
      destruct (drain (set_tmax b (tmin + interval - 1))) as [ps b3].
      simpl in Hps, Hnext. rewrite record_call_eq.
      destruct (IH b3 (tmin + interval) (acc ++ [(tmin, ps)]) Hnext)
        as (ext & fin & Hrun & Hext & _).
      exists ((tmin, ps) :: ext), fin. rewrite Hrun.
      rewrite <- app_assoc.
      split; [reflexivity | split; [constructor; assumption | eauto]].
    + destruct (EOF_ended b (Int64.sub (Int64.add tmin interval) 1) He)
        as [b' ->].
      exists [], true. rewrite app_nil_r. repeat split; [constructor|].
      intros (_ & _ & _ & _ & Hok) _.
      inversion Hok as [|? ? [Hp _] _]; subst. destruct He as [_ He]. lia.
Qed.

(** With enough rounds the loop reaches its [break], and by then the
    calls have drawn every pending point, in order, once. *)
Lemma run_loop_finishes interval M :
  0 < interval <= Int64.max_int ->
  forall fuel b tmin acc,
    loaded interval tmin b \/ ended b ->
    Forall (fun q => key q <= M) (pending b) ->
    M + interval < tmin + interval * Z.of_nat fuel ->
    (0 < fuel)%nat ->
    exists ext,
      run_loop fuel record_call interval b acc tmin = (acc ++ ext, Done true)
      /\ concat (map snd ext) = pending b.
Proof.
  intros HI. induction fuel as [|fuel IH]; intros b tmin acc Hinv HM Hfuel Hpos;
    [lia|].
  cbn [run_loop]. Zb_true (interval >? 0).
  destruct Hinv as [Hl | He].
  - destruct (tmax_no_overflow interval tmin b HI Hl) as [-> ->].
    rewrite (EOF_loaded interval tmin b _ Hl).
    destruct (drain_loaded interval tmin b (proj1 HI) Hl) as (Hps & Hnext & Hpart & _).
    assert (Hf1 : (0 < fuel)%nat).
    { rewrite (pending_loaded _ _ _ Hl) in HM.
      destruct Hl as (_ & _ & Hmin & _ & _).
      inversion HM as [|? ? HpM _]; subst. nia. }
    destruct (drain (set_tmax b (tmin + interval - 1))) as [ps b3].
    simpl in Hps, Hnext, Hpart. rewrite record_call_eq.
    assert (HM3 : Forall (fun q => key q <= M) (pending b3)).
    { rewrite <- Hpart in HM. apply Forall_app in HM. tauto. }
    destruct (IH b3 (tmin + interval) (acc ++ [(tmin, ps)]) Hnext HM3)
      as (ext & Hrun & Hcat); [lia | assumption |].
    exists ((tmin, ps) :: ext). rewrite Hrun, <- app_assoc. split; [reflexivity|].
    simpl. now rewrite Hcat.
  - destruct (EOF_ended b (Int64.sub (Int64.add tmin interval) 1) He) as [b' ->].
    exists []. rewrite app_nil_r, (pending_ended _ He). split; reflexivity.
Qed.

(** The state and window start the loop is entered with. *)
Lemma start_state interval pts tg :
  0 < interval <= Int64.max_int ->
  time_ordered pts ->
  Forall (timestamp_ok interval) pts ->
  let '(tmin, b) :=
    start interval (mkBufIterator (mkIterator pts tg) 0 noPoint false) in
  (loaded interval tmin b \/ ended b) /\
  pending b = pts /\ Tags b = tg /\
  tmin = match pts with [] => 0 | p0 :: _ => key p0 - Z.rem (key p0) interval end.
Proof.
  intros HI Hsort Hok. unfold start. Zb_true (interval >? 0).
  unfold Peek. destruct pts as [|p0 rest].
  - rewrite Next_nil. simpl. repeat split; auto. right. split; reflexivity.
  - rewrite Next_cons. cbn [Z.eqb negb andb buf itr tmax key].
    inversion Hok as [|? ? [Hp Hpmax] _]; subst.
    assert (Hrem : 0 <= Z.rem (key p0) interval < interval)
      by (apply Z.rem_bound_pos; lia).
    unfold Int64.sub, Int64.rem. rewrite Int64Facts.wrap64_id
      by (unfold Int64.in_range, Int64.min_int, Int64.max_int in *; lia).
    split; [|split; [|split; reflexivity]].
    + left. unfold loaded. simpl. repeat split; try assumption; lia.
    + unfold pending. simpl. Zb_false (key p0 =? 0). reflexivity.
Qed.

End MapperFacts.

(** C4, amended. For a Mapper with interval [I > 0] over an iterator whose
    timestamps are positive, in non-decreasing order and at most
    [2^63 - 1 - I], every call of the map function draws only points with
    [tmin <= ts <= tmin + I - 1], whatever the number of rounds observed;
    and the first window start is [peek().ts - (peek().ts mod I)]. *)
Theorem mapper_calls_in_window
    (ival : Z) (pts : list Point) (tg : string) (fuel : nat) :
  0 < ival <= Int64.max_int ->
  MapperSpec.time_ordered pts ->
  Forall (MapperSpec.timestamp_ok ival) pts ->
  exists cs fin,
    MapperRun.calls fuel ival (mkIterator pts tg) = (cs, Done fin)
    /\ Forall (MapperSpec.in_window ival) cs
    /\ (forall p0 rest, pts = p0 :: rest -> (0 < fuel)%nat ->
        exists ps cs', cs = (key p0 - Z.rem (key p0) ival, ps) :: cs').
Proof.
  intros HI Hsort Hok.
  unfold MapperRun.calls, MapperRun.run. simpl.
  pose proof (MapperFacts.start_state ival pts tg HI Hsort Hok) as Hstart.
  destruct (MapperRun.start ival _) as [tmin b].
  destruct Hstart as (Hinv & Hpts & _ & Htmin).
  destruct (MapperFacts.run_loop_calls ival HI fuel b tmin [] Hinv)
    as (ext & fin & Hrun & Hext & Hfirst).
  exists ext, fin. repeat split; try assumption.
  intros p0 rest -> Hfuel. subst tmin.
  destruct Hinv as [Hl | [_ He]].
  - exact (Hfirst Hl Hfuel).
  - exfalso. inversion Hok as [|? ? [Hp _] _]; subst.
    unfold MapperSpec.pending in Hpts. rewrite He in Hpts. discriminate.
Qed.

(** Under the same conditions the loop of [Mapper.run] ends: some number
    of rounds reaches the [break]. *)
Lemma mapper_run_terminates (ival : Z) (pts : list Point) (tg : string) :
  0 < ival <= Int64.max_int ->
  MapperSpec.time_ordered pts ->
  Forall (MapperSpec.timestamp_ok ival) pts ->
  exists fuel cs,
    MapperRun.calls fuel ival (mkIterator pts tg) = (cs, Done true)
    /\ concat (map snd cs) = pts.
Proof.
  intros HI Hsort Hok.
  pose proof (MapperFacts.start_state ival pts tg HI Hsort Hok) as Hstart.
  unfold MapperRun.calls, MapperRun.run. simpl.
  destruct (MapperRun.start ival _) as [tmin b].
  destruct Hstart as (Hinv & Hpts & _ & Htmin).
  assert (HM : exists M, 0 <= M /\ Forall (fun q => key q <= M) pts).
  { clear. induction pts as [|q l [M [HM0 HM]]].
    - exists 0. split; [lia | constructor].
    - exists (Z.max M (key q)). split; [lia|]. constructor; [lia|].
      eapply Forall_impl; [exact HM|]. simpl. intros; lia. }
  destruct HM as (M & HM0 & HM).
  assert (Htmin0 : - ival < tmin).
  { subst tmin. destruct pts as [|p0 rest]; [lia|].
    inversion Hok as [|? ? [Hp _] _]; subst.
    pose proof (Z.rem_bound_pos (key p0) ival). lia. }
  exists (Z.to_nat (M + 2 * ival + 2)).
  destruct (MapperFacts.run_loop_finishes ival M HI
              (Z.to_nat (M + 2 * ival + 2)) b tmin [] Hinv)
    as (ext & Hrun & Hcat); [now rewrite Hpts | nia | lia |].
  exists ext. rewrite Hrun, Hcat. auto.
Qed.

Lemma mapper_calls_in_window_witness :
  exists cs fin,
    MapperRun.calls 10 10 (mkIterator [mkPoint 1 [] VNil; mkPoint 2 [] VNil;
                                      mkPoint 11 [] VNil; mkPoint 35 [] VNil] "")
      = (cs, Done fin)
    /\ Forall (MapperSpec.in_window 10) cs
    /\ (forall p0 rest,
          [mkPoint 1 [] VNil; mkPoint 2 [] VNil; mkPoint 11 [] VNil;
           mkPoint 35 [] VNil] = p0 :: rest -> (0 < 10)%nat ->
        exists ps cs', cs = (key p0 - Z.rem (key p0) 10, ps) :: cs').
Proof.
  apply (mapper_calls_in_window 10
           [mkPoint 1 [] VNil; mkPoint 2 [] VNil; mkPoint 11 [] VNil;
            mkPoint 35 [] VNil] "" 10%nat).
  - unfold Int64.max_int. lia.
  - unfold MapperSpec.time_ordered.
    repeat (constructor; simpl; try lia).
  - unfold MapperSpec.timestamp_ok, Int64.max_int.
    repeat (constructor; simpl; try lia).
Defined.

(** C4 as stated fails on the code in two ways. An iterator that yields
    15 and then 3 has both points drawn by the call whose window starts at
    10; and for the single timestamp -5 Go's truncating [%] aligns the
    window start to 0, above the point. *)
Lemma mapper_calls_counterexample :
  MapperRun.calls 10 10 (mkIterator [mkPoint 15 [] VNil; mkPoint 3 [] VNil] "")
    = ([(10, [mkPoint 15 [] VNil; mkPoint 3 [] VNil])], Done true)
  /\ ~ MapperSpec.in_window 10 (10, [mkPoint 15 [] VNil; mkPoint 3 [] VNil])
  /\ MapperRun.calls 10 10 (mkIterator [mkPoint (-5) [] VNil] "")
    = ([(0, [mkPoint (-5) [] VNil])], Done true)
  /\ ~ MapperSpec.in_window 10 (0, [mkPoint (-5) [] VNil]).
Proof.
  split; [reflexivity|]. split.
  - unfold MapperSpec.in_window. simpl. intros H.
    inversion H as [|? ? _ H2]; subst. inversion H2 as [|? ? H3 _]; subst.
    simpl in H3. lia.
  - split; [reflexivity|].
    unfold MapperSpec.in_window. simpl. intros H.
    inversion H as [|? ? H1 _]; subst. simpl in H1. lia.
Qed.

(** ** The count identity *)

Module CatalogFacts.

Import Catalog.

Lemma len_app {A} (l k : list A) : len (l ++ k) = len l + len k.
Proof. unfold len. rewrite length_app. lia. Qed.

Lemma len_nonneg {A} (l : list A) : 0 <= len l.
Proof. unfold len. lia. Qed.

(** The counter of [MapCount] does not wrap on a slice-sized input. *)
Lemma count_loop (ps : list Point) : forall z,
  0 <= z -> z + len ps <= Int64.max_int ->
  fold_left (fun n _ => Int64.add n 1) ps z = z + len ps.
Proof.
  induction ps as [|p ps IH]; intros z Hz Hmax; simpl.
  - unfold len. simpl. lia.
  - unfold len in *. simpl length in *.
    unfold Int64.add at 2. rewrite Int64Facts.wrap64_id
      by (unfold Int64.in_range, Int64.min_int, Int64.max_int in *; lia).
    rewrite IH by lia. lia.
Qed.

Lemma MapCount_emits ps tags tmin e :
  len ps <= Int64.max_int ->
  MapCount ps tags tmin e
  = (Emit e (mkKey tmin tags) (VFloat (Float64.of_int (len ps))), Done tt).
Proof.
  intros H. unfold MapCount. rewrite count_loop by (try lia; exact H).
  reflexivity.
Qed.

(** The counts [MapCount] sends for the windows [cs]. *)
Lemma map_calls_MapCount tags (cs : list (Z * list Point)) : forall e,
  len (concat (map snd cs)) <= Int64.max_int ->
  map_calls MapCount tags cs e
  = (e ++ map (fun c => (mkKey (fst c) tags, VFloat (Float64.of_int (len (snd c))))) cs,
     Done tt).
Proof.
  induction cs as [|[tmin ps] cs IH]; intros e Hmax; cbn [map_calls map fst snd].
  - now rewrite app_nil_r.
  - cbn [map concat snd] in Hmax. rewrite len_app in Hmax.
    pose proof (len_nonneg ps). pose proof (len_nonneg (concat (map snd cs))).
    rewrite MapCount_emits by lia. rewrite IH by lia.
    unfold Emit. now rewrite <- app_assoc.
Qed.

(** The loop of [ReduceSum] over counts. *)
Lemma sum_of_counts (ns : list Z) : forall acc,
  0 <= acc -> Forall (fun n => 0 <= n) ns ->
  acc + fold_right Z.add 0 ns <= 2 ^ 53 ->
  ofoldl (fun n v => f ← asFloat v; Done (PrimFloat.add n f))
         (map (fun n => VFloat (Float64.of_int n)) ns) (Float64.of_int acc)
  = Done (Float64.of_int (acc + fold_right Z.add 0 ns)).
Proof.
  induction ns as [|n ns IH]; intros acc Hacc Hns Hsum; simpl.
  - now rewrite Z.add_0_r.
  - inversion Hns as [|? ? Hn Hns']; subst. simpl in Hsum.
    assert (0 <= fold_right Z.add 0 ns).
    { clear - Hns'. induction Hns'; simpl; lia. }
    cbn [mbind outcome_bind obind].
    rewrite Float64Facts.of_int_add by lia.
    rewrite IH by (try assumption; lia). f_equal. f_equal. lia.
Qed.

Lemma sum_of_lens (cs : list (Z * list Point)) :
  fold_right Z.add 0 (map (fun c => len (snd c)) cs) = len (concat (map snd cs)).
Proof.
  induction cs as [|c cs IH]; simpl; [reflexivity|].
  now rewrite len_app, IH.
Qed.

(** [ReduceSum] over the counts of the windows [cs]. *)
Lemma reduce_counts tags key (cs : list (Z * list Point)) e :
  len (concat (map snd cs)) <= 2 ^ 53 ->
  ReduceSum key
    (map snd (map (fun c => (mkKey (fst c) tags,
                             VFloat (Float64.of_int (len (snd c))))) cs)) e
  = (Emit e key (VFloat (Float64.of_int (len (concat (map snd cs))))), Done tt).
Proof.
  intros Hmax. unfold ReduceSum. rewrite map_map. simpl snd.
  rewrite <- (map_map (fun c => len (snd c))
                      (fun n => VFloat (Float64.of_int n))).
  change Float64.zero with (Float64.of_int 0).
  rewrite sum_of_counts.
  - now rewrite Z.add_0_l, sum_of_lens.
  - lia.
  - apply Forall_forall. intros n Hin. apply list_elem_of_In, in_map_iff in Hin.
    destruct Hin as (c & <- & _). apply len_nonneg.
  - rewrite Z.add_0_l, sum_of_lens. exact Hmax.
Qed.

End CatalogFacts.

Lemma float_to_Z_of_int n :
  0 <= n <= 2 ^ 53 -> float_to_Z (Float64.of_int n) = Some n.
Proof.
  intros Hn. unfold float_to_Z.
  assert (2 ^ 53 < 2 ^ 63) by reflexivity.
  rewrite Float64Facts.Prim2SF_of_int by lia.
  destruct (Z.eq_dec n 0) as [->|Hn0]; [reflexivity|].
  destruct (Float64Facts.SFofZ_pos n) as (x & e & -> & Hx & He & Hv); [lia|].
  destruct (Z.leb_spec 0 e) as [Hpos|Hneg].
  - f_equal. rewrite Z.pow_add_r in Hv by lia.
    assert (0 < 2 ^ 52) by reflexivity. nia.
  - assert (Hx' : Z.pos x = n * 2 ^ (- e)).
    { replace 52 with ((e + 52) + (- e)) in Hv at 2 by lia.
      rewrite (Z.pow_add_r 2 (e + 52) (- e)) in Hv by lia.
      assert (0 < 2 ^ (e + 52)) by (apply Z.pow_pos_nonneg; lia).
      apply (Z.mul_reg_r _ _ (2 ^ (e + 52))); [lia|]. rewrite Hv. ring. }
    assert (0 < 2 ^ (- e)) by (apply Z.pow_pos_nonneg; lia).
    rewrite Hx', Z.mod_mul, Z.eqb_refl, Z.div_mul by lia. reflexivity.
Qed.

(** C5, amended. For windows holding at most [2^53] points in all,
    [ReduceSum] over the counts that [MapCount] sends for the windows
    sends one value: the float that is exactly the number of points. *)
Theorem count_identity
    (tags : string) (key : Key) (cs : list (Z * list Point)) (e : Emitter) :
  len (concat (map snd cs)) <= 2 ^ 53 ->
  exists em,
    map_calls Catalog.MapCount tags cs [] = (em, Done tt)
    /\ Catalog.ReduceSum key (map snd em) e
       = (Emit e key (VFloat (Float64.of_int (len (concat (map snd cs))))), Done tt)
    /\ float_to_Z (Float64.of_int (len (concat (map snd cs))))
       = Some (len (concat (map snd cs))).
Proof.
  intros Hmax.
  assert (2 ^ 53 <= Int64.max_int) by (vm_compute; discriminate).
  eexists. split; [apply CatalogFacts.map_calls_MapCount; lia|].
  split.
  - rewrite app_nil_l. now apply CatalogFacts.reduce_counts.
  - apply float_to_Z_of_int. split; [apply CatalogFacts.len_nonneg | exact Hmax].
Qed.

Lemma count_identity_witness :
  exists em,
    map_calls Catalog.MapCount "host=A"
      [(0, [mkPoint 1 [] VNil; mkPoint 2 [] VNil]); (10, [mkPoint 11 [] VNil])] []
    = (em, Done tt)
    /\ Catalog.ReduceSum zeroKey (map snd em) []
       = (Emit [] zeroKey
            (VFloat (Float64.of_int
               (len (concat (map snd
                  [(0, [mkPoint 1 [] VNil; mkPoint 2 [] VNil]);
                   (10, [mkPoint 11 [] VNil])]))))), Done tt)
    /\ float_to_Z (Float64.of_int
         (len (concat (map snd
            [(0, [mkPoint 1 [] VNil; mkPoint 2 [] VNil]);
             (10, [mkPoint 11 [] VNil])]))))
       = Some (len (concat (map snd
            [(0, [mkPoint 1 [] VNil; mkPoint 2 [] VNil]);
             (10, [mkPoint 11 [] VNil])]))).
Proof.
  apply (count_identity "host=A" zeroKey
           [(0, [mkPoint 1 [] VNil; mkPoint 2 [] VNil]); (10, [mkPoint 11 [] VNil])] []).
  vm_compute. discriminate.
Defined.

Lemma len_many_points : len many_points = 2 ^ 53 + 1.
Proof.
  unfold many_points, len. rewrite repeat_length, Z2Nat.id; [reflexivity|].
  vm_compute. discriminate.
Qed.

(** C5 as stated fails beyond [2^53] points: the count is a [float64],
    and [float64(2^53 + 1)] is [2^53]. *)
Lemma count_identity_counterexample :
  len (concat (map snd [(0, many_points)])) = 2 ^ 53 + 1
  /\ exists em f,
       map_calls Catalog.MapCount "" [(0, many_points)] [] = (em, Done tt)
       /\ Catalog.ReduceSum zeroKey (map snd em) [] = ([(zeroKey, VFloat f)], Done tt)
       /\ float_to_Z f = Some (2 ^ 53).
Proof.
  assert (Hlen : len (concat (map snd [(0, many_points)])) = 2 ^ 53 + 1).
  { cbn [map snd concat]. rewrite app_nil_r. apply len_many_points. }
  split; [exact Hlen|].
  assert (Hmax : 2 ^ 53 + 1 <= Int64.max_int) by (vm_compute; discriminate).
  exists [(mkKey 0 "", VFloat (Float64.of_int (2 ^ 53 + 1)))],
         (Float64.of_int (2 ^ 53)).
  split; [|split].
  - rewrite CatalogFacts.map_calls_MapCount by (rewrite Hlen; exact Hmax).
    cbn [map fst snd app]. now rewrite len_many_points.
  - vm_compute. reflexivity.
  - vm_compute. reflexivity.
Qed.

(** ** [Mapper.run] with a map function that does not panic *)

Module MapperCalls.

Import BufIterator MapperRun MapperSpec MapperFacts.

Lemma Tags_Next b : Tags (snd (Next b)) = Tags b.
Proof.
  destruct b as [[l tg] T p bu]. unfold Next, Tags.
  destruct bu; [|destruct l]; simpl;
    match goal with |- context [if ?c then _ else _] => destruct c end;
    reflexivity.
Qed.

Lemma Tags_drain_loop fuel : forall b, Tags (snd (drain_loop fuel b)) = Tags b.
Proof.
  induction fuel as [|fuel IH]; intros b; rewrite drain_loop_eq;
    pose proof (Tags_Next b) as HN; destruct (Next b) as [p b1]; simpl in HN;
    destruct (key p =? 0); simpl; try assumption.
  specialize (IH b1). destruct (drain_loop fuel b1) as [ps b2]. simpl in *.
  congruence.
Qed.

Lemma Tags_drain b : Tags (snd (drain b)) = Tags b.
Proof. apply Tags_drain_loop. Qed.

Lemma Tags_EOF b : Tags (snd (EOF b)) = Tags b.
Proof.
  unfold EOF, Peek. pose proof (Tags_Next b) as HN.
  destruct (Next b) as [p b1]. exact HN.
Qed.

(** The calls recorded from an accumulator extend it. *)
Lemma run_loop_acc interval fuel : forall b acc tmin,
  run_loop fuel record_call interval b acc tmin
  = (acc ++ fst (run_loop fuel record_call interval b [] tmin),
     snd (run_loop fuel record_call interval b [] tmin)).
Proof.
  induction fuel as [|fuel IH]; intros b acc tmin; cbn [run_loop].
  - now rewrite app_nil_r.
  - destruct (EOF _) as [[|] b2]; [now rewrite app_nil_r|].
    destruct (drain b2) as [ps b3]. rewrite !record_call_eq.
    rewrite (IH b3 (acc ++ [(tmin, ps)])), (IH b3 ([] ++ [(tmin, ps)])).
    simpl. now rewrite <- app_assoc.
Qed.

(** [Mapper.run] sends what its map function sends on the recorded calls. *)
Lemma run_loop_map_calls {E} (f : MapFunc E) interval :
  (forall ps tg t e, snd (f ps tg t e) = Done tt) ->
  forall fuel b e tmin,
    run_loop fuel f interval b e tmin
    = (fst (map_calls f (Tags b)
              (fst (run_loop fuel record_call interval b [] tmin)) e),
       snd (run_loop fuel record_call interval b [] tmin)).
Proof.
  intros Hf. induction fuel as [|fuel IH]; intros b e tmin; cbn [run_loop].
  - reflexivity.
  - set (b1 := if interval >? 0 then _ else b).
    assert (Hb1 : Tags b1 = Tags b) by (subst b1; destruct (interval >? 0); reflexivity).
    pose proof (Tags_EOF b1) as HE.
    destruct (EOF b1) as [[|] b2]; [reflexivity|]. simpl in HE.
    pose proof (Tags_drain b2) as HD.
    destruct (drain b2) as [ps b3]. simpl in HD.
    rewrite record_call_eq, run_loop_acc. cbn [app fst snd map_calls].
    assert (Hb2 : Tags b2 = Tags b) by congruence.
    assert (Hb3 : Tags b3 = Tags b) by congruence.
    specialize (Hf ps (Tags b) tmin e). rewrite Hb2.
    destruct (f ps (Tags b) tmin e) as [e' [[]|p]]; [|discriminate].
    rewrite IH. now rewrite Hb3.
Qed.

End MapperCalls.

(** The count identity through [Mapper.run]: over a time-ordered stream
    of at most [2^53] points, the counts [MapCount] sends window by
    window add up, in [ReduceSum], to the length of the stream. *)
Lemma mapper_count_identity
    (ival : Z) (pts : list Point) (tg : string) (key : Key) (e : Emitter) :
  0 < ival <= Int64.max_int ->
  MapperSpec.time_ordered pts ->
  Forall (MapperSpec.timestamp_ok ival) pts ->
  len pts <= 2 ^ 53 ->
  exists fuel em,
    MapperRun.run fuel (mkMapper _ Catalog.MapCount (mkIterator pts tg) ival) []
    = (em, Done true)
    /\ Catalog.ReduceSum key (map snd em) e
       = (Emit e key (VFloat (Float64.of_int (len pts))), Done tt).
Proof.
  intros HI Hsort Hok Hlen.
  destruct (mapper_run_terminates ival pts tg HI Hsort Hok) as (fuel & cs & Hcalls & Hcat).
  assert (Hmax : 2 ^ 53 <= Int64.max_int) by (vm_compute; discriminate).
  pose proof (CatalogFacts.map_calls_MapCount tg cs []) as Hem.
  rewrite Hcat in Hem. specialize (Hem ltac:(lia)).
  pose proof (CatalogFacts.reduce_counts tg key cs e) as Hsum.
  rewrite Hcat in Hsum. specialize (Hsum Hlen).
  eexists fuel, _. split; [|exact Hsum].
  unfold MapperRun.calls, MapperRun.run in *. simpl in *.
  pose proof (MapperFacts.start_state ival pts tg HI Hsort Hok) as Hstart.
  destruct (MapperRun.start ival _) as [tmin b].
  destruct Hstart as (_ & _ & Htags & _).
  rewrite MapperCalls.run_loop_map_calls by reflexivity.
  rewrite Hcalls, Htags. simpl. now rewrite Hem.
Qed.

(** ** The standard deviation and the percentile *)

Module ReduceFacts.

Import Catalog.

Lemma collect_floats (chunks : list (list float)) : forall acc,
  ofoldl (fun data value => l ← asFloats value; Done (data ++ l))
         (map VFloats chunks) acc
  = Done (acc ++ concat chunks).
Proof.
  induction chunks as [|c chunks IH]; intros acc; simpl.
  - now rewrite app_nil_r.
  - cbn [mbind outcome_bind obind]. rewrite IH. now rewrite app_assoc.
Qed.

Lemma fold_left_add_map {A} (g : A -> float) (l : list A) : forall z,
  fold_left (fun acc v => PrimFloat.add acc (g v)) l z
  = fold_left PrimFloat.add (map g l) z.
Proof. induction l as [|x l IH]; intros z; simpl; [reflexivity | apply IH]. Qed.

Lemma collect_values_inner (c : list float) : forall acc,
  ofoldl (fun allValues v => f ← asFloat v; Done (allValues ++ [f]))
         (map VFloat c) acc
  = Done (acc ++ c).
Proof.
  induction c as [|x c IH]; intros acc; simpl.
  - now rewrite app_nil_r.
  - cbn [mbind outcome_bind obind]. rewrite IH. now rewrite <- app_assoc.
Qed.

Lemma collect_values (chunks : list (list float)) : forall acc,
  ofoldl (fun allValues v =>
            vals ← asList v;
            ofoldl (fun allValues v => f ← asFloat v; Done (allValues ++ [f]))
                   vals allValues)
         (map (fun c => VList (map VFloat c)) chunks) acc
  = Done (acc ++ concat chunks).
Proof.
  induction chunks as [|c chunks IH]; intros acc; cbn [map ofoldl concat].
  - now rewrite app_nil_r.
  - cbn [asList mbind outcome_bind obind]. rewrite collect_values_inner.
    cbn [mbind outcome_bind obind]. rewrite IH. now rewrite app_assoc.
Qed.

Section Percentile.

Variable int_out_of_range : float -> Z.
Variables (percentile : float) (key : Key) (e : Emitter).
Variable chunks : list (list float).

Let sorted : list float := sort_by float_less (concat chunks).
Let idx : Z := percentile_index int_out_of_range percentile (len sorted).

(** With the index in range the reducer sends the value at the index, and
    nothing else. *)
Lemma ReducePercentile_in_range (v : float) :
  0 <= idx < len sorted ->
  nth_error sorted (Z.to_nat idx) = Some v ->
  ReducePercentile int_out_of_range percentile key
    (map (fun c => VList (map VFloat c)) chunks) e
  = (Emit e key (VFloat v), Done tt).
Proof.
  intros Hidx Hv. unfold ReducePercentile.
  rewrite collect_values, app_nil_l.
  fold sorted. fold (percentile_index int_out_of_range percentile (len sorted)).
  fold idx. unfold index.
  Zb_false (idx <? 0). Zb_false (idx >=? len sorted). Zb_false (len sorted <=? idx).
  cbn [orb]. now rewrite Hv.
Qed.

(** With the index out of range the reducer sends 0.0 and then panics
    on [allValues[index]]. *)
Lemma ReducePercentile_out_of_range :
  idx < 0 \/ len sorted <= idx ->
  ReducePercentile int_out_of_range percentile key
    (map (fun c => VList (map VFloat c)) chunks) e
  = (Emit e key (VFloat Float64.zero), Panicked IndexOutOfRange).
Proof.
  intros Hidx. unfold ReducePercentile.
  rewrite collect_values, app_nil_l.
  fold sorted. fold (percentile_index int_out_of_range percentile (len sorted)).
  fold idx. unfold index.
  destruct Hidx as [Hneg | Hbig].
  - Zb_true (idx <? 0). reflexivity.
  - Zb_true (len sorted <=? idx).
    Zb_true (idx >=? len sorted).
    rewrite !orb_true_r. reflexivity.
Qed.

End Percentile.

End ReduceFacts.

(** C7. [ReduceStddev] on the batches [MapStddev] sends: nothing for no
    value, the string "undefined" for one value, and otherwise the sample
    standard deviation (variance divided by [n - 1]). *)
Theorem ReduceStddev_cases
    (Pow : float -> float -> float) (key : Key)
    (chunks : list (list float)) (e : Emitter) :
  len (concat chunks) <= Int64.max_int ->
  Catalog.ReduceStddev Pow key (map VFloats chunks) e
  = match concat chunks with
    | [] => (e, Done tt)
    | [_] => (Emit e key (VString "undefined"), Done tt)
    | data => (Emit e key (VFloat (spec_sample_stddev Pow data)), Done tt)
    end.
Proof.
  intros Hmax. unfold Catalog.ReduceStddev.
  rewrite ReduceFacts.collect_floats, app_nil_l.
  destruct (concat chunks) as [|x [|y data]]; [reflexivity | reflexivity |].
  set (d := x :: y :: data) in *.
  assert (Hlen : 2 <= len d) by (unfold d, len; simpl length; lia).
  Zb_false (len d =? 0). Zb_false (len d =? 1).
  unfold spec_sample_stddev, fsum.
  rewrite ReduceFacts.fold_left_add_map.
  unfold Int64.sub. rewrite Int64Facts.wrap64_id
    by (unfold Int64.in_range, Int64.min_int, Int64.max_int in *; lia).
  reflexivity.
Qed.

Lemma ReduceStddev_cases_witness :
  Catalog.ReduceStddev (fun x _ => PrimFloat.mul x x) zeroKey
    (map VFloats [[2; 4; 4; 4]%float; [5; 5; 7; 9]%float]) []
  = match concat [[2; 4; 4; 4]%float; [5; 5; 7; 9]%float] with
    | [] => ([], Done tt)
    | [_] => (Emit [] zeroKey (VString "undefined"), Done tt)
    | data =>
        (Emit [] zeroKey
           (VFloat (spec_sample_stddev (fun x _ => PrimFloat.mul x x) data)),
         Done tt)
    end.
Proof.
  apply (ReduceStddev_cases (fun x _ => PrimFloat.mul x x) zeroKey
           [[2; 4; 4; 4]%float; [5; 5; 7; 9]%float] []).
  vm_compute. discriminate.
Defined.

(** The scenario of the specification: a single point sends "undefined". *)
Example ReduceStddev_single_point (Pow : float -> float -> float) :
  Catalog.ReduceStddev Pow (mkKey 0 "") [VFloats [42%float]] []
  = ([(mkKey 0 "", VString "undefined")], Done tt).
Proof. reflexivity. Qed.

(** The scenario of the specification: the 50th percentile of 1..10 is 5. *)
Example ReducePercentile_one_to_ten (int_out_of_range : float -> Z) :
  Catalog.ReducePercentile int_out_of_range (Float64.of_int 50) zeroKey
    [VList (map VFloat one_to_ten)] []
  = ([(zeroKey, VFloat 5%float)], Done tt).
Proof. vm_compute. reflexivity. Qed.

(** C2. On an index out of range the code sends 0.0 and then goes on to
    [allValues[index]], which panics: with no value at all (index -1 for
    every finite percentile up to 100), and with ten values and
    percentile 0. *)
Theorem ReducePercentile_index_out_of_range (int_out_of_range : float -> Z) :
  Catalog.ReducePercentile int_out_of_range (Float64.of_int 50) zeroKey [] []
  = ([(zeroKey, VFloat Float64.zero)], Panicked IndexOutOfRange)
  /\ percentile_index int_out_of_range (Float64.of_int 50) 0 = -1
  /\ Catalog.ReducePercentile int_out_of_range (Float64.of_int 0) zeroKey
       [VList (map VFloat one_to_ten)] []
     = ([(zeroKey, VFloat Float64.zero)], Panicked IndexOutOfRange)
  /\ percentile_index int_out_of_range (Float64.of_int 0) 10 = -1.
Proof. repeat split; vm_compute; reflexivity. Qed.

(** ** Orders and sorting *)

(** Go compares strings byte by byte: that is [String.compare]. *)

Module StringOrder.

Lemma ascii_compare_N a b :
  Ascii.compare a b = N.compare (N_of_ascii a) (N_of_ascii b).
Proof. reflexivity. Qed.

Lemma ascii_compare_lt_trans a b c :
  Ascii.compare a b = Lt -> Ascii.compare b c = Lt -> Ascii.compare a c = Lt.
Proof.
  rewrite !ascii_compare_N, !N.compare_lt_iff. apply N.lt_trans.
Qed.

Lemma ascii_compare_refl a : Ascii.compare a a = Eq.
Proof. rewrite ascii_compare_N. apply N.compare_refl. Qed.

Lemma compare_refl s : String.compare s s = Eq.
Proof.
  induction s as [|a s IH]; simpl; [reflexivity|].
  now rewrite ascii_compare_refl.
Qed.

Lemma compare_lt_trans s1 : forall s2 s3,
  String.compare s1 s2 = Lt -> String.compare s2 s3 = Lt ->
  String.compare s1 s3 = Lt.
Proof.
  induction s1 as [|a s1 IH]; intros [|b s2] [|c s3]; simpl; try congruence.
  destruct (Ascii.compare a b) eqn:Eab; try discriminate;
    destruct (Ascii.compare b c) eqn:Ebc; try discriminate; intros H1 H2.
  - apply Ascii.compare_eq_iff in Eab, Ebc. subst.
    rewrite ascii_compare_refl. eauto.
  - apply Ascii.compare_eq_iff in Eab. subst. now rewrite Ebc.
  - apply Ascii.compare_eq_iff in Ebc. subst. now rewrite Eab.
  - now rewrite (ascii_compare_lt_trans a b c).
Qed.

Lemma ltb_irrefl s : String.ltb s s = false.
Proof. unfold String.ltb. now rewrite compare_refl. Qed.

Lemma ltb_trans s1 s2 s3 :
  String.ltb s1 s2 = true -> String.ltb s2 s3 = true -> String.ltb s1 s3 = true.
Proof.
  unfold String.ltb.
  destruct (String.compare s1 s2) eqn:E1; try discriminate.
  destruct (String.compare s2 s3) eqn:E2; try discriminate.
  now rewrite (compare_lt_trans _ _ _ E1 E2).
Qed.

Lemma ltb_asym s1 s2 : String.ltb s1 s2 = true -> String.ltb s2 s1 = false.
Proof.
  unfold String.ltb. rewrite (String.compare_antisym s1 s2).
  destruct (String.compare s2 s1); simpl; congruence.
Qed.

(** Two strings are equal or one is below the other. *)
Lemma ltb_connex s1 s2 :
  String.ltb s1 s2 = false -> String.ltb s2 s1 = false -> s1 = s2.
Proof.
  unfold String.ltb. rewrite (String.compare_antisym s1 s2).
  destruct (String.compare s2 s1) eqn:E; simpl; try discriminate.
  intros _ _. symmetry. now apply String.compare_eq_iff.
Qed.

(** [s1 <= s2], as the negation of [s2 < s1]. *)
Lemma not_ltb_trans s1 s2 s3 :
  String.ltb s2 s1 = false -> String.ltb s3 s2 = false -> String.ltb s3 s1 = false.
Proof.
  intros H12 H23.
  destruct (String.ltb s3 s1) eqn:H31; [|reflexivity].
  destruct (String.ltb s1 s2) eqn:E12.
  - rewrite (ltb_trans _ _ _ H31 E12) in H23. discriminate.
  - rewrite (ltb_connex _ _ E12 H12) in H31. congruence.
Qed.

End StringOrder.

Section SortFacts.

Context {A : Type} (less : A -> A -> bool).

Hypothesis less_asym : forall x y, less x y = true -> less y x = false.
Hypothesis not_after_trans :
  forall x y z, not_after less x y -> not_after less y z -> not_after less x z.

Lemma insert_by_perm x l : Permutation (insert_by less x l) (x :: l).
Proof.
  induction l as [|y l IH]; simpl; [reflexivity|].
  destruct (less y x); [|reflexivity].
  rewrite IH. apply perm_swap.
Qed.

Lemma sort_by_perm l : Permutation (sort_by less l) l.
Proof.
  induction l as [|x l IH]; simpl; [reflexivity|].
  rewrite insert_by_perm. now constructor.
Qed.

Lemma insert_by_sorted x l :
  StronglySorted (not_after less) l -> StronglySorted (not_after less) (insert_by less x l).
Proof.
  induction 1 as [|y l Hl IH Hy]; simpl.
  - repeat constructor.
  - destruct (less y x) eqn:E.
    + constructor; [exact IH|].
      rewrite insert_by_perm. constructor; [|exact Hy].
      apply less_asym. exact E.
    + constructor; [constructor; assumption|].
      constructor; [exact E|].
      eapply Forall_impl; [exact Hy|]. intros z Hz.
      eapply not_after_trans; [exact E | exact Hz].
Qed.

Lemma sort_by_sorted l : StronglySorted (not_after less) (sort_by less l).
Proof.
  induction l as [|x l IH]; simpl; [constructor|].
  now apply insert_by_sorted.
Qed.

End SortFacts.

(** The sort only looks at [less] on the elements of the list. *)
Lemma insert_by_ext {A} (less less' : A -> A -> bool) x l :
  (forall y, In y l -> less y x = less' y x) ->
  insert_by less x l = insert_by less' x l.
Proof.
  induction l as [|y l IH]; intros H; simpl; [reflexivity|].
  rewrite (H y) by now left.
  destruct (less' y x); [|reflexivity].
  f_equal. apply IH. intros z Hz. apply H. now right.
Qed.

Lemma sort_by_ext {A} (less less' : A -> A -> bool) l :
  (forall x y, In x l -> In y l -> less x y = less' x y) ->
  sort_by less l = sort_by less' l.
Proof.
  induction l as [|x l IH]; intros H; simpl; [reflexivity|].
  rewrite IH by (intros; apply H; now right).
  apply insert_by_ext. intros y Hy. apply H; [right | now left].
  apply (Permutation_in y (sort_by_perm less' l)). exact Hy.
Qed.

(** ** The Reducer *)

Module ReducerFacts.

Import BufInput ReducerRun ReducerSpec.

Lemma at_timestamp_append timestamp data rec :
  at_timestamp timestamp data -> Timestamp (fst rec) = timestamp ->
  at_timestamp timestamp (append_value data rec).
Proof.
  intros Hd Hr k. unfold append_value.
  destruct (decide (fst rec = k)) as [<-|Hne]; [intros _; exact Hr|].
  rewrite lookup_insert_ne by exact Hne. apply Hd.
Qed.

Lemma read_loop_at_timestamp timestamp fuel : forall input data,
  at_timestamp timestamp data ->
  at_timestamp timestamp (snd (read_loop fuel timestamp input data)).
Proof.
  induction fuel as [|fuel IH]; intros input data Hd; cbn [read_loop];
    [exact Hd|].
  destruct (read input) as [[rec|] input1]; [|exact Hd].
  destruct (Timestamp (fst rec) =? timestamp) eqn:E; cbn [negb]; [|exact Hd].
  apply IH, at_timestamp_append; [exact Hd | now apply Z.eqb_eq].
Qed.

(** The rounds [read_input] gives the loop are enough: a round that goes
    on has taken the buffered record or a record of the channel. *)
Lemma read_loop_fuel timestamp : forall fuel fuel' input data,
  (length (chan input) + (match ibuf input with Some _ => 1 | None => 0 end) < fuel)%nat ->
  (length (chan input) + (match ibuf input with Some _ => 1 | None => 0 end) < fuel')%nat ->
  read_loop fuel timestamp input data = read_loop fuel' timestamp input data.
Proof.
  induction fuel as [|fuel IH]; intros fuel' [[rec|] c] data H1 H2;
    cbn [chan ibuf] in H1, H2; try lia;
    (destruct fuel' as [|fuel']; [lia|]); cbn [read_loop]; unfold read;
    cbn [ibuf chan].
  - destruct (negb (Timestamp (fst rec) =? timestamp)); [reflexivity|].
    apply IH; simpl; lia.
  - destruct c as [|rec c]; [reflexivity|].
    destruct (negb (Timestamp (fst rec) =? timestamp)); [reflexivity|].
    apply IH; simpl in *; lia.
Qed.

Lemma read_loop_enough timestamp fuel input data :
  (S (S (length (chan input))) <= fuel)%nat ->
  read_loop fuel timestamp input data = read_input timestamp input data.
Proof.
  intros H. unfold read_input. apply read_loop_fuel; destruct (ibuf input); lia.
Qed.

Lemma read_inputs_at_timestamp timestamp bufInputs :
  at_timestamp timestamp (snd (read_inputs timestamp bufInputs)).
Proof.
  unfold read_inputs.
  assert (G : forall (acc : list bufInput * gmap Key (list Value)),
             at_timestamp timestamp (snd acc) ->
             at_timestamp timestamp
               (snd (fold_left
                       (fun '(seen, data) input =>
                          let '(input1, data1) := read_input timestamp input data in
                          (seen ++ [input1], data1))
                       bufInputs acc))).
  { induction bufInputs as [|input bufInputs IH]; intros [seen data] Hacc;
      cbn [fold_left]; [exact Hacc|].
    apply IH. unfold read_input.
    pose proof (read_loop_at_timestamp timestamp
                  (S (S (length (chan input)))) input data Hacc) as H.
    destruct (read_loop _ timestamp input data) as [input1 data1]. exact H. }
  apply G. intros k [v Hv]. simpl in Hv. rewrite lookup_empty in Hv. discriminate.
Qed.

Lemma strict_of_not_after (l : list Key) (timestamp : Z) :
  NoDup l ->
  Forall (fun k => Timestamp k = timestamp) l ->
  StronglySorted (not_after valuesLess) l ->
  StronglySorted (fun a b => valuesLess a b = true) l.
Proof.
  intros Hnd Hts Hs. induction Hs as [|a l Hl IH Ha]; [constructor|].
  apply NoDup_cons in Hnd as [Hnotin Hnd].
  inversion Hts as [|? ? Hta Htl]; subst.
  constructor; [now apply IH|].
  rewrite Forall_forall in Ha, Htl |- *. intros b Hb.
  specialize (Ha b Hb). specialize (Htl b Hb). unfold not_after, valuesLess in *.
  destruct (String.ltb (Values a) (Values b)) eqn:E; [reflexivity|exfalso].
  apply Hnotin. pose proof (StringOrder.ltb_connex _ _ E Ha) as Hv.
  destruct a as [ta va], b as [tb vb]. simpl in *. now subst.
Qed.

(** The keys of one round all carry its timestamp and come out of the
    sort in strictly increasing tagset order. *)
Lemma round_keys_sorted (timestamp : Z) (bufInputs : list bufInput) :
  let keys := sorted_keys (snd (read_inputs timestamp bufInputs)) in
  Forall (fun k => Timestamp k = timestamp) keys /\
  StronglySorted (fun a b => valuesLess a b = true) keys.
Proof.
  intros keys. subst keys. unfold sorted_keys.
  pose proof (read_inputs_at_timestamp timestamp bufInputs) as Hat.
  set (data := snd (read_inputs timestamp bufInputs)) in *.
  set (l := map fst (map_to_list data)).
  assert (Hl : Forall (fun k => Timestamp k = timestamp) l).
  { apply Forall_forall. intros k Hk. subst l.
    apply list_elem_of_In, in_map_iff in Hk. destruct Hk as ([k' v] & <- & Hkv).
    apply list_elem_of_In, elem_of_map_to_list in Hkv. apply Hat. eauto. }
  assert (Hnd : NoDup l) by apply NoDup_fst_map_to_list.
  assert (Hext : sort_by keyLess l = sort_by valuesLess l).
  { apply sort_by_ext. intros x y Hx Hy. unfold keyLess, valuesLess.
    rewrite Forall_forall in Hl.
    rewrite (Hl x), (Hl y) by now apply list_elem_of_In.
    now rewrite Z.ltb_irrefl. }
  rewrite Hext.
  pose proof (sort_by_perm valuesLess l) as Hperm.
  assert (Hts : Forall (fun k => Timestamp k = timestamp) (sort_by valuesLess l)).
  { now rewrite Hperm. }
  split; [exact Hts|].
  apply (strict_of_not_after _ timestamp); [now rewrite Hperm | exact Hts |].
  apply sort_by_sorted.
  - intros x y. apply StringOrder.ltb_asym.
  - intros x y z. unfold not_after, valuesLess. apply StringOrder.not_ltb_trans.
Qed.

End ReducerFacts.

(** C3. The output of a reducer is not in increasing timestamp order when
    a window starts at 0: the round's timestamp is kept in a variable
    whose 0 means "not set", so the record at 0 of the first mapper is
    overridden by the record at 10 of the second. The key (10, "b") is
    reduced first, then (0, "a"), then (10, "a"). *)
Theorem reducer_output_not_increasing :
  fst (MapperRun.run 10 mapper_a [])
    = [(mkKey 0 "a", VFloat 1%float); (mkKey 10 "a", VFloat 1%float)]
  /\ fst (MapperRun.run 10 mapper_b []) = [(mkKey 10 "b", VFloat 1%float)]
  /\ ReducerRun.Reduce 10 Catalog.ReduceSum [mapper_a; mapper_b]
     = ([(mkKey 10 "b", VFloat 1%float);
         (mkKey 0 "a", VFloat 1%float);
         (mkKey 10 "a", VFloat 1%float)], Done true)
  /\ ReducerRun.rounds 10
       [fst (MapperRun.run 10 mapper_a []); fst (MapperRun.run 10 mapper_b [])]
     = ([[mkKey 10 "b"]; [mkKey 0 "a"]; [mkKey 10 "a"]], Done true).
Proof. repeat split; vm_compute; reflexivity. Qed.

(** ** The binary expression evaluator: [run] *)

Module binaryExprFacts.

Import binaryExprEvaluator binaryExprEvaluatorRun.

(** No operator accepts the nil interface on its right. *)
Lemma eval_nil_rhs op v : exists p, eval op v VNil = Panicked p.
Proof. destruct op, v; simpl; eauto. Qed.

Lemma ofoldl_panic {A B} (f : A -> B -> outcome A) (l : list B) x :
  x ∈ l -> (forall a, exists p, f a x = Panicked p) ->
  forall a, exists p, ofoldl f l a = Panicked p.
Proof.
  intros Hin Hx. induction l as [|y l IH]; [inversion Hin|].
  intros a. cbn [ofoldl].
  apply elem_of_cons in Hin as [<-|Hin].
  - destruct (Hx a) as [p ->]. eauto.
  - destruct (f a y) as [a'|p]; [apply (IH Hin) | eauto].
Qed.

(** A key of the left batch that the right batch lacks makes the round
    panic: [rhs[k]] is nil, and [eval] asserts it to be a float. *)
Lemma merge_missing_rhs op (lhs rhs : gmap Key Value) k v :
  lhs !! k = Some v -> rhs !! k = None ->
  exists p, merge op lhs rhs = Panicked p.
Proof.
  intros Hl Hr. unfold merge.
  assert (H : exists p, lhs_loop op rhs (map_to_list lhs) ∅ = Panicked p).
  { unfold lhs_loop. apply ofoldl_panic with (x := (k, v)).
    - now apply elem_of_map_to_list.
    - intros a. simpl. rewrite Hr. simpl.
      destruct (eval_nil_rhs op v) as [p ->]. eauto. }
  destruct H as [p ->]. eauto.
Qed.

Lemma lhs_loop_spec op rhs (l : list (Key * Value)) : forall m m',
  NoDup (map fst l) ->
  lhs_loop op rhs l m = Done m' ->
  (forall k v, (k, v) ∈ l ->
     exists r, eval op v (default VNil (rhs !! k)) = Done r /\ m' !! k = Some r)
  /\ (forall k, k ∉ map fst l -> m' !! k = m !! k).
Proof.
  unfold lhs_loop.
  induction l as [|[k0 v0] l IH]; intros m m' Hnd Hrun; cbn [ofoldl] in Hrun.
  - injection Hrun as <-. split; [intros k v Hin; inversion Hin | auto].
  - cbn [map fst] in Hnd. apply NoDup_cons in Hnd as [Hk0 Hnd].
    simpl in Hrun.
    destruct (eval op v0 (default VNil (rhs !! k0))) as [r0|p] eqn:E0;
      [|discriminate]. simpl in Hrun.
    destruct (IH _ _ Hnd Hrun) as [Hin Hout]. split.
    + intros k v Hkv. apply elem_of_cons in Hkv as [[= -> ->]|Hkv].
      * exists r0. split; [exact E0|].
        rewrite (Hout k0 Hk0). apply lookup_insert_eq.
      * apply Hin. exact Hkv.
    + intros k Hk. cbn [map fst] in Hk. apply not_elem_of_cons in Hk as [Hne Hk].
      rewrite (Hout k Hk). now rewrite lookup_insert_ne.
Qed.

Lemma rhs_loop_spec op (l : list (Key * Value)) : forall m m',
  NoDup (map fst l) ->
  rhs_loop op l m = Done m' ->
  (forall k, is_Some (m !! k) -> m' !! k = m !! k)
  /\ (forall k v, (k, v) ∈ l -> m !! k = None ->
       exists x, eval op (VFloat Float64.zero) v = Done x /\ m' !! k = Some x)
  /\ (forall k, k ∉ map fst l -> m' !! k = m !! k).
Proof.
  unfold rhs_loop.
  induction l as [|[k0 v0] l IH]; intros m m' Hnd Hrun; cbn [ofoldl] in Hrun.
  - injection Hrun as <-. repeat split; auto. intros k v Hin; inversion Hin.
  - cbn [map fst] in Hnd. apply NoDup_cons in Hnd as [Hk0 Hnd].
    simpl in Hrun. destruct (m !! k0) as [x0|] eqn:Em.
    + simpl in Hrun. destruct (IH _ _ Hnd Hrun) as (Hkeep & Hnew & Hout).
      repeat split.
      * exact Hkeep.
      * intros k v Hkv Hk. apply elem_of_cons in Hkv as [[= -> ->]|Hkv];
          [congruence | now apply Hnew].
      * intros k Hk. cbn [map fst] in Hk.
        apply not_elem_of_cons in Hk as [_ Hk]. now apply Hout.
    + destruct (eval op (VFloat Float64.zero) v0) as [r0|p] eqn:E0;
        [|discriminate]. simpl in Hrun.
      destruct (IH _ _ Hnd Hrun) as (Hkeep & Hnew & Hout).
      repeat split.
      * intros k Hk. rewrite Hkeep.
        -- apply lookup_insert_ne. intros <-. rewrite Em in Hk. now destruct Hk.
        -- rewrite lookup_insert_ne; [exact Hk|].
           intros <-. rewrite Em in Hk. now destruct Hk.
      * intros k v Hkv Hk. apply elem_of_cons in Hkv as [[= -> ->]|Hkv].
        -- exists r0. split; [exact E0|].
           rewrite (Hout k0 Hk0). apply lookup_insert_eq.
        -- apply Hnew; [exact Hkv|].
           rewrite lookup_insert_ne; [exact Hk|].
           intros <-. apply Hk0. apply list_elem_of_fmap. now exists (k0, v).
      * intros k Hk. cbn [map fst] in Hk. apply not_elem_of_cons in Hk as [Hne Hk].
        rewrite (Hout k Hk). now rewrite lookup_insert_ne.
Qed.

(** What the batch sent holds when the round does not panic: for a key
    of the left batch [op(L[k], R[k])], for a key of the right batch
    alone [op(0, R[k])], and nothing else. *)
Lemma merge_spec op (lhs rhs m : gmap Key Value) :
  merge op lhs rhs = Done m ->
  (forall k l, lhs !! k = Some l ->
     exists r, eval op l (default VNil (rhs !! k)) = Done r /\ m !! k = Some r)
  /\ (forall k r, lhs !! k = None -> rhs !! k = Some r ->
       exists x, eval op (VFloat Float64.zero) r = Done x /\ m !! k = Some x)
  /\ (forall k, lhs !! k = None -> rhs !! k = None -> m !! k = None).
Proof.
  unfold merge. intros Hrun.
  destruct (lhs_loop op rhs (map_to_list lhs) ∅) as [m1|p] eqn:E1;
    [|discriminate]. simpl in Hrun.
  destruct (lhs_loop_spec _ _ _ _ _ (NoDup_fst_map_to_list lhs) E1) as [Hl1 Hl2].
  destruct (rhs_loop_spec _ _ _ _ (NoDup_fst_map_to_list rhs) Hrun)
    as (Hkeep & Hnew & Hout).
  assert (Hnot : forall (mm : gmap Key Value) k,
             mm !! k = None -> k ∉ map fst (map_to_list mm)).
  { intros mm k Hk Hin. apply list_elem_of_fmap in Hin as ([k' v] & -> & Hin).
    apply elem_of_map_to_list in Hin. simpl in Hk. congruence. }
  repeat split.
  - intros k l Hk. apply elem_of_map_to_list in Hk.
    destruct (Hl1 k l Hk) as (r & Hr & Hm1). exists r. split; [exact Hr|].
    rewrite Hkeep; [exact Hm1 | rewrite Hm1; eauto].
  - intros k r Hlk Hrk.
    assert (Hm1 : m1 !! k = None).
    { rewrite (Hl2 k (Hnot lhs k Hlk)). apply lookup_empty. }
    apply elem_of_map_to_list in Hrk. now apply Hnew.
  - intros k Hlk Hrk.
    rewrite (Hout k (Hnot rhs k Hrk)), (Hl2 k (Hnot lhs k Hlk)).
    apply lookup_empty.
Qed.

End binaryExprFacts.

(** C1. A key of the left batch that is absent from the right batch does
    not get 0 substituted: the round panics. So it is for [sum(v) / 2]
    grouped by time, where the reducer sends the key (10, "a") and the
    literal its value under the zero key. *)
Theorem binary_run_missing_rhs_key :
  binaryExprEvaluatorRun.merge DIV
    {[ mkKey 10 "a" := VFloat 6%float ]} {[ zeroKey := VFloat 2%float ]}
  = Panicked InterfaceConversion
  /\ binaryExprEvaluatorRun.run DIV
       [{[ mkKey 10 "a" := VFloat 6%float ]}] [{[ zeroKey := VFloat 2%float ]}]
     = ([], Panicked InterfaceConversion)
  /\ binaryExprEvaluatorRun.merge DIV
       {[ zeroKey := VFloat 6%float ]} {[ zeroKey := VFloat 2%float ]}
     = Done {[ zeroKey := VFloat 3%float ]}.
Proof.
  repeat split; vm_compute; reflexivity.
Qed.

(** ** Rows and their order *)

Module RowsFacts.

Import Rows RowsSpec.

Lemma Less_false_iff ri rj : Less rj ri = false <-> le_name_hash ri rj.
Proof.
  unfold Less, le_name_hash.
  destruct (String.eqb_spec (Name rj) (Name ri)) as [Heq|Hne]; cbn [negb].
  - rewrite Heq, StringOrder.ltb_irrefl, Z.ltb_ge. intuition.
  - split; [intros H; split; [exact H | congruence] | tauto].
Qed.

Lemma Less_asym ri rj : Less ri rj = true -> Less rj ri = false.
Proof.
  unfold Less.
  destruct (String.eqb_spec (Name ri) (Name rj)) as [Heq|Hne]; cbn [negb].
  - rewrite Heq, String.eqb_refl. cbn [negb]. rewrite Z.ltb_lt, Z.ltb_ge. lia.
  - intros H. destruct (String.eqb_spec (Name rj) (Name ri)) as [Heq'|_];
      [congruence|]. cbn [negb]. now apply StringOrder.ltb_asym.
Qed.

Lemma le_name_hash_trans r1 r2 r3 :
  le_name_hash r1 r2 -> le_name_hash r2 r3 -> le_name_hash r1 r3.
Proof.
  intros [H12 G12] [H23 G23]. split.
  - exact (StringOrder.not_ltb_trans _ _ _ H12 H23).
  - intros Heq. rewrite <- Heq in H23.
    pose proof (StringOrder.ltb_connex _ _ H23 H12) as E12.
    specialize (G12 E12). rewrite E12 in Heq. specialize (G23 Heq). lia.
Qed.

Lemma StronglySorted_weaken {A} (R R' : A -> A -> Prop) (l : list A) :
  (forall x y, R x y -> R' x y) -> StronglySorted R l -> StronglySorted R' l.
Proof.
  intros HR. induction 1 as [|a l Hl IH Ha]; constructor; [exact IH|].
  eapply Forall_impl; [exact Ha|]. intros y. apply HR.
Qed.

Lemma sort_by_Less_sorted (a : list Row) :
  StronglySorted le_name_hash (sort_by Less a).
Proof.
  pose proof (sort_by_sorted Less Less_asym) as H.
  assert (Htrans : forall x y z : Row,
             not_after Less x y -> not_after Less y z -> not_after Less x z).
  { unfold not_after. intros x y z. rewrite !Less_false_iff.
    apply le_name_hash_trans. }
  specialize (H Htrans a).
  eapply StronglySorted_weaken; [|exact H].
  intros x y. unfold not_after. apply Less_false_iff.
Qed.

Lemma StronglySorted_lookup {A} (R : A -> A -> Prop) (l : list A) :
  StronglySorted R l ->
  forall (i j : nat) x y, (i < j)%nat -> l !! i = Some x -> l !! j = Some y -> R x y.
Proof.
  induction 1 as [|a l Hl IH Ha]; intros i j x y Hij Hi Hj; [discriminate|].
  destruct j as [|j]; [lia|]. simpl in Hj.
  destruct i as [|i]; simpl in Hi.
  - injection Hi as <-. rewrite Forall_forall in Ha. apply Ha.
    eapply list_elem_of_lookup_2. exact Hj.
  - apply (IH i j); [lia | exact Hi | exact Hj].
Qed.

Lemma normalize_row_Done row :
  timestamped row -> exists r, ExecutorSend.normalize_row row = Done r.
Proof.
  unfold timestamped, ExecutorSend.normalize_row. intros Hl.
  assert (G : forall l acc,
            Forall (fun values => exists n rest, values = VInt n :: rest) l ->
            exists vs, ofoldl (fun acc values =>
                                 v ← ExecutorSend.normalize_values values;
                                 Done (acc ++ [v])) l acc = Done vs).
  { induction l as [|values l IH]; intros acc Hall; cbn [ofoldl].
    - eexists. reflexivity.
    - inversion Hall as [|? ? (n & rest & ->) Hall']; subst.
      cbn [ExecutorSend.normalize_values mbind outcome_bind obind].
      apply IH. exact Hall'. }
  destruct (G _ [] Hl) as [vs ->]. eexists. reflexivity.
Qed.

(** On timestamped rows the normalisation does not panic, and every row
    is sent. *)
Lemma send_Done (rows : gmap string Row) :
  map_Forall (fun _ row => timestamped row) rows ->
  exists out, ExecutorSend.send rows = Done out /\ length out = size rows.
Proof.
  intros Hrows. unfold ExecutorSend.send.
  assert (Hl : Forall timestamped (map snd (map_to_list rows))).
  { apply Forall_forall. intros row Hin.
    apply list_elem_of_fmap in Hin as ([k r] & -> & Hin).
    apply elem_of_map_to_list in Hin. exact (Hrows k r Hin). }
  assert (G : forall l acc, Forall timestamped l ->
            exists a, ofoldl (fun a row => r ← ExecutorSend.normalize_row row;
                                           Done (a ++ [r])) l acc = Done a
                      /\ length a = (length acc + length l)%nat).
  { induction l as [|row l IH]; intros acc Hall; cbn [ofoldl].
    - exists acc. split; [reflexivity | simpl; lia].
    - inversion Hall as [|? ? Hrow Hall']; subst.
      destruct (normalize_row_Done row Hrow) as [r ->].
      cbn [mbind outcome_bind obind].
      destruct (IH (acc ++ [r]) Hall') as (a & -> & Ha).
      exists a. split; [reflexivity|]. rewrite length_app in Ha. simpl in *. lia. }
  destruct (G _ [] Hl) as (a & -> & Ha). cbn [mbind outcome_bind obind].
  eexists. split; [reflexivity|].
  rewrite (Permutation_length (sort_by_perm Less a)), Ha.
  rewrite length_map, length_map_to_list. reflexivity.
Qed.

Lemma leb_of_not_ltb s1 s2 : String.ltb s2 s1 = false -> String.leb s1 s2 = true.
Proof.
  unfold String.ltb, String.leb. rewrite (String.compare_antisym s1 s2).
  destruct (String.compare s2 s1); simpl; congruence.
Qed.

End RowsFacts.

(** C8. The rows are sent sorted by (name, tags hash): of two rows sent,
    the earlier one has the smaller or equal name, and with equal names
    the smaller or equal hash. *)
Theorem rows_sent_in_order (rows : gmap string Row) (out : list Row) :
  ExecutorSend.send rows = Done out ->
  forall (i j : nat) (ri rj : Row),
    (i < j)%nat -> out !! i = Some ri -> out !! j = Some rj ->
    String.leb (Name ri) (Name rj) = true /\
    (Name ri = Name rj -> Rows.tagsHash ri <= Rows.tagsHash rj).
Proof.
  unfold ExecutorSend.send. intros Hsend i j ri rj Hij Hi Hj.
  destruct (ofoldl _ _ _) as [a|p]; [|discriminate].
  simpl in Hsend. injection Hsend as <-.
  destruct (RowsFacts.StronglySorted_lookup _ _ (RowsFacts.sort_by_Less_sorted a)
              i j ri rj Hij Hi Hj) as [Hname Hhash].
  split; [now apply RowsFacts.leb_of_not_ltb | exact Hhash].
Qed.

Lemma rows_sent_in_order_witness :
  String.leb (Name (row_sent 0)) (Name (row_sent 1)) = true /\
  (Name (row_sent 0) = Name (row_sent 1) ->
   Rows.tagsHash (row_sent 0) <= Rows.tagsHash (row_sent 1)).
Proof.
  apply (rows_sent_in_order two_rows two_rows_sent ltac:(vm_compute; reflexivity)
           0%nat 1%nat (row_sent 0) (row_sent 1)); [lia | reflexivity | reflexivity].
Defined.

(** ** The planner *)

Module PlannerFacts.

Import Planner.

Section WithExternals.
Context {X : Externals}.

(** The arity check comes first. *)
Lemma planCall_arity (e : Executor X) name args :
  name <> "percentile"%string -> len args <> 1 ->
  planCall e name args = Failed (ErrOneArgument name).
Proof.
  intros Hname Hlen. unfold planCall.
  destruct (String.eqb_spec name "percentile") as [|_]; [contradiction|].
  Zb_false (len args =? 1). reflexivity.
Qed.

(** The only [Failed (ErrFunctionNotFound _)] of [lookup] is its default
    case. *)
Lemma lookup_not_found name args n :
  lookup (X := X) name args = Failed (ErrFunctionNotFound n) -> n = name.
Proof.
  unfold lookup.
  repeat match goal with
         | |- context [String.eqb (ToLower X ?x) ?s] =>
             destruct (String.eqb (ToLower X x) s)
         end; try discriminate.
  - destruct (nth_error args 1) as [[]|]; discriminate.
  - now intros [= <-].
Qed.

(** Where [planCall] returns "function not found". *)
Lemma planCall_not_found (e : Executor X) name args n :
  planCall e name args = Failed (ErrFunctionNotFound n) ->
  n = name
  /\ len args = (if String.eqb name "percentile" then 2 else 1)
  /\ exists ref, nth_error args 0 = Some (VarRef ref).
Proof.
  unfold planCall.
  destruct (String.eqb name "percentile");
    [destruct (Z.eqb_spec (len args) 2) as [Hl|Hl]
    |destruct (Z.eqb_spec (len args) 1) as [Hl|Hl]];
    cbn [negb andb]; try discriminate.
  all: destruct (nth_error args 0) as [[ref| | | | | | | |]|]; try discriminate.
  all: destruct (Substatement X (stmt e) ref) as [sub|msg]; try discriminate.
  all: destruct (CreateIterators X sub) as [itrs|msg]; try discriminate.
  all: destruct (lookup name args) as [fns|err|p] eqn:El;
    [destruct (measurementName X sub); discriminate | | discriminate].
  all: intros [= ->]; apply lookup_not_found in El; repeat split; eauto.
Qed.

(** An error at a place that planning reaches is the error of the field,
    with its prefixes. *)
Lemma planExpr_at (e : Executor X) (p : PlannerSpec.Place) (c : Expr) err :
  PlannerSpec.reached e p = true ->
  planExpr e c = Failed err ->
  planExpr e (PlannerSpec.field_with p c) = Failed (PlannerSpec.prefixed p err).
Proof.
  intros Hp Hc. induction p as [|p IH|op p IH rhs|op lhs p IH];
    cbn [PlannerSpec.field_with PlannerSpec.prefixed PlannerSpec.reached planExpr] in *.
  - exact Hc.
  - now apply IH.
  - now rewrite (IH Hp).
  - apply andb_prop in Hp as [Hl Hp]. unfold PlannerSpec.plans in Hl.
    destruct (planExpr e lhs); try discriminate. now rewrite (IH Hp).
Qed.

(** The loop over the fields returns the error of the first field that
    has one. *)
Lemma planFields_at (e : Executor X) (before : list Expr) f rest err :
  forallb (PlannerSpec.plans e) before = true ->
  planExpr e f = Failed err ->
  planFields e (before ++ f :: rest) = Failed err.
Proof.
  intros Hb Hf. induction before as [|b before IH]; cbn [app planFields].
  - now rewrite Hf.
  - cbn [forallb] in Hb. apply andb_prop in Hb as [Hb1 Hb2].
    unfold PlannerSpec.plans in Hb1.
    destruct (planExpr e b); try discriminate. now rewrite (IH Hb2).
Qed.

(** A variable reference is not planned as a field of an aggregate query,
    and no field with a call at one of its places is one. *)
Lemma field_with_Call p name args v :
  PlannerSpec.field_with p (Call name args) <> VarRef v.
Proof. destruct p; discriminate. Qed.

(** The arity error through [Plan]: when the transaction begins, the
    dimensions normalize, the fields before the one with the call are
    planned and planning gets to the call, [Plan] returns it. *)
Lemma Plan_arity_error (statement : Statement X) name args before p rest
    interval tags :
  Begin X = None ->
  Normalize X (prepare X statement) = inl (interval, tags) ->
  Fields X (prepare X statement)
  = before ++ PlannerSpec.field_with p (Call name args) :: rest ->
  forallb (PlannerSpec.plans (mkExecutor (prepare X statement) interval tags))
          before = true ->
  PlannerSpec.reached (mkExecutor (prepare X statement) interval tags) p = true ->
  name <> "percentile"%string -> len args <> 1 ->
  Plan statement = Failed (PlannerSpec.prefixed p (ErrOneArgument name)).
Proof.
  intros HB HN HF Hbefore Hp Hname Hlen. unfold Plan. rewrite HB, HN, HF.
  set (e := mkExecutor (prepare X statement) interval tags) in *.
  assert (Hfields : planFields e
                      (before ++ PlannerSpec.field_with p (Call name args) :: rest)
                    = Failed (PlannerSpec.prefixed p (ErrOneArgument name))).
  { apply planFields_at; [exact Hbefore|].
    apply planExpr_at; [exact Hp|]. cbn [planExpr]. now apply planCall_arity. }
  destruct before as [|b before]; cbn [app] in *.
  - destruct (PlannerSpec.field_with p (Call name args)) as [v| | | | | | | |] eqn:Ef;
      try exact Hfields.
    now apply field_with_Call in Ef.
  - destruct b as [v| | | | | | | |]; try exact Hfields.
    cbn [forallb] in Hbefore. unfold PlannerSpec.plans at 1 in Hbefore.
    cbn [planExpr] in Hbefore. discriminate.
Qed.

End WithExternals.

End PlannerFacts.

(** C10. In [planCall] the number of arguments is checked before the
    name is looked up: a call whose name is not "percentile" and that
    does not have exactly one argument gets the arity error, known name
    or not. [Plan] returns that error for the first such call that
    planning gets to: the transaction begins, the dimensions normalize,
    the fields before the one with the call are planned without an error,
    and within its field the call is the field, stands in parentheses or
    is an operand of a binary expression whose operands to the left are
    planned; every binary expression around the call puts "lhs: " or
    "rhs: " in front of the error. And "function not found" is only
    returned for a call that passed the arity check and whose first
    argument is a variable reference. *)
Theorem planCall_arity_before_lookup
    (X : Externals) (e : Executor X) (name : string) (args : list Expr) :
  (name <> "percentile"%string -> len args <> 1 ->
   Planner.planCall e name args = Failed (ErrOneArgument name)
   /\ forall (statement : Statement X) before p rest interval tags,
        Begin X = None ->
        Normalize X (prepare X statement) = inl (interval, tags) ->
        Fields X (prepare X statement)
        = before ++ PlannerSpec.field_with p (Call name args) :: rest ->
        forallb (PlannerSpec.plans (mkExecutor (prepare X statement) interval tags))
                before = true ->
        PlannerSpec.reached (mkExecutor (prepare X statement) interval tags) p = true ->
        Planner.Plan statement
        = Failed (PlannerSpec.prefixed p (ErrOneArgument name)))
  /\ (forall n, Planner.planCall e name args = Failed (ErrFunctionNotFound n) ->
      n = name
      /\ len args = (if String.eqb name "percentile" then 2 else 1)
      /\ exists ref, nth_error args 0 = Some (VarRef ref)).
Proof.
  split.
  - intros Hname Hlen. split.
    + now apply PlannerFacts.planCall_arity.
    + intros statement before p rest interval tags HB HN HF Hbefore Hp.
      now apply (PlannerFacts.Plan_arity_error statement name args before p rest
                   interval tags).
  - intros n. apply PlannerFacts.planCall_not_found.
Qed.

Lemma planCall_arity_before_lookup_witness :
  Planner.planCall (demo_executor []) "bogus" [] = Failed (ErrOneArgument "bogus")
  /\ Planner.Plan (X := demo) [Call "bogus" []] = Failed (ErrOneArgument "bogus")
  /\ Planner.Plan (X := demo)
       [Call "count" [VarRef "v"];
        BinaryExpr ADD (NumberLiteral 1) (ParenExpr (Call "bogus" []));
        VarRef "w"]
     = Failed (ErrRhs (ErrOneArgument "bogus"))
  /\ ("bogus"%string = "bogus"%string
      /\ len [VarRef "v"] = (if String.eqb "bogus" "percentile" then 2 else 1)
      /\ exists ref, nth_error [VarRef "v"] 0 = Some (VarRef ref)).
Proof.
  destruct (planCall_arity_before_lookup demo (demo_executor []) "bogus" [])
    as [Harity _].
  destruct Harity as [Hcall HPlan]; [discriminate | vm_compute; discriminate |].
  split; [exact Hcall|]. split; [|split].
  - apply (HPlan [Call "bogus" []] [] PlannerSpec.Here [] 0 []); reflexivity.
  - apply (HPlan [Call "count" [VarRef "v"];
                  BinaryExpr ADD (NumberLiteral 1) (ParenExpr (Call "bogus" []));
                  VarRef "w"]
                 [Call "count" [VarRef "v"]]
                 (PlannerSpec.InRhs ADD (NumberLiteral 1)
                    (PlannerSpec.InParen PlannerSpec.Here))
                 [VarRef "w"] 0 []); reflexivity.
  - apply (planCall_arity_before_lookup demo (demo_executor [])
             "bogus" [VarRef "v"]).
    reflexivity.
Defined.

(** C10 as stated fails on the code: [Plan] does not return the arity
    error for every such call. When the first field is a variable
    reference the statement is planned as a raw query and the other
    fields are not looked at, so a call without arguments after it gives
    no error; a field before the call that fails gives its own error,
    here "function not found"; and for a call that is an operand of a
    binary expression the error comes back as another one, with "lhs: "
    in front. *)
Lemma Plan_arity_counterexample :
  Planner.Plan (X := demo) [VarRef "x"; Call "bogus" []]
  = Planned [ReducerProcessor "cpu" AggRawQuery [mkIterator [] ""] 0 true]
  /\ Planner.Plan (X := demo) [Call "bogus" [VarRef "v"]; Call "bogus" []]
     = Failed (ErrFunctionNotFound "bogus")
  /\ Planner.Plan (X := demo) [BinaryExpr ADD (Call "bogus" []) (NumberLiteral 1)]
     = Failed (ErrLhs (ErrOneArgument "bogus"))
  /\ ErrLhs (ErrOneArgument "bogus") <> ErrOneArgument "bogus".
Proof. repeat split; discriminate. Qed.

(** A known function with two arguments is refused for its arity too. *)
Example Plan_count_two_arguments :
  Planner.Plan (X := demo) [Call "count" [VarRef "v"; VarRef "w"]]
  = Failed (ErrOneArgument "count").
Proof. reflexivity. Qed.

(** A name that only differs from "percentile" by its case passes the
    arity check with one argument and then indexes a second one. *)
Example planCall_upper_case_percentile :
  Planner.planCall (demo_executor []) "PERCENTILE" [VarRef "v"]
  = Crashed IndexOutOfRange.
Proof. reflexivity. Qed.

(** * More properties of the engine *)

(** ** The tagset codec *)

Module CodecFacts.

Import Tagset TagsetFacts.

Lemma MarshalStrings_app (a b : list string) :
  MarshalStrings (a ++ b) = MarshalStrings a ++ MarshalStrings b.
Proof.
  unfold MarshalStrings. rewrite fold_left_app.
  apply MarshalStrings_app_acc.
Qed.

Lemma length_MarshalStrings (a : list string) :
  Z.of_nat (length (MarshalStrings a)) = fold_right (fun s n => 2 + len s + n) 0 a.
Proof.
  induction a as [|s a IH]; [reflexivity|].
  rewrite MarshalStrings_cons, length_app, length_segment. cbn [fold_right].
  unfold len in *. lia.
Qed.

End CodecFacts.

(** X1. [MarshalStrings] encodes a list segment by segment: the encoding
    of [a ++ b] is the encoding of [a] followed by that of [b], and the
    encoding takes two bytes more than each string, whatever the length
    of the strings. *)
Theorem MarshalStrings_concat (a b : list string) :
  Tagset.MarshalStrings (a ++ b) = Tagset.MarshalStrings a ++ Tagset.MarshalStrings b
  /\ Z.of_nat (length (Tagset.MarshalStrings a))
     = fold_right (fun s n => 2 + Tagset.len s + n) 0 a.
Proof.
  split; [apply CodecFacts.MarshalStrings_app | apply CodecFacts.length_MarshalStrings].
Qed.

(** X2. On strings of at most 65533 bytes the decoder inverts the
    encoder, also on two encodings put end to end; so two lists of such
    strings with the same encoding are the same list. *)
Theorem UnmarshalStrings_inverts_MarshalStrings (a : list string) :
  Forall (fun s => Tagset.len s <= 65533) a ->
  Tagset.UnmarshalStrings (Tagset.MarshalStrings a) = Done a
  /\ (forall b, Forall (fun s => Tagset.len s <= 65533) b ->
        Tagset.UnmarshalStrings (Tagset.MarshalStrings a ++ Tagset.MarshalStrings b)
        = Done (a ++ b))
  /\ (forall b, Forall (fun s => Tagset.len s <= 65533) b ->
        Tagset.MarshalStrings a = Tagset.MarshalStrings b -> a = b).
Proof.
  intros Ha. split; [now apply TagsetFacts.Unmarshal_Marshal_upto_65533|]. split.
  - intros b Hb. rewrite <- CodecFacts.MarshalStrings_app.
    apply TagsetFacts.Unmarshal_Marshal_upto_65533. now apply Forall_app.
  - intros b Hb Heq.
    pose proof (TagsetFacts.Unmarshal_Marshal_upto_65533 a Ha) as E1.
    pose proof (TagsetFacts.Unmarshal_Marshal_upto_65533 b Hb) as E2.
    rewrite Heq in E1. congruence.
Qed.

Lemma UnmarshalStrings_inverts_MarshalStrings_witness :
  Tagset.UnmarshalStrings (Tagset.MarshalStrings ["us-east"; ""; "server01"]%string)
    = Done ["us-east"; ""; "server01"]%string
  /\ (forall b, Forall (fun s => Tagset.len s <= 65533) b ->
        Tagset.UnmarshalStrings
          (Tagset.MarshalStrings ["us-east"; ""; "server01"]%string
           ++ Tagset.MarshalStrings b)
        = Done (["us-east"; ""; "server01"]%string ++ b))
  /\ (forall b, Forall (fun s => Tagset.len s <= 65533) b ->
        Tagset.MarshalStrings ["us-east"; ""; "server01"]%string
        = Tagset.MarshalStrings b ->
        ["us-east"; ""; "server01"]%string = b).
Proof.
  apply (UnmarshalStrings_inverts_MarshalStrings ["us-east"; ""; "server01"]%string).
  repeat constructor; vm_compute; discriminate.
Defined.

(** ** The buffered iterator *)

(** X3. [Peek] does not move the iterator forward: the [Next] after a
    [Peek] returns what [Next] would have returned without it and leaves
    the iterator in the same state, and a second [Peek] changes nothing. *)
Theorem Peek_does_not_consume (i : bufIterator) :
  BufIterator.Next (snd (BufIterator.Peek i)) = BufIterator.Next i
  /\ BufIterator.Peek (snd (BufIterator.Peek i)) = BufIterator.Peek i
  /\ fst (BufIterator.Peek i) = fst (BufIterator.Next i).
Proof.
  destruct i as [[l tg] T p bu]. unfold BufIterator.Peek.
  destruct bu; [|destruct l as [|q l]].
  - rewrite MapperFacts.Next_buffered.
    destruct (negb (T =? 0) && (key p >? T)) eqn:E; cbn [snd fst itr tmax buf];
      rewrite !MapperFacts.Next_buffered, E; auto.
  - rewrite MapperFacts.Next_nil.
    destruct (negb (T =? 0) && (0 >? T)) eqn:E; cbn [snd fst itr tmax buf];
      rewrite !MapperFacts.Next_buffered; cbn [key noPoint]; rewrite E; auto.
  - rewrite MapperFacts.Next_cons.
    destruct (negb (T =? 0) && (key q >? T)) eqn:E; cbn [snd fst itr tmax buf];
      rewrite !MapperFacts.Next_buffered, E; auto.
Qed.

(** X4. The upper bound of [Next]: with [tmax] set, [Next] returns the
    end-of-window sentinel or a point whose key is at most [tmax]; and a
    point it holds back is not lost, for it is what [Next] returns once
    [tmax] is cleared or raised to the key of that point. *)
Theorem Next_upper_bound (i : bufIterator) :
  (tmax i <> 0 ->
   fst (BufIterator.Next i) = noPoint \/ key (fst (BufIterator.Next i)) <= tmax i)
  /\ (forall T,
        buffered (snd (BufIterator.Next i)) = true ->
        T = 0 \/ key (buf (snd (BufIterator.Next i))) <= T ->
        fst (BufIterator.Next (MapperRun.set_tmax (snd (BufIterator.Next i)) T))
        = buf (snd (BufIterator.Next i))
        /\ itr (snd (BufIterator.Next (MapperRun.set_tmax (snd (BufIterator.Next i)) T)))
           = itr (snd (BufIterator.Next i))).
Proof.
  assert (G1 : forall (it : Iterator) T p,
             T <> 0 ->
             fst (if negb (T =? 0) && (key p >? T)
                  then (noPoint, mkBufIterator it T p true)
                  else (p, mkBufIterator it T p false)) = noPoint
             \/ key (fst (if negb (T =? 0) && (key p >? T)
                          then (noPoint, mkBufIterator it T p true)
                          else (p, mkBufIterator it T p false))) <= T).
  { intros it T p HT. destruct (negb (T =? 0) && (key p >? T)) eqn:E; [now left|].
    right. cbn [fst]. apply andb_false_iff in E as [E|E].
    - apply negb_false_iff, Z.eqb_eq in E. contradiction.
    - rewrite Z.gtb_ltb in E. apply Z.ltb_ge in E. exact E. }
  assert (G2 : forall (it : Iterator) T' p,
             T' = 0 \/ key p <= T' ->
             BufIterator.Next (mkBufIterator it T' p true)
             = (p, mkBufIterator it T' p false)).
  { intros it T' p HT'. rewrite MapperFacts.Next_buffered.
    replace (negb (T' =? 0) && (key p >? T')) with false; [reflexivity|].
    symmetry. apply andb_false_iff. destruct HT' as [-> | HT']; [now left|].
    right. rewrite Z.gtb_ltb. apply Z.ltb_ge. exact HT'. }
  destruct i as [[l tg] T p bu]. cbn [tmax].
  destruct bu; [|destruct l as [|q l]].
  - rewrite MapperFacts.Next_buffered. split; [apply G1|].
    intros T' Hb HT'.
    destruct (negb (T =? 0) && (key p >? T)); [|discriminate].
    cbn [snd buf itr] in *. unfold MapperRun.set_tmax. cbn [itr buf buffered].
    rewrite (G2 _ T' _ HT'). split; reflexivity.
  - rewrite MapperFacts.Next_nil. split.
    + intros _. destruct (negb (T =? 0) && (0 >? T)); now left.
    + intros T' Hb HT'.
      destruct (negb (T =? 0) && (0 >? T)); [|discriminate].
      cbn [snd buf itr] in *. unfold MapperRun.set_tmax. cbn [itr buf buffered].
      rewrite (G2 _ T' _ HT'). split; reflexivity.
  - rewrite MapperFacts.Next_cons. split; [apply G1|].
    intros T' Hb HT'.
    destruct (negb (T =? 0) && (key q >? T)); [|discriminate].
    cbn [snd buf itr] in *. unfold MapperRun.set_tmax. cbn [itr buf buffered].
    rewrite (G2 _ T' _ HT'). split; reflexivity.
Qed.

Lemma Next_upper_bound_witness :
  fst (BufIterator.Next (mkBufIterator (mkIterator [mkPoint 15 [] VNil] "") 9 noPoint false))
    = noPoint
  /\ fst (BufIterator.Next
            (MapperRun.set_tmax
               (snd (BufIterator.Next
                       (mkBufIterator (mkIterator [mkPoint 15 [] VNil] "") 9 noPoint false)))
               19))
     = mkPoint 15 [] VNil.
Proof.
  destruct (Next_upper_bound
              (mkBufIterator (mkIterator [mkPoint 15 [] VNil] "") 9 noPoint false))
    as [Hbound Hkept].
  split; [reflexivity|].
  apply (Hkept 19); [reflexivity | right; vm_compute; discriminate].
Defined.

(** ** The Mapper *)

Module MapperWindows.

Import BufIterator MapperRun MapperSpec MapperFacts.

(** Without an upper bound the loop of a map function draws every point
    up to the end of the stream. *)
Lemma drain_loop_unbounded l : forall fuel tg p,
  Forall (fun q => key q <> 0) l ->
  (length l <= fuel)%nat ->
  drain_loop fuel (mkBufIterator (mkIterator l tg) 0 p false)
  = (l, mkBufIterator (mkIterator [] tg) 0 noPoint false).
Proof.
  induction l as [|q l IH]; intros fuel tg p Hl Hfuel.
  - rewrite drain_loop_eq, Next_nil. reflexivity.
  - inversion Hl as [|? ? Hq Hl']; subst.
    destruct fuel as [|fuel]; [simpl in Hfuel; lia|].
    rewrite drain_loop_eq, Next_cons. cbn [Z.eqb negb andb].
    Zb_false (key q =? 0).
    rewrite IH by (try assumption; simpl in Hfuel; lia). reflexivity.
Qed.

(** The window starts of the calls: each one interval after the other. *)
Lemma run_loop_starts interval :
  0 < interval <= Int64.max_int ->
  forall fuel b tmin acc,
    loaded interval tmin b \/ ended b ->
    exists ext fin,
      run_loop fuel record_call interval b acc tmin = (acc ++ ext, Done fin)
      /\ forall (k : nat) c, ext !! k = Some c -> fst c = tmin + interval * Z.of_nat k.
Proof.
  intros HI. induction fuel as [|fuel IH]; intros b tmin acc Hinv.
  - exists [], false. rewrite app_nil_r. split; [reflexivity|]. intros k c H. discriminate.
  - cbn [run_loop]. Zb_true (interval >? 0).
    destruct Hinv as [Hl | He].
    + destruct (tmax_no_overflow interval tmin b HI Hl) as [-> ->].
      rewrite (EOF_loaded interval tmin b _ Hl).
      destruct (drain_loaded interval tmin b (proj1 HI) Hl) as (_ & Hnext & _).
      destruct (drain (set_tmax b (tmin + interval - 1))) as [ps b3].
      simpl in Hnext. rewrite record_call_eq.
      destruct (IH b3 (tmin + interval) (acc ++ [(tmin, ps)]) Hnext)
        as (ext & fin & Hrun & Hext).
      exists ((tmin, ps) :: ext), fin. rewrite Hrun, <- app_assoc.
      split; [reflexivity|].
      intros [|k] c Hk; simpl in Hk.
      * injection Hk as <-. simpl. lia.
      * rewrite (Hext k c Hk). lia.
    + destruct (EOF_ended b (Int64.sub (Int64.add tmin interval) 1) He) as [b' ->].
      exists [], true. rewrite app_nil_r. split; [reflexivity|].
      intros k c H. discriminate.
Qed.

Lemma aligned_rem a interval k :
  0 < interval -> Z.rem (a - Z.rem a interval + interval * k) interval = 0.
Proof.
  intros HI. pose proof (Z.quot_rem' a interval) as E.
  replace (a - Z.rem a interval + interval * k) with ((a ÷ interval + k) * interval) by lia.
  apply Z.rem_mul. lia.
Qed.

End MapperWindows.

(** X5. Without a grouping interval (an interval of 0, or below) a
    Mapper over a stream of points with non-zero keys calls its map
    function once, with window start 0 and all the points of the stream;
    over the empty stream it does not call it at all. *)
Theorem mapper_without_interval (ival : Z) (pts : list Point) (tg : string) (fuel : nat) :
  ival <= 0 ->
  Forall (fun p => key p <> 0) pts ->
  (2 <= fuel)%nat ->
  MapperRun.calls fuel ival (mkIterator pts tg)
  = (match pts with [] => [] | _ :: _ => [(0, pts)] end, Done true).
Proof.
  intros HI Hpts Hfuel.
  unfold MapperRun.calls, MapperRun.run, MapperRun.start. cbn [interval mitr fn].
  Zb_false (ival >? 0).
  destruct fuel as [|[|fuel]]; try lia.
  cbn [MapperRun.run_loop]. Zb_false (ival >? 0).
  unfold BufIterator.EOF, BufIterator.Peek.
  destruct pts as [|p0 rest].
  - rewrite MapperFacts.Next_nil. reflexivity.
  - inversion Hpts as [|? ? Hp0 Hrest]; subst.
    rewrite MapperFacts.Next_cons. cbn [Z.eqb negb andb itr tmax buf].
    Zb_false (key p0 =? 0).
    unfold BufIterator.drain. cbn [itr points].
    rewrite MapperFacts.drain_loop_eq, MapperFacts.Next_buffered.
    cbn [Z.eqb negb andb]. Zb_false (key p0 =? 0).
    rewrite MapperWindows.drain_loop_unbounded by (try assumption; lia).
    rewrite MapperFacts.record_call_eq.
    rewrite MapperFacts.Next_nil. reflexivity.
Qed.

Lemma mapper_without_interval_witness :
  MapperRun.calls 2 0 (mkIterator [mkPoint 5 [] VNil; mkPoint (-3) [] VNil; mkPoint 5 [] VNil] "a")
  = ([(0, [mkPoint 5 [] VNil; mkPoint (-3) [] VNil; mkPoint 5 [] VNil])], Done true).
Proof.
  apply (mapper_without_interval 0
           [mkPoint 5 [] VNil; mkPoint (-3) [] VNil; mkPoint 5 [] VNil] "a" 2%nat).
  - lia.
  - repeat constructor; simpl; lia.
  - lia.
Defined.

(** X6. The window starts of a Mapper with interval [I > 0] over a stream
    of positive, non-decreasing timestamps (each at most [2^63 - 1 - I]):
    the call number [k] has window start [t0 + k * I], where [t0] is the
    first timestamp aligned down to a multiple of [I]; so every window
    start is a multiple of [I], and the starts increase strictly. *)
Theorem mapper_window_starts (ival : Z) (pts : list Point) (tg : string) (fuel : nat) :
  0 < ival <= Int64.max_int ->
  MapperSpec.time_ordered pts ->
  Forall (MapperSpec.timestamp_ok ival) pts ->
  exists cs fin,
    MapperRun.calls fuel ival (mkIterator pts tg) = (cs, Done fin)
    /\ forall (k : nat) c,
         cs !! k = Some c ->
         fst c = match pts with
                 | [] => 0
                 | p0 :: _ => key p0 - Z.rem (key p0) ival
                 end + ival * Z.of_nat k
         /\ Z.rem (fst c) ival = 0.
Proof.
  intros HI Hsort Hok.
  unfold MapperRun.calls, MapperRun.run. cbn [interval mitr fn].
  pose proof (MapperFacts.start_state ival pts tg HI Hsort Hok) as Hstart.
  destruct (MapperRun.start ival _) as [tmin b].
  destruct Hstart as (Hinv & _ & _ & Htmin).
  destruct (MapperWindows.run_loop_starts ival HI fuel b tmin [] Hinv)
    as (ext & fin & Hrun & Hext).
  exists ext, fin. split; [exact Hrun|].
  intros k c Hk. rewrite (Hext k c Hk), Htmin. split; [reflexivity|].
  destruct pts as [|p0 rest].
  - replace (0 + ival * Z.of_nat k) with (Z.of_nat k * ival) by lia.
    apply Z.rem_mul. lia.
  - apply MapperWindows.aligned_rem. lia.
Qed.

Lemma mapper_window_starts_witness :
  exists cs fin,
    MapperRun.calls 10 10 (mkIterator [mkPoint 12 [] VNil; mkPoint 47 [] VNil] "")
    = (cs, Done fin)
    /\ forall (k : nat) c,
         cs !! k = Some c ->
         fst c = match [mkPoint 12 [] VNil; mkPoint 47 [] VNil] with
                 | [] => 0
                 | p0 :: _ => key p0 - Z.rem (key p0) 10
                 end + 10 * Z.of_nat k
         /\ Z.rem (fst c) 10 = 0.
Proof.
  apply (mapper_window_starts 10 [mkPoint 12 [] VNil; mkPoint 47 [] VNil] "" 10%nat).
  - unfold Int64.max_int. lia.
  - unfold MapperSpec.time_ordered. repeat (constructor; simpl; try lia).
  - unfold MapperSpec.timestamp_ok, Int64.max_int. repeat (constructor; simpl; try lia).
Defined.

(** X7. Under the same conditions [Mapper.run] comes to its end, and by
    then its calls have drawn the points of the stream, each once and in
    the order of the stream: no point is dropped at a window boundary and
    none is drawn twice. *)
Theorem mapper_run_draws_every_point (ival : Z) (pts : list Point) (tg : string) :
  0 < ival <= Int64.max_int ->
  MapperSpec.time_ordered pts ->
  Forall (MapperSpec.timestamp_ok ival) pts ->
  exists rounds : nat,
    forall fuel, (rounds <= fuel)%nat ->
      exists cs,
        MapperRun.calls fuel ival (mkIterator pts tg) = (cs, Done true)
        /\ concat (map snd cs) = pts.
Proof.
  intros HI Hsort Hok.
  pose proof (MapperFacts.start_state ival pts tg HI Hsort Hok) as Hstart.
  unfold MapperRun.calls, MapperRun.run. cbn [interval mitr fn].
  destruct (MapperRun.start ival _) as [tmin b].
  destruct Hstart as (Hinv & Hpts & _ & Htmin).
  assert (HM : exists M, 0 <= M /\ Forall (fun q => key q <= M) pts).
  { clear. induction pts as [|q l [M [HM0 HM]]].
    - exists 0. split; [lia | constructor].
    - exists (Z.max M (key q)). split; [lia|]. constructor; [lia|].
      eapply Forall_impl; [exact HM|]. simpl. intros; lia. }
  destruct HM as (M & HM0 & HM).
  assert (Htmin0 : - ival < tmin).
  { subst tmin. destruct pts as [|p0 rest]; [lia|].
    inversion Hok as [|? ? [Hp _] _]; subst.
    pose proof (Z.rem_bound_pos (key p0) ival). lia. }
  exists (Z.to_nat (M + 2 * ival + 2)). intros fuel Hfuel.
  destruct (MapperFacts.run_loop_finishes ival M HI fuel b tmin [] Hinv)
    as (ext & Hrun & Hcat); [now rewrite Hpts | nia | lia |].
  exists ext. rewrite Hrun, Hcat. auto.
Qed.

Lemma mapper_run_draws_every_point_witness :
  exists rounds : nat,
    forall fuel, (rounds <= fuel)%nat ->
      exists cs,
        MapperRun.calls fuel 10 (mkIterator [mkPoint 12 [] VNil; mkPoint 47 [] VNil] "")
        = (cs, Done true)
        /\ concat (map snd cs) = [mkPoint 12 [] VNil; mkPoint 47 [] VNil].
Proof.
  apply (mapper_run_draws_every_point 10 [mkPoint 12 [] VNil; mkPoint 47 [] VNil] "").
  - unfold Int64.max_int. lia.
  - unfold MapperSpec.time_ordered. repeat (constructor; simpl; try lia).
  - unfold MapperSpec.timestamp_ok, Int64.max_int. repeat (constructor; simpl; try lia).
Defined.

(** ** More of the aggregation catalog *)

Module StddevFacts.

Import Aggregates AggregateSpec.

(** The loop of [MapStddev] on float points: the batches sent are full,
    and with what is left they make up the values seen. *)
Lemma MapStddev_loop_floats (ps : list Point) (k : Key) : forall values e,
  Forall float_point ps ->
  len values < emitBatchSize ->
  exists bs rest,
    MapStddev_loop ps k values e
    = (rest, (e ++ map (fun b => (k, VFloats b)) bs, Done tt))
    /\ concat bs ++ rest = values ++ map point_float ps
    /\ Forall (fun b => len b = emitBatchSize) bs
    /\ len rest < emitBatchSize.
Proof.
  induction ps as [|p ps IH]; intros values e Hps Hlen.
  - exists [], values. cbn [MapStddev_loop map concat app].
    rewrite !app_nil_r. repeat split; [constructor | exact Hlen].
  - inversion Hps as [|? ? [f Hf] Hps']; subst.
    cbn [MapStddev_loop map]. unfold point_float at 1. rewrite Hf. cbn [asFloat].
    assert (Hlen1 : len (values ++ [f]) = len values + 1)
      by (unfold len; rewrite length_app; simpl; lia).
    destruct (len (values ++ [f]) =? emitBatchSize) eqn:E.
    + apply Z.eqb_eq in E.
      destruct (IH [] (Emit e k (VFloats (values ++ [f]))) Hps')
        as (bs & rest & Hrun & Hcat & Hfull & Hrest); [reflexivity|].
      exists ((values ++ [f]) :: bs), rest. rewrite Hrun. unfold Emit.
      cbn [map concat]. rewrite <- !app_assoc. cbn [app].
      repeat split; try assumption.
      * rewrite Hcat. reflexivity.
      * constructor; assumption.
    + apply Z.eqb_neq in E.
      destruct (IH (values ++ [f]) e Hps')
        as (bs & rest & Hrun & Hcat & Hfull & Hrest); [lia|].
      exists bs, rest. rewrite Hrun, Hcat, <- app_assoc.
      repeat split; assumption.
Qed.

(** The batches [MapStddev] sends for a window of float points. *)
Lemma MapStddev_batches (ps : list Point) (tags : string) (tmax : Z) (e : Emitter) :
  Forall float_point ps ->
  exists bs,
    MapStddev ps tags tmax e
    = (e ++ map (fun b => (mkKey tmax tags, VFloats b)) bs, Done tt)
    /\ concat bs = map point_float ps
    /\ Forall (fun b => 1 <= len b <= emitBatchSize) bs
    /\ (forall (i : nat) b,
          bs !! i = Some b -> (S i < length bs)%nat -> len b = emitBatchSize).
Proof.
  intros Hps. unfold MapStddev.
  destruct (MapStddev_loop_floats ps (mkKey tmax tags) [] e Hps)
    as (bs & rest & Hrun & Hcat & Hfull & Hrest); [reflexivity|].
  rewrite Hrun. cbn [app] in Hcat.
  assert (Hfull' : Forall (fun b => 1 <= len b <= emitBatchSize) bs).
  { eapply Forall_impl; [exact Hfull|]. intros b Hb. cbn beta in Hb.
    rewrite Hb. unfold emitBatchSize. lia. }
  destruct rest as [|x rest].
  - exists bs. rewrite app_nil_r in Hcat. cbn [len length Z.of_nat Z.gtb Z.compare].
    repeat split; try assumption.
    intros i b Hi _. rewrite Forall_forall in Hfull. apply Hfull.
    eapply list_elem_of_lookup_2. exact Hi.
  - exists (bs ++ [x :: rest]).
    replace (len (x :: rest) >? 0) with true
      by (symmetry; rewrite Z.gtb_ltb; apply Z.ltb_lt; unfold len; simpl length; lia).
    unfold Emit. rewrite map_app, app_assoc. cbn [map].
    rewrite concat_app. cbn [concat]. rewrite app_nil_r.
    repeat split; try assumption.
    + apply Forall_app. split; [exact Hfull'|]. constructor; [|constructor].
      unfold len in *. simpl length in *. lia.
    + intros i b Hi Hlt. rewrite length_app in Hlt. simpl in Hlt.
      rewrite lookup_app_l in Hi by lia.
      rewrite Forall_forall in Hfull. apply Hfull.
      eapply list_elem_of_lookup_2. exact Hi.
Qed.

(** [ReduceStddev] on batches of floats. *)
Lemma ReduceStddev_batches (Pow : float -> float -> float) (key : Key)
    (bs : list (list float)) (e : Emitter) :
  len (concat bs) <= Int64.max_int ->
  Catalog.ReduceStddev Pow key (map VFloats bs) e
  = match concat bs with
    | [] => (e, Done tt)
    | [_] => (Emit e key (VString "undefined"), Done tt)
    | data => (Emit e key (VFloat (spec_sample_stddev Pow data)), Done tt)
    end.
Proof.
  intros Hmax. unfold Catalog.ReduceStddev.
  rewrite ReduceFacts.collect_floats, app_nil_l.
  destruct (concat bs) as [|x [|y data]]; [reflexivity | reflexivity |].
  set (d := x :: y :: data) in *.
  assert (Hlen : 2 <= len d) by (unfold d, len; simpl length; lia).
  Zb_false (len d =? 0). Zb_false (len d =? 1).
  unfold spec_sample_stddev, fsum.
  rewrite ReduceFacts.fold_left_add_map.
  unfold Int64.sub. rewrite Int64Facts.wrap64_id
    by (unfold Int64.in_range, Int64.min_int, Int64.max_int in *; lia).
  reflexivity.
Qed.

End StddevFacts.

(** X8. [MapStddev] over a window of float points sends the values of
    the window in batches under the key of the window: the batches put
    end to end are the values in the order of the stream, no batch is
    empty, none holds more than [emitBatchSize] values, and every batch
    but the last holds exactly [emitBatchSize]. *)
Theorem MapStddev_sends_batches
    (ps : list Point) (tags : string) (tmax : Z) (e : Emitter) :
  Forall AggregateSpec.float_point ps ->
  exists bs,
    Aggregates.MapStddev ps tags tmax e
    = (e ++ map (fun b => (mkKey tmax tags, VFloats b)) bs, Done tt)
    /\ concat bs = map AggregateSpec.point_float ps
    /\ Forall (fun b => 1 <= len b <= emitBatchSize) bs
    /\ (forall (i : nat) b,
          bs !! i = Some b -> (S i < length bs)%nat -> len b = emitBatchSize).
Proof. apply StddevFacts.MapStddev_batches. Qed.

Lemma MapStddev_sends_batches_witness :
  exists bs,
    Aggregates.MapStddev
      (repeat (mkPoint 1 [] (VFloat 2%float)) 1000 ++ [mkPoint 2 [] (VFloat 3%float)])
      "a" 0 []
    = ([] ++ map (fun b => (mkKey 0 "a", VFloats b)) bs, Done tt)
    /\ concat bs
       = map AggregateSpec.point_float
           (repeat (mkPoint 1 [] (VFloat 2%float)) 1000 ++ [mkPoint 2 [] (VFloat 3%float)])
    /\ Forall (fun b => 1 <= len b <= emitBatchSize) bs
    /\ (forall (i : nat) b,
          bs !! i = Some b -> (S i < length bs)%nat -> len b = emitBatchSize).
Proof.
  apply (MapStddev_sends_batches
           (repeat (mkPoint 1 [] (VFloat 2%float)) 1000 ++ [mkPoint 2 [] (VFloat 3%float)])
           "a" 0 []).
  apply Forall_app. split.
  - apply Forall_forall. intros p Hp. apply list_elem_of_In, repeat_spec in Hp.
    subst p. now exists 2%float.
  - repeat constructor. now exists 3%float.
Defined.

(** X9. The batching does not show in the result: [ReduceStddev] over
    what [MapStddev] sends for a window of float points yields what it
    yields over the values of the window in one slice, nothing for an
    empty window, "undefined" for a single point, and the sample standard
    deviation otherwise. *)
Theorem ReduceStddev_of_MapStddev
    (Pow : float -> float -> float) (ps : list Point) (tags : string) (tmax : Z)
    (key : Key) (e : Emitter) :
  Forall AggregateSpec.float_point ps ->
  len ps <= Int64.max_int ->
  Catalog.ReduceStddev Pow key (map snd (fst (Aggregates.MapStddev ps tags tmax []))) e
  = match map AggregateSpec.point_float ps with
    | [] => (e, Done tt)
    | [_] => (Emit e key (VString "undefined"), Done tt)
    | data => (Emit e key (VFloat (spec_sample_stddev Pow data)), Done tt)
    end.
Proof.
  intros Hps Hlen.
  destruct (StddevFacts.MapStddev_batches ps tags tmax [] Hps) as (bs & -> & Hcat & _).
  cbn [fst app]. rewrite map_map. cbn [snd].
  rewrite StddevFacts.ReduceStddev_batches; rewrite Hcat; [reflexivity|].
  unfold len in *. now rewrite length_map.
Qed.

Lemma ReduceStddev_of_MapStddev_witness :
  Catalog.ReduceStddev (fun x _ => PrimFloat.mul x x) zeroKey
    (map snd (fst (Aggregates.MapStddev
                     [mkPoint 1 [] (VFloat 2%float); mkPoint 2 [] (VFloat 4%float);
                      mkPoint 3 [] (VFloat 9%float)] "a" 0 []))) []
  = match map AggregateSpec.point_float
            [mkPoint 1 [] (VFloat 2%float); mkPoint 2 [] (VFloat 4%float);
             mkPoint 3 [] (VFloat 9%float)] with
    | [] => ([], Done tt)
    | [_] => (Emit [] zeroKey (VString "undefined"), Done tt)
    | data =>
        (Emit [] zeroKey
           (VFloat (spec_sample_stddev (fun x _ => PrimFloat.mul x x) data)), Done tt)
    end.
Proof.
  apply (ReduceStddev_of_MapStddev (fun x _ => PrimFloat.mul x x)
           [mkPoint 1 [] (VFloat 2%float); mkPoint 2 [] (VFloat 4%float);
            mkPoint 3 [] (VFloat 9%float)] "a" 0 zeroKey []).
  - repeat constructor; eexists; reflexivity.
  - vm_compute. discriminate.
Defined.

Module MeanFacts.

Import Aggregates AggregateSpec.

Lemma MapMean_loop (ps : list Point) : forall c s,
  Forall float_point ps ->
  0 <= c -> c + len ps <= Int64.max_int ->
  ofoldl (fun out p =>
            let count := Int64.add (Count out) 1 in
            v ← asFloat (value p);
            Done (mkMeanMapOutput count (PrimFloat.add (Sum out) v)))
         ps (mkMeanMapOutput c s)
  = Done (mkMeanMapOutput (c + len ps)
                          (fold_left PrimFloat.add (map point_float ps) s)).
Proof.
  induction ps as [|p ps IH]; intros c s Hps Hc Hmax.
  - cbn [ofoldl map fold_left]. unfold len. simpl. now rewrite Z.add_0_r.
  - inversion Hps as [|? ? [f Hf] Hps']; subst.
    assert (Hlen : len (p :: ps) = 1 + len ps) by (unfold len; simpl length; lia).
    rewrite Hlen in *. pose proof (CatalogFacts.len_nonneg ps).
    assert (Hpf : point_float p = f) by (unfold point_float; now rewrite Hf).
    cbn [ofoldl map fold_left Count Sum]. rewrite Hf, Hpf.
    cbn [asFloat mbind outcome_bind obind].
    unfold Int64.add. rewrite Int64Facts.wrap64_id
      by (unfold Int64.in_range, Int64.min_int, Int64.max_int in *; lia).
    rewrite IH by (try assumption; lia).
    f_equal. f_equal. lia.
Qed.

(** What [MapMean] sends for a window of float points. *)
Lemma MapMean_floats (ps : list Point) (tags : string) (tmin : Z) (e : IEmitter) :
  Forall float_point ps ->
  len ps <= Int64.max_int ->
  MapMean ps tags tmin e
  = (match ps with
     | [] => e
     | _ :: _ =>
         IEmit e (mkKey tmin tags) (IMean (mkMeanMapOutput (len ps) (window_sum ps)))
     end, Done tt).
Proof.
  intros Hps Hmax. unfold MapMean.
  rewrite MapMean_loop by (try assumption; lia).
  cbn [Count]. rewrite Z.add_0_l.
  destruct ps as [|p ps]; [reflexivity|].
  replace (len (p :: ps) >? 0) with true
    by (symmetry; rewrite Z.gtb_ltb; apply Z.ltb_lt; unfold len; simpl length; lia).
  reflexivity.
Qed.

Lemma map_calls_MapMean (tags : string) (cs : list (Z * list Point)) : forall e,
  Forall float_point (concat (map snd cs)) ->
  len (concat (map snd cs)) <= Int64.max_int ->
  map_calls MapMean tags cs e = (e ++ mean_records tags cs, Done tt).
Proof.
  induction cs as [|[tmin ps] cs IH]; intros e Hps Hmax.
  - cbn [map_calls]. unfold mean_records. cbn [map concat]. now rewrite app_nil_r.
  - cbn [map concat snd] in Hps, Hmax. apply Forall_app in Hps as [Hp Hps].
    rewrite CatalogFacts.len_app in Hmax.
    pose proof (CatalogFacts.len_nonneg ps).
    pose proof (CatalogFacts.len_nonneg (concat (map snd cs))).
    cbn [map_calls]. rewrite MapMean_floats by (try assumption; lia).
    rewrite IH by (try assumption; lia).
    unfold mean_records. cbn [map concat fst snd].
    destruct ps as [|p ps]; [reflexivity|].
    unfold IEmit. now rewrite <- app_assoc.
Qed.

(** The loop of [ReduceMean] over these records. *)
Lemma ReduceMean_loop (tags : string) (cs : list (Z * list Point)) : forall c s,
  0 <= c -> c + len (concat (map snd cs)) <= Int64.max_int ->
  ofoldl (fun out v =>
            val ← asMean v;
            Done (mkMeanMapOutput (Int64.add (Count out) (Count val))
                                  (PrimFloat.add (Sum out) (Sum val))))
         (map snd (mean_records tags cs)) (mkMeanMapOutput c s)
  = Done (mkMeanMapOutput (c + len (concat (map snd cs)))
            (fold_left PrimFloat.add (map window_sum (sent_windows cs)) s)).
Proof.
  induction cs as [|[tmin ps] cs IH]; intros c s Hc Hmax.
  - cbn. now rewrite Z.add_0_r.
  - cbn [map concat snd] in Hmax. rewrite CatalogFacts.len_app in Hmax.
    pose proof (CatalogFacts.len_nonneg ps).
    pose proof (CatalogFacts.len_nonneg (concat (map snd cs))).
    unfold mean_records, sent_windows in *. cbn [map concat fst snd List.filter].
    rewrite CatalogFacts.len_app.
    destruct ps as [|p ps].
    + cbn [app]. rewrite IH by (try assumption; unfold len in *; simpl in *; lia).
      do 2 f_equal; try (unfold len; simpl; lia).
    + cbn [app map ofoldl snd]. cbn [asMean mbind outcome_bind obind Count Sum].
      cbn [fold_left]. fold (mean_records tags cs).
      unfold Int64.add. rewrite Int64Facts.wrap64_id
        by (unfold Int64.in_range, Int64.min_int, Int64.max_int in *; lia).
      rewrite IH by lia. do 2 f_equal; try lia.
Qed.

End MeanFacts.

(** X10. The mean over windows of float points, at most [2^63 - 1]
    points in all: [MapMean] sends a count and a sum for each window that
    holds a point, and [ReduceMean] over them sends the sum of these sums
    divided by the exact number of points; when no window holds a point
    neither of them sends anything, so there is no division by zero. *)
Theorem ReduceMean_of_MapMean
    (tags : string) (key : Key) (cs : list (Z * list Point)) (e : Aggregates.IEmitter) :
  Forall AggregateSpec.float_point (concat (map snd cs)) ->
  len (concat (map snd cs)) <= Int64.max_int ->
  exists em,
    map_calls Aggregates.MapMean tags cs [] = (em, Done tt)
    /\ length em = length (AggregateSpec.sent_windows cs)
    /\ Aggregates.ReduceMean key (map snd em) e
       = (match concat (map snd cs) with
          | [] => e
          | _ :: _ =>
              Aggregates.IEmit e key
                (Aggregates.IValue
                   (VFloat
                      (PrimFloat.div
                         (fsum (map AggregateSpec.window_sum
                                    (AggregateSpec.sent_windows cs)))
                         (Float64.of_int (len (concat (map snd cs)))))))
          end, Done tt).
Proof.
  intros Hps Hmax. exists (AggregateSpec.mean_records tags cs).
  split; [now rewrite MeanFacts.map_calls_MapMean|]. split.
  - clear. unfold AggregateSpec.mean_records, AggregateSpec.sent_windows.
    induction cs as [|[tmin [|p ps]] cs IH]; cbn [map concat List.filter snd fst];
      [reflexivity | exact IH |].
    cbn [app length]. now rewrite IH.
  - unfold Aggregates.ReduceMean.
    rewrite MeanFacts.ReduceMean_loop by (try lia; rewrite Z.add_0_l; exact Hmax).
    cbn [Aggregates.Count Aggregates.Sum]. rewrite Z.add_0_l.
    destruct (concat (map snd cs)) as [|p l]; [reflexivity|].
    replace (len (p :: l) >? 0) with true
      by (symmetry; rewrite Z.gtb_ltb; apply Z.ltb_lt; unfold len; simpl length; lia).
    reflexivity.
Qed.

Lemma ReduceMean_of_MapMean_witness :
  exists em,
    map_calls Aggregates.MapMean "a"
      [(0, [mkPoint 1 [] (VFloat 2%float); mkPoint 2 [] (VFloat 4%float)]);
       (10, []); (20, [mkPoint 21 [] (VFloat 9%float)])] []
    = (em, Done tt)
    /\ length em
       = length (AggregateSpec.sent_windows
                   [(0, [mkPoint 1 [] (VFloat 2%float); mkPoint 2 [] (VFloat 4%float)]);
                    (10, []); (20, [mkPoint 21 [] (VFloat 9%float)])])
    /\ Aggregates.ReduceMean zeroKey (map snd em) []
       = (match concat (map snd
                    [(0, [mkPoint 1 [] (VFloat 2%float); mkPoint 2 [] (VFloat 4%float)]);
                     (10, []); (20, [mkPoint 21 [] (VFloat 9%float)])]) with
          | [] => []
          | _ :: _ =>
              Aggregates.IEmit [] zeroKey
                (Aggregates.IValue
                   (VFloat
                      (PrimFloat.div
                         (fsum (map AggregateSpec.window_sum
                                  (AggregateSpec.sent_windows
                                     [(0, [mkPoint 1 [] (VFloat 2%float);
                                           mkPoint 2 [] (VFloat 4%float)]);
                                      (10, []); (20, [mkPoint 21 [] (VFloat 9%float)])])))
                         (Float64.of_int
                            (len (concat (map snd
                               [(0, [mkPoint 1 [] (VFloat 2%float);
                                     mkPoint 2 [] (VFloat 4%float)]);
                                (10, []); (20, [mkPoint 21 [] (VFloat 9%float)])])))))))
          end, Done tt).
Proof.
  apply (ReduceMean_of_MapMean "a" zeroKey
           [(0, [mkPoint 1 [] (VFloat 2%float); mkPoint 2 [] (VFloat 4%float)]);
            (10, []); (20, [mkPoint 21 [] (VFloat 9%float)])] []).
  - repeat constructor; eexists; reflexivity.
  - vm_compute. discriminate.
Defined.

Module FirstLastFacts.

Import Aggregates AggregateSpec.

Section Select.

(** The comparison of the loop, [<] or [>]: a strict order whose
    complement is transitive too. *)
Variable before : Z -> Z -> bool.
Hypothesis before_irrefl : forall a, before a a = false.
Hypothesis before_trans :
  forall a b c, before a b = true -> before b c = true -> before a c = true.
Hypothesis before_neg_trans :
  forall a b c, before a b = false -> before b c = false -> before a c = false.

Lemma step_init k v :
  firstLast_step before firstLast_init k v = (mkFirstLastMapOutput k v, true).
Proof.
  unfold firstLast_step, firstLast_init. cbn [negb Time].
  now rewrite before_irrefl.
Qed.

Lemma step_first out k v :
  firstLast_step before (out, false) k v = (mkFirstLastMapOutput k v, true).
Proof.
  unfold firstLast_step. cbn [negb Time]. now rewrite before_irrefl.
Qed.

Lemma step_yielded out k v :
  firstLast_step before (out, true) k v
  = (if before k (Time out) then mkFirstLastMapOutput k v else out, true).
Proof. reflexivity. Qed.

(** The better of two outputs: the second when it comes before the first. *)
Local Abbreviation pick x y := (if before (Time y) (Time x) then y else x) (only parsing).

(** Two steps are one step with the better of the two. *)
Lemma step_step st k1 v1 k2 v2 :
  firstLast_step before (firstLast_step before st k1 v1) k2 v2
  = firstLast_step before st
      (Time (pick (mkFirstLastMapOutput k1 v1) (mkFirstLastMapOutput k2 v2)))
      (Val (pick (mkFirstLastMapOutput k1 v1) (mkFirstLastMapOutput k2 v2))).
Proof.
  cbn [Time Val].
  destruct st as [out [|]].
  - unfold firstLast_step. cbn [negb].
    destruct (before k1 (Time out)) eqn:E1; cbn [Time];
      destruct (before k2 k1) eqn:E2; cbn [Time Val].
    + now rewrite (before_trans _ _ _ E2 E1).
    + now rewrite E1.
    + reflexivity.
    + rewrite E1. now rewrite (before_neg_trans _ _ _ E2 E1).
  - rewrite !step_first. unfold firstLast_step. cbn [negb Time].
    destruct (before k2 k1); reflexivity.
Qed.

Section Fold.

(** The loop over a slice of [A], whose elements carry a time and a
    value: points for the Map functions, outputs for the Reduce ones. *)
Context {A : Type} (kf : A -> Z) (vf : A -> Value).

Local Abbreviation loop st l :=
  (fold_left (fun s x => firstLast_step before s (kf x) (vf x)) l st) (only parsing).

Lemma loop_yielded l : forall st, l <> [] -> snd (loop st l) = true.
Proof.
  induction l as [|x l IH]; intros st Hl; [contradiction|].
  cbn [fold_left].
  destruct l as [|y l].
  - destruct st as [out y]. reflexivity.
  - apply IH. discriminate.
Qed.

(** The loop from any state is one step from that state with the result
    of the loop from the initial state. *)
Lemma loop_from l : forall st,
  l <> [] ->
  loop st l
  = firstLast_step before st (Time (fst (loop firstLast_init l)))
                             (Val (fst (loop firstLast_init l))).
Proof.
  induction l as [|x l IH]; intros st Hl; [contradiction|].
  destruct l as [|y l].
  - cbn [fold_left]. now rewrite step_init.
  - assert (Hne : y :: l <> []) by discriminate.
    set (o := fst (loop firstLast_init (y :: l))).
    assert (E1 : loop st (x :: y :: l)
                 = firstLast_step before (firstLast_step before st (kf x) (vf x))
                     (Time o) (Val o)) by (apply (IH _ Hne)).
    assert (E2 : loop firstLast_init (x :: y :: l)
                 = firstLast_step before (mkFirstLastMapOutput (kf x) (vf x), true)
                     (Time o) (Val o)).
    { rewrite <- step_init. apply (IH _ Hne). }
    rewrite E1, E2, step_step, step_yielded. cbn [fst Time Val].
    destruct (before (Time o) (kf x)); reflexivity.
Qed.

Lemma loop_optimal l :
  l <> [] ->
  exists i x, optimal_at before kf l i x
              /\ loop firstLast_init l = (mkFirstLastMapOutput (kf x) (vf x), true).
Proof.
  induction l as [|x l IH] using rev_ind; intros Hl; [contradiction|].
  rewrite fold_left_app. cbn [fold_left].
  destruct l as [|y0 l0].
  - exists 0%nat, x. cbn [app fold_left]. rewrite step_init. split; [|reflexivity].
    repeat split.
    + intros y Hy. apply list_elem_of_singleton in Hy. subst. apply before_irrefl.
    + intros j y Hj. lia.
  - destruct IH as (i & b & (Hi & Hall & Hbefore) & ->); [discriminate|].
    set (l := y0 :: l0) in *.
    unfold firstLast_step. cbn [negb Time].
    destruct (before (kf x) (kf b)) eqn:E.
    + exists (length l), x. split; [|reflexivity]. repeat split.
      * rewrite lookup_app_r by lia. now rewrite Nat.sub_diag.
      * intros y Hy. apply elem_of_app in Hy as [Hy|Hy].
        -- destruct (before (kf y) (kf x)) eqn:E'; [|reflexivity].
           rewrite <- (Hall y Hy). symmetry. now apply (before_trans _ (kf x)).
        -- apply list_elem_of_singleton in Hy. subst. apply before_irrefl.
      * intros j y Hj Hy. rewrite lookup_app_l in Hy by lia.
        destruct (before (kf x) (kf y)) eqn:E'; [reflexivity|].
        rewrite <- E. symmetry. apply (before_neg_trans _ (kf y)); [exact E'|].
        apply Hall. eapply list_elem_of_lookup_2. exact Hy.
    + exists i, b. split; [|reflexivity].
      assert (Hlt : (i < length l)%nat) by (eapply lookup_lt_Some; exact Hi).
      repeat split.
      * rewrite lookup_app_l by lia. exact Hi.
      * intros y Hy. apply elem_of_app in Hy as [Hy|Hy]; [now apply Hall|].
        apply list_elem_of_singleton in Hy. now subst.
      * intros j y Hj Hy. rewrite lookup_app_l in Hy by lia. now apply (Hbefore j).
Qed.

End Fold.

(** The loop of a Map function over the chunks of a stream put end to
    end is the loop of the Reduce function over what the Map function
    sends for the chunks. *)
Lemma loop_chunks (chunks : list (list Point)) : forall st,
  fold_left (fun st p => firstLast_step before st (key p) (value p))
            (concat chunks) st
  = fold_left (fun st o => firstLast_step before st (Time o) (Val o))
              (firstLast_outputs before chunks) st.
Proof.
  induction chunks as [|c chunks IH]; intros st; [reflexivity|].
  unfold firstLast_outputs in *. cbn [concat map]. rewrite !fold_left_app, IH.
  f_equal. destruct c as [|p c]; [reflexivity|].
  cbn [fold_left app concat]. 
  change (fold_left (fun st p => firstLast_step before st (key p) (value p)) c
            (firstLast_step before st (key p) (value p)))
    with (fold_left (fun st p => firstLast_step before st (key p) (value p)) (p :: c) st).
  rewrite (loop_from key value (p :: c) st) by discriminate. reflexivity.
Qed.

(** What the Map function sends over the windows [cs]. *)
Lemma map_calls_firstLast (tags : string) (cs : list (Z * list Point)) : forall e,
  exists em,
    map_calls (map_firstLast before) tags cs e = (e ++ em, Done tt)
    /\ map snd em = map IFirstLast (firstLast_outputs before (map snd cs)).
Proof.
  induction cs as [|[tmin ps] cs IH]; intros e.
  - exists []. cbn [map_calls]. now rewrite app_nil_r.
  - cbn [map_calls]. unfold map_firstLast at 1.
    destruct ps as [|p ps].
    + cbn [fold_left firstLast_init].
      destruct (IH e) as (em & -> & Hem). exists em. split; [reflexivity|].
      exact Hem.
    + pose proof (loop_yielded key value (p :: ps) firstLast_init ltac:(discriminate))
        as Hy.
      destruct (fold_left _ (p :: ps) firstLast_init) as [out y] eqn:E.
      cbn [snd] in Hy. subst y.
      destruct (IH (IEmit e (mkKey tmin tags) (IFirstLast out))) as (em & -> & Hem).
      exists ((mkKey tmin tags, IFirstLast out) :: em). unfold IEmit.
      rewrite <- app_assoc. split; [reflexivity|].
      unfold firstLast_outputs in *. cbn [map concat snd app]. rewrite Hem.
      f_equal. f_equal. now rewrite E.
Qed.

(** The loop of the Reduce function on outputs. *)
Lemma reduce_loop (outs : list firstLastMapOutput) : forall st,
  ofoldl (fun st v =>
            val ← asFirstLast v;
            Done (firstLast_step before st (Time val) (Val val)))
         (map IFirstLast outs) st
  = Done (fold_left (fun st o => firstLast_step before st (Time o) (Val o)) outs st).
Proof.
  induction outs as [|o outs IH]; intros st; [reflexivity|].
  cbn [map ofoldl asFirstLast mbind outcome_bind obind fold_left]. apply IH.
Qed.

(** The Reduce function over what the Map function sends for the windows
    of a stream: nothing when the stream is empty, and otherwise the value
    of the best point of the stream, the first of the best ones. *)
Lemma reduce_of_map (tags : string) (key0 : Key) (cs : list (Z * list Point))
    (e : IEmitter) :
  exists em,
    map_calls (map_firstLast before) tags cs [] = (em, Done tt)
    /\ ((concat (map snd cs) = []
         /\ reduce_firstLast before key0 (map snd em) e = (e, Done tt))
        \/ exists i p,
             optimal_at before key (concat (map snd cs)) i p
             /\ reduce_firstLast before key0 (map snd em) e
                = (IEmit e key0 (IValue (value p)), Done tt)).
Proof.
  destruct (map_calls_firstLast tags cs []) as (em & Hrun & Hem).
  exists em. split; [exact Hrun|].
  unfold reduce_firstLast. rewrite Hem, reduce_loop, <- loop_chunks.
  destruct (concat (map snd cs)) as [|p0 l] eqn:E.
  - left. split; reflexivity.
  - right. rewrite <- E.
    destruct (loop_optimal key value (concat (map snd cs))) as (i & p & Hopt & ->);
      [rewrite E; discriminate|].
    exists i, p. split; [exact Hopt|]. reflexivity.
Qed.

End Select.

Lemma Zltb_neg_trans a b c : (a <? b) = false -> (b <? c) = false -> (a <? c) = false.
Proof. rewrite !Z.ltb_ge. lia. Qed.

Lemma Zltb_trans a b c : (a <? b) = true -> (b <? c) = true -> (a <? c) = true.
Proof. rewrite !Z.ltb_lt. lia. Qed.

Lemma Zgtb_irrefl a : (a >? a) = false.
Proof. rewrite Z.gtb_ltb. apply Z.ltb_irrefl. Qed.

Lemma Zgtb_trans a b c : (a >? b) = true -> (b >? c) = true -> (a >? c) = true.
Proof. rewrite !Z.gtb_ltb, !Z.ltb_lt. lia. Qed.

Lemma Zgtb_neg_trans a b c : (a >? b) = false -> (b >? c) = false -> (a >? c) = false.
Proof. rewrite !Z.gtb_ltb, !Z.ltb_ge. lia. Qed.

End FirstLastFacts.

(** X11. [first] over the windows of a stream: [MapFirst] sends a time
    and a value for each window that holds a point, and [ReduceFirst] over
    them sends the value of the earliest point of the whole stream, the
    first one in the stream among the points with that timestamp; when no
    window holds a point neither of them sends anything. *)
Theorem ReduceFirst_of_MapFirst
    (tags : string) (key0 : Key) (cs : list (Z * list Point)) (e : Aggregates.IEmitter) :
  exists em,
    map_calls Aggregates.MapFirst tags cs [] = (em, Done tt)
    /\ ((concat (map snd cs) = []
         /\ Aggregates.ReduceFirst key0 (map snd em) e = (e, Done tt))
        \/ exists i p,
             AggregateSpec.earliest_at (concat (map snd cs)) i p
             /\ Aggregates.ReduceFirst key0 (map snd em) e
                = (Aggregates.IEmit e key0 (Aggregates.IValue (value p)), Done tt)).
Proof.
  destruct (FirstLastFacts.reduce_of_map Z.ltb Z.ltb_irrefl FirstLastFacts.Zltb_trans
              FirstLastFacts.Zltb_neg_trans tags key0 cs e) as (em & Hrun & Hred).
  exists em. split; [exact Hrun|].
  destruct Hred as [Hnil | (i & p & (Hi & Hall & Hbefore) & Hred)]; [now left|].
  right. exists i, p. split; [|exact Hred]. repeat split.
  - exact Hi.
  - intros q Hq. specialize (Hall q Hq). apply Z.ltb_ge in Hall. exact Hall.
  - intros j q Hj Hq. specialize (Hbefore j q Hj Hq). now apply Z.ltb_lt in Hbefore.
Qed.

(** X12. [last] over the windows of a stream: [ReduceLast] over what
    [MapLast] sends for the windows sends the value of the latest point of
    the whole stream; among several points with that timestamp it is the
    first one in the stream, since the loops replace their candidate on a
    strictly greater timestamp only. When no window holds a point nothing
    is sent. *)
Theorem ReduceLast_of_MapLast
    (tags : string) (key0 : Key) (cs : list (Z * list Point)) (e : Aggregates.IEmitter) :
  exists em,
    map_calls Aggregates.MapLast tags cs [] = (em, Done tt)
    /\ ((concat (map snd cs) = []
         /\ Aggregates.ReduceLast key0 (map snd em) e = (e, Done tt))
        \/ exists i p,
             AggregateSpec.latest_at (concat (map snd cs)) i p
             /\ Aggregates.ReduceLast key0 (map snd em) e
                = (Aggregates.IEmit e key0 (Aggregates.IValue (value p)), Done tt)).
Proof.
  destruct (FirstLastFacts.reduce_of_map Z.gtb FirstLastFacts.Zgtb_irrefl
              FirstLastFacts.Zgtb_trans FirstLastFacts.Zgtb_neg_trans tags key0 cs e)
    as (em & Hrun & Hred).
  exists em. split; [exact Hrun|].
  destruct Hred as [Hnil | (i & p & (Hi & Hall & Hbefore) & Hred)]; [now left|].
  right. exists i, p. split; [|exact Hred]. repeat split.
  - exact Hi.
  - intros q Hq. specialize (Hall q Hq). rewrite Z.gtb_ltb in Hall.
    apply Z.ltb_ge in Hall. exact Hall.
  - intros j q Hj Hq. specialize (Hbefore j q Hj Hq). rewrite Z.gtb_ltb in Hbefore.
    now apply Z.ltb_lt in Hbefore.
Qed.

(** ** The Reducer *)

(** X13. A [bufInput] hands out what it is given back: [peek] does not
    consume, so the [read] after a [peek] returns the record [read] would
    have returned without it and leaves the input in the same state, and
    a second [peek] changes nothing. *)
Theorem bufInput_peek_does_not_consume (i : bufInput) :
  BufInput.read (snd (BufInput.peek i)) = BufInput.read i
  /\ BufInput.peek (snd (BufInput.peek i)) = BufInput.peek i
  /\ fst (BufInput.peek i) = fst (BufInput.read i).
Proof.
  destruct i as [[rec|] [|r c]]; repeat split; reflexivity.
Qed.

Module MergeFacts.

Import BufInput ReducerRun ReducerSpec ReducerMergeSpec.

Lemma peek_head b : fst (peek b) = head (pending b).
Proof. destruct b as [[rec|] [|r c]]; reflexivity. Qed.

Lemma pending_peek b : pending (snd (peek b)) = pending b.
Proof. destruct b as [[rec|] [|r c]]; reflexivity. Qed.

(** The first inner loop: the timestamp it leaves, and the inputs. *)
Lemma pick_timestamp_fold (bs : list bufInput) : forall t seen,
  fold_left
    (fun '(timestamp, seen) input =>
       let '(rec, input1) := peek input in
       match rec with
       | None => (timestamp, seen ++ [input1])
       | Some rec =>
           if (timestamp =? 0) || (Timestamp (fst rec) <? timestamp)
           then (Timestamp (fst rec), seen ++ [input1])
           else (timestamp, seen ++ [input1])
       end)
    bs (t, seen)
  = (fold_left min_step bs t, seen ++ map (fun b => snd (peek b)) bs).
Proof.
  induction bs as [|b bs IH]; intros t seen; cbn [fold_left map].
  - now rewrite app_nil_r.
  - assert (E : (let '(rec, input1) := peek b in
                 match rec with
                 | None => (t, seen ++ [input1])
                 | Some rec =>
                     if (t =? 0) || (Timestamp (fst rec) <? t)
                     then (Timestamp (fst rec), seen ++ [input1])
                     else (t, seen ++ [input1])
                 end) = (min_step t b, seen ++ [snd (peek b)])).
    { unfold min_step, ts. destruct b as [[rec|] [|r c]]; cbn;
        try reflexivity;
        match goal with |- context [if ?c then _ else _] => destruct c end;
        reflexivity. }
    rewrite E, IH, <- app_assoc. reflexivity.
Qed.

Lemma pick_timestamp_eq (bs : list bufInput) :
  pick_timestamp bs = (fold_left min_step bs 0, map (fun b => snd (peek b)) bs).
Proof. unfold pick_timestamp. now rewrite pick_timestamp_fold. Qed.

(** The timestamp of the round is the least timestamp at the head of an
    input, when all of them are positive. *)
Lemma min_fold (bs : list bufInput) : forall t,
  0 <= t ->
  Forall (fun b => Forall (fun r => 0 < ts r) (pending b)) bs ->
  (t = 0 /\ Forall (fun b => pending b = []) bs /\ fold_left min_step bs t = 0)
  \/ (0 < fold_left min_step bs t
      /\ (0 < t -> fold_left min_step bs t <= t)
      /\ Forall (fun b => forall r l, pending b = r :: l -> fold_left min_step bs t <= ts r) bs
      /\ ((0 < t /\ fold_left min_step bs t = t)
          \/ exists b r l, b ∈ bs /\ pending b = r :: l /\ fold_left min_step bs t = ts r)).
Proof.
  induction bs as [|b bs IH]; intros t Ht Hpos; cbn [fold_left].
  - destruct (Z.eq_dec t 0) as [->|Hne].
    + left. split; [reflexivity|]. split; [constructor | reflexivity].
    + right. split; [lia|]. split; [lia|]. split; [constructor|].
      left. split; [lia | reflexivity].
  - inversion Hpos as [|? ? Hb Hbs]; subst.
    destruct (pending b) as [|r l] eqn:Eb.
    + assert (E : min_step t b = t) by (unfold min_step; now rewrite Eb).
      rewrite E.
      destruct (IH t Ht Hbs) as [(-> & Hall & E0) | (Hpos' & Hle & Hheads & Hwit)].
      * left. split; [reflexivity|]. split; [constructor; assumption | exact E0].
      * right. split; [exact Hpos'|]. split; [exact Hle|]. split.
        -- constructor; [intros r l Hrl; rewrite Eb in Hrl; discriminate | exact Hheads].
        -- destruct Hwit as [Hwit | (b' & r & l & Hin & Hp & E1)]; [now left|].
           right. exists b', r, l. split; [now apply list_elem_of_further | auto].
    + inversion Hb as [|? ? Hr _]; subst.
      set (t' := if (t =? 0) || (ts r <? t) then ts r else t).
      assert (E : min_step t b = t') by (unfold min_step; now rewrite Eb).
      rewrite E.
      assert (Ht' : 0 < t' /\ t' <= ts r /\ (0 < t -> t' <= t)
                    /\ (t' = ts r \/ (0 < t /\ t' = t))).
      { subst t'. destruct (Z.eqb_spec t 0) as [->|Hne]; cbn [orb]; [lia|].
        destruct (Z.ltb_spec (ts r) t); lia. }
      destruct Ht' as (Hp' & Hler & Hlet & Hcase).
      destruct (IH t' ltac:(lia) Hbs) as [(E0 & _) | (Hpos' & Hle & Hheads & Hwit)]; [lia|].
      right. specialize (Hle Hp'). split; [exact Hpos'|]. split; [lia|]. split.
      * constructor; [|exact Hheads].
        intros r0 l0 Hrl. rewrite Eb in Hrl. injection Hrl as <- <-. lia.
      * destruct Hwit as [[_ E1] | (b' & r' & l' & Hin & Hp & E1)].
        -- destruct Hcase as [Hc | [Hc1 Hc2]].
           ++ right. exists b, r, l. split; [apply list_elem_of_here|].
              split; [exact Eb | lia].
           ++ left. split; [exact Hc1 | lia].
        -- right. exists b', r', l'. split; [now apply list_elem_of_further | auto].
Qed.

Lemma take_drop_eq T l : take_eq T l ++ drop_eq T l = l.
Proof.
  induction l as [|r l IH]; cbn; [reflexivity|].
  destruct (ts r =? T); cbn; [now rewrite IH | reflexivity].
Qed.

Lemma take_eq_ts T l : Forall (fun r => ts r = T) (take_eq T l).
Proof.
  induction l as [|r l IH]; cbn; [constructor|].
  destruct (Z.eqb_spec (ts r) T); constructor; assumption.
Qed.

Lemma drop_eq_past T l :
  ordered l -> Forall (fun r => T <= ts r) l ->
  ordered (drop_eq T l) /\ Forall (fun r => T < ts r) (drop_eq T l).
Proof.
  unfold ordered. induction l as [|r l IH]; intros Hs Hle; cbn.
  - split; constructor.
  - inversion Hs as [|? ? Hs' Hr]; subst. inversion Hle as [|? ? Hr0 Hle']; subst.
    destruct (Z.eqb_spec (ts r) T) as [E|E]; [now apply IH|].
    split; [exact Hs|]. constructor; [lia|].
    eapply Forall_impl; [exact Hr|]. cbn. intros; lia.
Qed.

(** The loop that reads one input: it takes the records at the head that
    carry the timestamp of the round and leaves the rest. *)
Lemma read_loop_spec T : forall fuel b data,
  (length (pending b) < fuel)%nat ->
  exists b',
    read_loop fuel T b data = (b', fold_left append_value (take_eq T (pending b)) data)
    /\ pending b' = drop_eq T (pending b).
Proof.
  induction fuel as [|fuel IH]; intros b data Hfuel; [lia|].
  destruct b as [[rec|] c]; cbn [read_loop]; unfold read; cbn [ibuf chan];
    unfold pending in *; cbn [ibuf chan] in *.
  - cbn [take_eq drop_eq]. change (Timestamp (fst rec)) with (ts rec).
    destruct (ts rec =? T); cbn [negb].
    + destruct (IH (mkBufInput None c) (append_value data rec)) as (b' & -> & Hb');
        [cbn; simpl in Hfuel; lia|].
      exists b'. split; [reflexivity | exact Hb'].
    + eexists. split; reflexivity.
  - destruct c as [|rec c].
    + eexists. split; reflexivity.
    + cbn [take_eq drop_eq]. change (Timestamp (fst rec)) with (ts rec).
      destruct (ts rec =? T); cbn [negb].
      * destruct (IH (mkBufInput None c) (append_value data rec)) as (b' & -> & Hb');
          [cbn; simpl in Hfuel; lia|].
        exists b'. split; [reflexivity | exact Hb'].
      * eexists. split; reflexivity.
Qed.

Lemma length_pending_chan b : (length (pending b) <= S (length (chan b)))%nat.
Proof. destruct b as [[rec|] c]; cbn; lia. Qed.

(** The second inner loop: what is taken from all the inputs, and what
    they are left with. *)
Lemma read_inputs_fold T (bs : list bufInput) : forall seen data,
  exists bs',
    fold_left
      (fun '(seen, data) input =>
         let '(input1, data1) := read_input T input data in
         (seen ++ [input1], data1))
      bs (seen, data)
    = (seen ++ bs',
       fold_left append_value (concat (map (fun b => take_eq T (pending b)) bs)) data)
    /\ Forall2 (fun b b' => pending b' = drop_eq T (pending b)) bs bs'.
Proof.
  induction bs as [|b bs IH]; intros seen data; cbn [fold_left map concat].
  - exists []. rewrite app_nil_r. split; [reflexivity | constructor].
  - destruct (read_loop_spec T (S (S (length (chan b)))) b data) as (b' & Hrun & Hb').
    { pose proof (length_pending_chan b). lia. }
    assert (E : (let '(input1, data1) := read_input T b data in
                 (seen ++ [input1], data1))
                = (seen ++ [b'], fold_left append_value (take_eq T (pending b)) data)).
    { unfold read_input. now rewrite Hrun. }
    rewrite E.
    destruct (IH (seen ++ [b']) (fold_left append_value (take_eq T (pending b)) data))
      as (bs' & -> & Hbs').
    exists (b' :: bs'). rewrite <- app_assoc, fold_left_app.
    split; [reflexivity | constructor; assumption].
Qed.

Lemma read_inputs_spec T (bs : list bufInput) :
  exists bs',
    read_inputs T bs
    = (bs', fold_left append_value (concat (map (fun b => take_eq T (pending b)) bs)) ∅)
    /\ Forall2 (fun b b' => pending b' = drop_eq T (pending b)) bs bs'.
Proof.
  unfold read_inputs. destruct (read_inputs_fold T bs [] ∅) as (bs' & -> & H).
  exists bs'. split; [reflexivity | exact H].
Qed.

(** The keys of the grouping table. *)
Lemma append_value_keys (l : list Record_) : forall data k,
  is_Some (fold_left append_value l data !! k)
  <-> is_Some (data !! k) \/ k ∈ map fst l.
Proof.
  induction l as [|r l IH]; intros data k; cbn [fold_left map].
  - split; [now left | intros [H|H]; [exact H | inversion H]].
  - rewrite IH. unfold append_value.
    destruct (decide (fst r = k)) as [<-|Hne].
    + rewrite lookup_insert_eq. split; intros _.
      * right. apply list_elem_of_here.
      * left. eauto.
    + rewrite lookup_insert_ne by exact Hne. rewrite elem_of_cons.
      split; intros [H|H]; auto. destruct H as [H|H]; [congruence | auto].
Qed.

Lemma sorted_keys_elem data k : k ∈ sorted_keys data <-> is_Some (data !! k).
Proof.
  unfold sorted_keys. rewrite (sort_by_perm keyLess (map fst (map_to_list data))).
  rewrite list_elem_of_fmap. split.
  - intros ([k' v] & -> & Hin). apply elem_of_map_to_list in Hin. cbn. eauto.
  - intros [v Hv]. exists (k, v). split; [reflexivity|]. now apply elem_of_map_to_list.
Qed.

Lemma StronglySorted_app_intro {A} (R : A -> A -> Prop) (l1 l2 : list A) :
  StronglySorted R l1 -> StronglySorted R l2 ->
  (forall a b, a ∈ l1 -> b ∈ l2 -> R a b) ->
  StronglySorted R (l1 ++ l2).
Proof.
  intros H1 H2 H12. induction H1 as [|a l1 Hl1 IH Ha]; [exact H2|].
  cbn. constructor.
  - apply IH. intros x y Hx Hy. apply H12; [now apply list_elem_of_further | exact Hy].
  - apply Forall_app. split; [exact Ha|].
    apply Forall_forall. intros b Hb. apply H12; [apply list_elem_of_here | exact Hb].
Qed.

Lemma round_key_lt (T : Z) (keys : list Key) :
  Forall (fun k => Timestamp k = T) keys ->
  StronglySorted (fun a b => valuesLess a b = true) keys ->
  StronglySorted key_lt keys.
Proof.
  intros Hts Hs. induction Hs as [|a l Hl IH Ha]; [constructor|].
  inversion Hts as [|? ? Hta Htl]; subst.
  constructor; [now apply IH|].
  rewrite Forall_forall in Ha, Htl |- *. intros b Hb. right.
  split; [now rewrite (Htl b Hb) | exact (Ha b Hb)].
Qed.

Lemma all_pending_cons b bs : all_pending (b :: bs) = pending b ++ all_pending bs.
Proof. reflexivity. Qed.

(** The timestamps of the keys of a round. *)
Lemma round_data_ts (T' : Z) (bs : list bufInput) (k : Key) :
  k ∈ map fst (concat (map (fun b => take_eq T' (pending b)) bs)) -> Timestamp k = T'.
Proof.
  intros Hk. apply list_elem_of_fmap in Hk as (r & -> & Hr).
  apply list_elem_of_In, in_concat in Hr as (l & Hl & Hr).
  apply in_map_iff in Hl as (b & <- & _).
  pose proof (take_eq_ts T' (pending b)) as Hts. rewrite Forall_forall in Hts.
  apply Hts. now apply list_elem_of_In.
Qed.

(** The records split into those a round takes and those it leaves. *)
Lemma split_keys T (bs bs2 : list bufInput) :
  Forall2 (fun b b' => pending b' = drop_eq T (pending b)) bs bs2 ->
  forall k, k ∈ map fst (all_pending bs)
            <-> k ∈ map fst (concat (map (fun b => take_eq T (pending b)) bs))
                \/ k ∈ map fst (all_pending bs2).
Proof.
  unfold all_pending.
  induction 1 as [|b b' bs bs2 Hb Hbs IH]; intros k; cbn [map concat].
  - split; [intros H; inversion H | intros [H|H]; inversion H].
  - rewrite !map_app, !elem_of_app, IH, Hb.
    rewrite <- (take_drop_eq T (pending b)) at 1.
    rewrite map_app, elem_of_app. tauto.
Qed.

Lemma split_length T (bs bs2 : list bufInput) :
  Forall2 (fun b b' => pending b' = drop_eq T (pending b)) bs bs2 ->
  length (all_pending bs)
  = (length (concat (map (fun b => take_eq T (pending b)) bs))
     + length (all_pending bs2))%nat.
Proof.
  unfold all_pending.
  induction 1 as [|b b' bs bs2 Hb Hbs IH]; [reflexivity|].
  cbn [map concat]. rewrite !length_app, IH, Hb.
  rewrite <- (take_drop_eq T (pending b)) at 1. rewrite length_app. lia.
Qed.

Lemma past_drop T (bs bs2 : list bufInput) :
  Forall2 (fun b b' => pending b' = drop_eq T (pending b)) bs bs2 ->
  Forall (fun b => ordered (pending b)) bs ->
  Forall (fun b => Forall (fun r => T <= ts r) (pending b)) bs ->
  past T bs2.
Proof.
  unfold past.
  induction 1 as [|b b' bs bs2 Hb Hbs IH]; intros Hord Hge; [constructor|].
  inversion Hord; subst. inversion Hge; subst.
  constructor; [|now apply IH].
  rewrite Hb. now apply drop_eq_past.
Qed.

Lemma all_pending_nil (bs : list bufInput) :
  Forall (fun b => pending b = []) bs ->
  all_pending bs = []
  /\ forall T, concat (map (fun b => take_eq T (pending b)) bs) = [].
Proof.
  unfold all_pending. induction 1 as [|b bs Hb _ [IH1 IH2]]; [split; reflexivity|].
  split; [cbn; now rewrite Hb, IH1|].
  intros T. cbn. now rewrite Hb, IH2.
Qed.

(** What one round does to inputs that are past [T]. *)
Lemma round_spec (T : Z) (bs : list bufInput) :
  0 <= T -> past T bs ->
  exists T' bs2 data,
    pick_timestamp bs = (T', map (fun b => snd (peek b)) bs)
    /\ read_inputs T' (map (fun b => snd (peek b)) bs) = (bs2, data)
    /\ ((all_pending bs = [] /\ size data = 0%nat)
        \/ (T < T' /\ size data <> 0%nat /\ past T' bs2
            /\ (length (all_pending bs2) < length (all_pending bs))%nat
            /\ (forall k, is_Some (data !! k) -> Timestamp k = T')
            /\ (forall k, k ∈ map fst (all_pending bs)
                          <-> is_Some (data !! k) \/ k ∈ map fst (all_pending bs2)))).
Proof.
  intros HT Hpast. unfold past in Hpast.
  rewrite pick_timestamp_eq.
  assert (Hpos : Forall (fun b => Forall (fun r => 0 < ts r) (pending b)) bs).
  { eapply Forall_impl; [exact Hpast|]. intros b [_ Hb]. cbn.
    eapply Forall_impl; [exact Hb|]. cbn. intros; lia. }
  pose proof (min_fold bs 0 ltac:(lia) Hpos) as Hmin.
  generalize dependent (fold_left min_step bs 0). intros T' Hmin.
  destruct (read_inputs_spec T' (map (fun b => snd (peek b)) bs)) as (bs2 & Hread & Hbs2).
  rewrite map_map in Hread.
  assert (Htaken : map (fun b => take_eq T' (pending (snd (peek b)))) bs
                   = map (fun b => take_eq T' (pending b)) bs).
  { apply map_ext. intros b. now rewrite pending_peek. }
  rewrite Htaken in Hread.
  assert (Hbs2' : Forall2 (fun b b' => pending b' = drop_eq T' (pending b)) bs bs2).
  { apply Forall2_fmap_l in Hbs2. eapply Forall2_impl; [exact Hbs2|].
    intros b b' H. cbn in H. now rewrite pending_peek in H. }
  clear Hbs2 Htaken.
  pose proof (split_keys T' bs bs2 Hbs2') as Hsplit.
  pose proof (split_length T' bs bs2 Hbs2') as Hlen.
  pose proof (round_data_ts T' bs) as Hts.
  remember (concat (map (fun b => take_eq T' (pending b)) bs)) as taken eqn:Etaken.
  exists T', bs2, (fold_left append_value taken ∅).
  split; [reflexivity|]. split; [exact Hread|].
  assert (Hkeys : forall k, is_Some (fold_left append_value taken ∅ !! k)
                            <-> k ∈ map fst taken).
  { intros k. rewrite append_value_keys, lookup_empty. split.
    - intros [[v Hv]|H]; [discriminate | exact H].
    - now right. }
  destruct Hmin as [(_ & Hnil & E0) | (HposT & _ & Hheads & Hwit)].
  - (* every input is exhausted *)
    left. destruct (all_pending_nil bs Hnil) as [Hall Htk].
    split; [exact Hall|]. rewrite Etaken, Htk. reflexivity.
  - destruct Hwit as [[Hc _] | (b0 & r0 & l0 & Hin0 & Hp0 & ET')]; [lia|].
    right.
    assert (HTT' : T < T').
    { rewrite ET'. rewrite Forall_forall in Hpast.
      destruct (Hpast b0 Hin0) as [_ Hb0]. rewrite Hp0 in Hb0.
      inversion Hb0; subst. assumption. }
    (* every pending record is at or past the timestamp of the round *)
    assert (Hge : Forall (fun b => Forall (fun r => T' <= ts r) (pending b)) bs).
    { rewrite Forall_forall in Hpast, Hheads |- *. intros b Hb.
      destruct (Hpast b Hb) as [Hord _]. specialize (Hheads b Hb).
      destruct (pending b) as [|r l]; [constructor|].
      specialize (Hheads r l eq_refl). inversion Hord as [|? ? _ Hr]; subst.
      constructor; [exact Hheads|].
      eapply Forall_impl; [exact Hr|]. cbn. intros; lia. }
    assert (Htaken0 : fst r0 ∈ map fst taken).
    { rewrite Etaken. apply list_elem_of_fmap. exists r0. split; [reflexivity|].
      apply list_elem_of_In, in_concat. exists (take_eq T' (pending b0)). split.
      - apply in_map_iff. exists b0. split; [reflexivity|]. now apply list_elem_of_In.
      - rewrite Hp0. cbn. rewrite ET', Z.eqb_refl. now left. }
    split; [exact HTT'|]. split.
    { intros Hsize. apply map_size_empty_iff in Hsize.
      apply Hkeys in Htaken0. rewrite Hsize, lookup_empty in Htaken0.
      destruct Htaken0; discriminate. }
    split.
    { apply (past_drop T' bs bs2 Hbs2'); [|exact Hge].
      eapply Forall_impl; [exact Hpast|]. now intros b [Hord _]. }
    split.
    { destruct taken as [|x taken']; [inversion Htaken0|]. simpl in Hlen. lia. }
    split.
    { intros k Hk. apply Hts. now apply Hkeys. }
    intros k. rewrite Hsplit, Hkeys. reflexivity.
Qed.

Lemma past_keys (T : Z) (bs : list bufInput) (k : Key) :
  past T bs -> k ∈ map fst (all_pending bs) -> T < Timestamp k.
Proof.
  unfold past, all_pending. intros Hpast Hk.
  apply list_elem_of_fmap in Hk as (r & -> & Hr).
  apply list_elem_of_In, in_concat in Hr as (l & Hl & Hr).
  apply in_map_iff in Hl as (b & <- & Hb).
  rewrite Forall_forall in Hpast. destruct (Hpast b) as [_ Hall].
  { now apply list_elem_of_In. }
  rewrite Forall_forall in Hall. apply Hall. now apply list_elem_of_In.
Qed.

Lemma record_round_eq keys data acc :
  record_round keys data acc = (acc ++ [keys], Done tt).
Proof. reflexivity. Qed.

(** The rounds of the outer loop on inputs that are past [T]. *)
Lemma rounds_loop : forall (n : nat) (bs : list bufInput) (T : Z) (acc : list (list Key)),
  0 <= T -> past T bs ->
  (length (all_pending bs) < n)%nat ->
  exists ext tss,
    run_loop n record_round bs acc = (acc ++ ext, Done true)
    /\ Forall2 (fun t keys => keys <> [] /\ Forall (fun k => Timestamp k = t) keys)
               tss ext
    /\ StronglySorted Z.lt tss
    /\ Forall (fun t => T < t) tss
    /\ StronglySorted key_lt (concat ext)
    /\ (forall k, k ∈ concat ext <-> k ∈ map fst (all_pending bs)).
Proof.
  induction n as [|n IH]; intros bs T acc HT Hpast Hn; [lia|].
  cbn [run_loop].
  destruct (round_spec T bs HT Hpast) as (T' & bs2 & data & -> & Hread & Hround).
  pose proof (ReducerFacts.round_keys_sorted T' (map (fun b => snd (peek b)) bs)) as Hsorted.
  rewrite Hread in *. cbn [snd] in Hsorted.
  destruct Hround as [[Hall Hsize] | (HTT' & Hsize & Hpast2 & Hlen & Hts & Hsplit)].
  - rewrite Hsize. cbn [Z.of_nat Z.eqb]. exists [], [].
    rewrite app_nil_r, Hall. repeat split; try constructor.
    + intros H; inversion H.
    + intros H; inversion H.
  - replace (Z.of_nat (size data) =? 0) with false by (symmetry; apply Z.eqb_neq; lia).
    rewrite record_round_eq.
    destruct (IH bs2 T' (acc ++ [sorted_keys data]) ltac:(lia) Hpast2 ltac:(lia))
      as (ext & tss & -> & Hext & Htss & Hlow & Hkeys & Hmem).
    exists (sorted_keys data :: ext), (T' :: tss). rewrite <- app_assoc.
    destruct Hsorted as [Hround_ts Hround_sorted].
    split; [reflexivity|]. split; [|split; [|split; [|split]]].
    + constructor; [|exact Hext]. split; [|exact Hround_ts].
      intros Hnil.
      destruct (map_choose data) as (k & v & Hkv).
      { intros ->. apply Hsize. apply map_size_empty. }
      assert (Hk : k ∈ sorted_keys data) by (apply sorted_keys_elem; eauto).
      rewrite Hnil in Hk. inversion Hk.
    + constructor; assumption.
    + constructor; [exact HTT'|].
      eapply Forall_impl; [exact Hlow|]. cbn. intros; lia.
    + cbn [concat]. apply StronglySorted_app_intro.
      * now apply (round_key_lt T').
      * exact Hkeys.
      * intros a b Ha Hb. left.
        rewrite Forall_forall in Hround_ts. rewrite (Hround_ts a Ha).
        apply (past_keys T' bs2); [exact Hpast2 | now apply Hmem].
    + intros k. cbn [concat]. rewrite elem_of_app, Hmem, Hsplit, sorted_keys_elem.
      reflexivity.
Qed.

(** The rounds of the outer loop on any inputs: every round is in tagset
    order under one timestamp. *)
Lemma any_rounds : forall (n : nat) (bs : list bufInput) (acc : list (list Key)),
  exists ext fin,
    run_loop n record_round bs acc = (acc ++ ext, Done fin)
    /\ Forall (fun keys =>
                 exists t, Forall (fun k => Timestamp k = t) keys
                           /\ StronglySorted (fun a b => valuesLess a b = true) keys)
              ext.
Proof.
  induction n as [|n IH]; intros bs acc; cbn [run_loop].
  - exists [], false. rewrite app_nil_r. split; [reflexivity | constructor].
  - destruct (pick_timestamp bs) as [timestamp bs1].
    pose proof (ReducerFacts.round_keys_sorted timestamp bs1) as Hsorted.
    destruct (read_inputs timestamp bs1) as [bs2 data]. cbn [snd] in Hsorted.
    destruct (Z.of_nat (size data) =? 0).
    + exists [], true. rewrite app_nil_r. split; [reflexivity | constructor].
    + rewrite record_round_eq.
      destruct (IH bs2 (acc ++ [sorted_keys data])) as (ext & fin & -> & Hext).
      exists (sorted_keys data :: ext), fin. rewrite <- app_assoc.
      split; [reflexivity|]. constructor; [|exact Hext].
      exists timestamp. exact Hsorted.
Qed.

End MergeFacts.

(** X14. Whatever its inputs hold and however long it is observed, every
    round of [Reducer.run] reduces keys that share one timestamp, in
    strictly increasing order of their tagsets, so that within a round
    no key comes twice. *)
Theorem reducer_round_in_tagset_order (fuel : nat) (inputs : list (list Record_)) :
  Forall (fun keys =>
            exists t, Forall (fun k => Timestamp k = t) keys
                      /\ StronglySorted (fun a b => ReducerSpec.valuesLess a b = true) keys)
         (fst (ReducerRun.rounds fuel inputs)).
Proof.
  unfold ReducerRun.rounds.
  destruct (MergeFacts.any_rounds fuel (map (mkBufInput None) inputs) [])
    as (ext & fin & -> & Hext).
  exact Hext.
Qed.

(** X15. The merge of [Reducer.run] on inputs whose timestamps are
    positive and do not decrease within an input (what Mappers send when
    no window starts at 0): the loop ends; its rounds are not empty, each
    one holds the keys of one timestamp and the timestamps of the rounds
    increase strictly; so the keys are reduced in strictly increasing
    order of (timestamp, tagset); and the keys reduced are the keys
    received, none left out and none made up. *)
Theorem reducer_merges_in_key_order (inputs : list (list Record_)) :
  Forall (fun input => Forall (fun r => 0 < ReducerMergeSpec.ts r) input
                       /\ ReducerMergeSpec.ordered input) inputs ->
  exists fuel rs tss,
    ReducerRun.rounds fuel inputs = (rs, Done true)
    /\ Forall2 (fun t keys => keys <> [] /\ Forall (fun k => Timestamp k = t) keys) tss rs
    /\ StronglySorted Z.lt tss
    /\ StronglySorted ReducerMergeSpec.key_lt (concat rs)
    /\ (forall k, k ∈ concat rs <-> k ∈ map fst (concat inputs)).
Proof.
  intros Hin. unfold ReducerRun.rounds.
  set (bs := map (mkBufInput None) inputs).
  assert (Hall : ReducerMergeSpec.all_pending bs = concat inputs).
  { unfold ReducerMergeSpec.all_pending, bs. rewrite map_map. cbn.
    now rewrite map_id. }
  assert (Hpast : ReducerMergeSpec.past 0 bs).
  { unfold ReducerMergeSpec.past, bs. apply Forall_map.
    eapply Forall_impl; [exact Hin|]. intros input [Hpos Hord]. cbn. split; assumption. }
  destruct (MergeFacts.rounds_loop (S (length (concat inputs))) bs 0 [] ltac:(lia) Hpast)
    as (ext & tss & Hrun & Hext & Htss & _ & Hkeys & Hmem).
  { rewrite Hall. lia. }
  exists (S (length (concat inputs))), ext, tss. rewrite Hrun.
  split; [reflexivity|]. split; [exact Hext|]. split; [exact Htss|].
  split; [exact Hkeys|]. intros k. now rewrite Hmem, Hall.
Qed.

Lemma reducer_merges_in_key_order_witness :
  exists fuel rs tss,
    ReducerRun.rounds fuel
      [[(mkKey 10 "a", VFloat 1%float); (mkKey 20 "a", VFloat 2%float)];
       [(mkKey 10 "b", VFloat 3%float); (mkKey 30 "b", VFloat 4%float)]]
    = (rs, Done true)
    /\ Forall2 (fun t keys => keys <> [] /\ Forall (fun k => Timestamp k = t) keys) tss rs
    /\ StronglySorted Z.lt tss
    /\ StronglySorted ReducerMergeSpec.key_lt (concat rs)
    /\ (forall k, k ∈ concat rs
                  <-> k ∈ map fst (concat
                        [[(mkKey 10 "a", VFloat 1%float); (mkKey 20 "a", VFloat 2%float)];
                         [(mkKey 10 "b", VFloat 3%float); (mkKey 30 "b", VFloat 4%float)]])).
Proof.
  apply (reducer_merges_in_key_order
           [[(mkKey 10 "a", VFloat 1%float); (mkKey 20 "a", VFloat 2%float)];
            [(mkKey 10 "b", VFloat 3%float); (mkKey 30 "b", VFloat 4%float)]]).
  unfold ReducerMergeSpec.ordered, ReducerMergeSpec.ts.
  repeat (constructor; cbn; try lia).
Defined.

(** ** The binary expression evaluator *)

Module binaryRunFacts.

Import binaryExprEvaluator binaryExprEvaluatorRun binaryExprSpec.

Lemma eval_floats op l r :
  op <> OtherToken -> eval op (VFloat l) (VFloat r) = Done (VFloat (arith op l r)).
Proof.
  intros Hop. destruct op; try contradiction; try reflexivity.
  unfold eval, arith. cbn [asFloat mbind outcome_bind obind].
  destruct (Float64.eqb r Float64.zero); reflexivity.
Qed.

Lemma ofoldl_Done {A B} (f : A -> B -> outcome A) (l : list B) : forall a,
  (forall a x, x ∈ l -> exists a', f a x = Done a') ->
  exists a', ofoldl f l a = Done a'.
Proof.
  induction l as [|x l IH]; intros a Hf; cbn [ofoldl]; [eauto|].
  destruct (Hf a x) as [a' ->]; [apply list_elem_of_here|].
  cbn. apply IH. intros a0 y Hy. apply Hf. now apply list_elem_of_further.
Qed.

(** With floats on both sides and every key of the left batch in the
    right batch the round does not panic. *)
Lemma merge_Done op (fl fr : gmap Key float) :
  op <> OtherToken ->
  (forall k, is_Some (fl !! k) -> is_Some (fr !! k)) ->
  exists m, merge op (batch fl) (batch fr) = Done m.
Proof.
  intros Hop Hdom.
  assert (H1 : exists m1, lhs_loop op (batch fr) (map_to_list (batch fl)) ∅ = Done m1).
  { unfold lhs_loop, batch. apply ofoldl_Done.
    intros a [k v] Hkv. apply elem_of_map_to_list in Hkv.
    rewrite lookup_fmap in Hkv. destruct (fl !! k) as [l|] eqn:El; [|discriminate].
    injection Hkv as <-. destruct (Hdom k) as [r Hr]; [eauto|].
    cbn [fst snd]. rewrite lookup_fmap, Hr.
    change (default VNil (VFloat <$> Some r)) with (VFloat r).
    rewrite eval_floats by exact Hop. cbn. eauto. }
  destruct H1 as [m1 Hm1]. unfold merge. rewrite Hm1.
  cbn [mbind outcome_bind obind].
  unfold rhs_loop, batch. apply ofoldl_Done.
  intros a [k v] Hkv. apply elem_of_map_to_list in Hkv.
  rewrite lookup_fmap in Hkv. destruct (fr !! k) as [r|] eqn:Er; [|discriminate].
  injection Hkv as <-. cbn [fst snd].
  destruct (a !! k); [eauto|].
  rewrite eval_floats by exact Hop. cbn. eauto.
Qed.

Lemma merge_floats op (fl fr : gmap Key float) :
  op <> OtherToken ->
  (forall k, is_Some (fl !! k) -> is_Some (fr !! k)) ->
  merge op (batch fl) (batch fr) = Done (batch (merged op fl fr)).
Proof.
  intros Hop Hdom. destruct (merge_Done op fl fr Hop Hdom) as [m Hm].
  rewrite Hm. f_equal.
  destruct (binaryExprFacts.merge_spec op _ _ m Hm) as (Hl & Hr & Hnone).
  apply map_eq. intros k. unfold batch, merged in *.
  rewrite lookup_fmap, map_lookup_imap.
  destruct (fr !! k) as [r|] eqn:Er; cbn.
  - destruct (fl !! k) as [l|] eqn:El; cbn.
    + destruct (Hl k (VFloat l)) as (x & Hx & ->); [now rewrite lookup_fmap, El|].
      rewrite lookup_fmap, Er in Hx. cbn in Hx.
      rewrite eval_floats in Hx by exact Hop. congruence.
    + destruct (Hr k (VFloat r)) as (x & Hx & ->);
        [now rewrite lookup_fmap, El | now rewrite lookup_fmap, Er |].
      rewrite eval_floats in Hx by exact Hop. congruence.
  - apply Hnone; rewrite lookup_fmap.
    + destruct (fl !! k) as [l|] eqn:El; [|reflexivity].
      destruct (Hdom k) as [r Hr']; [eauto | congruence].
    + now rewrite Er.
Qed.

End binaryRunFacts.

(** X16. One round of the binary expression evaluator on batches of
    floats, for the four arithmetic operators: when every key of the left
    batch is a key of the right batch the round does not panic, and the
    batch sent holds exactly the keys of the right batch, each with
    [op(L[k], R[k])], or [op(0, R[k])] where the left batch lacks the
    key (a division by a zero yields 0). *)
Theorem merge_on_floats (op : Token) (fl fr : gmap Key float) :
  op <> OtherToken ->
  (forall k, is_Some (fl !! k) -> is_Some (fr !! k)) ->
  binaryExprEvaluatorRun.merge op (binaryExprSpec.batch fl) (binaryExprSpec.batch fr)
  = Done (binaryExprSpec.batch (binaryExprSpec.merged op fl fr))
  /\ forall k, binaryExprSpec.merged op fl fr !! k
               = match fr !! k with
                 | Some r =>
                     Some (binaryExprSpec.arith op (default Float64.zero (fl !! k)) r)
                 | None => None
                 end.
Proof.
  intros Hop Hdom. split; [now apply binaryRunFacts.merge_floats|].
  intros k. unfold binaryExprSpec.merged. rewrite map_lookup_imap.
  destruct (fr !! k); reflexivity.
Qed.

Lemma merge_on_floats_witness :
  binaryExprEvaluatorRun.merge SUB
    (binaryExprSpec.batch {[ mkKey 10 "a" := 6%float ]})
    (binaryExprSpec.batch {[ mkKey 10 "a" := 2%float; mkKey 10 "b" := 5%float ]})
  = Done (binaryExprSpec.batch
            (binaryExprSpec.merged SUB {[ mkKey 10 "a" := 6%float ]}
               {[ mkKey 10 "a" := 2%float; mkKey 10 "b" := 5%float ]}))
  /\ forall k, binaryExprSpec.merged SUB {[ mkKey 10 "a" := 6%float ]}
                 {[ mkKey 10 "a" := 2%float; mkKey 10 "b" := 5%float ]} !! k
               = match ({[ mkKey 10 "a" := 2%float; mkKey 10 "b" := 5%float ]}
                          : gmap Key float) !! k with
                 | Some r =>
                     Some (binaryExprSpec.arith SUB
                             (default Float64.zero
                                (({[ mkKey 10 "a" := 6%float ]} : gmap Key float) !! k)) r)
                 | None => None
                 end.
Proof.
  apply (merge_on_floats SUB {[ mkKey 10 "a" := 6%float ]}
           {[ mkKey 10 "a" := 2%float; mkKey 10 "b" := 5%float ]}).
  - discriminate.
  - intros k [v Hv]. apply lookup_singleton_Some in Hv as [<- _].
    rewrite lookup_insert_eq. eauto.
Defined.

(** X17. The evaluator pairs the batches of its two children in the
    order they come and stops when either channel is closed: on batches
    of floats where every left key is a right key, it sends one batch for
    each pair, the one of X16, and nothing for the batches that have no
    partner. *)
Theorem run_pairs_batches (op : Token) (lhsC rhsC : list (gmap Key float)) :
  op <> OtherToken ->
  Forall2 (fun fl fr => forall k, is_Some (fl !! k) -> is_Some (fr !! k))
          (take (length rhsC) lhsC) (take (length lhsC) rhsC) ->
  binaryExprEvaluatorRun.run op (map binaryExprSpec.batch lhsC)
                                (map binaryExprSpec.batch rhsC)
  = (map binaryExprSpec.batch (zip_with (binaryExprSpec.merged op) lhsC rhsC), Done tt).
Proof.
  intros Hop. revert rhsC.
  induction lhsC as [|fl lhsC IH]; intros [|fr rhsC] Hdom; try reflexivity.
  cbn [length take] in Hdom. inversion Hdom as [|? ? ? ? Hd Hrest]; subst.
  cbn [map binaryExprEvaluatorRun.run zip_with].
  rewrite binaryRunFacts.merge_floats by assumption.
  rewrite (IH rhsC Hrest). reflexivity.
Qed.

Lemma run_pairs_batches_witness :
  binaryExprEvaluatorRun.run ADD
    (map binaryExprSpec.batch [{[ zeroKey := 1%float ]}; {[ zeroKey := 2%float ]}])
    (map binaryExprSpec.batch
       [{[ zeroKey := 5%float ]}; {[ zeroKey := 5%float ]}; {[ zeroKey := 5%float ]}])
  = (map binaryExprSpec.batch
       (zip_with (binaryExprSpec.merged ADD)
          [{[ zeroKey := 1%float ]}; {[ zeroKey := 2%float ]}]
          [{[ zeroKey := 5%float ]}; {[ zeroKey := 5%float ]}; {[ zeroKey := 5%float ]}]),
     Done tt).
Proof.
  apply (run_pairs_batches ADD [{[ zeroKey := 1%float ]}; {[ zeroKey := 2%float ]}]
           [{[ zeroKey := 5%float ]}; {[ zeroKey := 5%float ]}; {[ zeroKey := 5%float ]}]).
  - discriminate.
  - cbn [length take].
    repeat (constructor;
            [intros k [v Hv]; apply lookup_singleton_Some in Hv as [<- _];
             rewrite lookup_singleton_eq; eauto|]).
    constructor.
Defined.

(** ** The planner *)

Module PlanFacts.

Import Planner.

Section WithExternals.

Context {X : Externals}.

(** A field that is a bare variable reference makes the loop over the
    fields fail, once the fields before it are planned. *)
Lemma planFields_raw_field (e : Executor X) (pre : list Expr) : forall ps v post,
  planFields e pre = Planned ps ->
  planFields e (pre ++ VarRef v :: post) = Failed ErrRawMixed.
Proof.
  induction pre as [|f pre IH]; intros ps v post Hpre; [reflexivity|].
  cbn [planFields app] in *.
  destruct (planExpr e f) as [p|err|c]; try discriminate.
  destruct (planFields e pre) as [ps'|err|c] eqn:E; try discriminate.
  now rewrite (IH ps' v post eq_refl).
Qed.

End WithExternals.

End PlanFacts.

(** X18. The arity check of [planCall] compares the name as it is written
    and the lookup compares it in lower case: a call to percentile
    written with an upper-case letter and one field argument passes the
    check for the other functions and then panics with an index out of
    range when the lookup reads its second argument. *)
Theorem planCall_percentile_other_case
    (X : Externals) (e : Executor X) (name ref : string)
    (sub : Statement X) (itrs : list Iterator) :
  name <> "percentile"%string ->
  ToLower X name = "percentile"%string ->
  Substatement X (stmt e) ref = inl sub ->
  CreateIterators X sub = inl itrs ->
  Planner.planCall e name [VarRef ref] = Crashed IndexOutOfRange.
Proof.
  intros Hname Hlower Hsub Hitrs. unfold Planner.planCall.
  destruct (String.eqb_spec name "percentile") as [|_]; [contradiction|].
  cbn [andb negb len length Z.of_nat Z.eqb Pos.eqb nth_error].
  rewrite Hsub, Hitrs. unfold Planner.lookup. rewrite Hlower. reflexivity.
Qed.

Lemma planCall_percentile_other_case_witness :
  Planner.planCall (demo_executor []) "Percentile" [VarRef "v"] = Crashed IndexOutOfRange.
Proof.
  apply (planCall_percentile_other_case demo (demo_executor []) "Percentile" "v"
           ([] : Statement demo) [mkIterator [] ""]);
    [discriminate | reflexivity | reflexivity | reflexivity].
Defined.

(** X19. [Plan] decides on the first field alone whether a statement is a
    raw query. When the first field is a variable reference it plans one
    raw reducer and does not look at the other fields, aggregates or not;
    when the first field is not one, a variable reference further on
    makes it fail with the error of a raw field mixed with an aggregate,
    once the fields before it are planned. *)
Theorem Plan_raw_by_first_field
    (X : Externals) (statement : Statement X) (ival : Z) (tags : list string) :
  Begin X = None ->
  Normalize X (prepare X statement) = inl (ival, tags) ->
  (forall v rest itrs n,
     Fields X (prepare X statement) = VarRef v :: rest ->
     CreateIterators X (prepare X statement) = inl itrs ->
     FieldIDs X (prepare X statement) = None ->
     measurementName X (prepare X statement) = Some n ->
     Planner.Plan statement
     = Planned [ReducerProcessor (lastIdent X n) AggRawQuery itrs ival true])
  /\ (forall f pre v post ps,
        Fields X (prepare X statement) = (f :: pre) ++ VarRef v :: post ->
        (forall w, f <> VarRef w) ->
        Planner.planFields (mkExecutor (prepare X statement) ival tags) (f :: pre)
        = Planned ps ->
        Planner.Plan statement = Failed ErrRawMixed).
Proof.
  intros HB HN. split.
  - intros v rest itrs n HF HC HI HM. unfold Planner.Plan. rewrite HB, HN, HF.
    unfold Planner.planRawQuery. cbn [stmt einterval]. now rewrite HC, HI, HM.
  - intros f pre v post ps HF Hf Hpre. unfold Planner.Plan. rewrite HB, HN, HF.
    rewrite <- app_comm_cons.
    destruct f; try (exfalso; eapply Hf; reflexivity);
      rewrite app_comm_cons;
      apply (PlanFacts.planFields_raw_field _ _ ps); exact Hpre.
Qed.

Lemma Plan_raw_by_first_field_witness :
  Planner.Plan (X := demo) [VarRef "v"; Call "count" [VarRef "w"]]
    = Planned [ReducerProcessor "cpu" AggRawQuery [mkIterator [] ""] 0 true]
  /\ Planner.Plan (X := demo) [Call "count" [VarRef "w"]; VarRef "v"]
     = Failed ErrRawMixed.
Proof.
  destruct (Plan_raw_by_first_field demo
              ([VarRef "v"; Call "count" [VarRef "w"]] : Statement demo) 0 []
              eq_refl eq_refl) as [Hraw _].
  destruct (Plan_raw_by_first_field demo
              ([Call "count" [VarRef "w"]; VarRef "v"] : Statement demo) 0 []
              eq_refl eq_refl) as [_ Hmixed].
  split.
  - apply (Hraw "v"%string [Call "count" [VarRef "w"]] [mkIterator [] ""] "cpu"%string);
      reflexivity.
  - apply (Hmixed (Call "count" [VarRef "w"]) [] "v"%string []
             [ReducerProcessor "cpu" AggCount [mkIterator [] ""] 0 false]);
      [reflexivity | discriminate | reflexivity].
Defined.

(** ** Rows *)

Module RowsVisitFacts.

Import Rows RowsVisit.

Lemma ltb_empty s : String.ltb s EmptyString = false.
Proof. destruct s; reflexivity. Qed.

Lemma insert_by_empty (l : list string) :
  insert_by String.ltb EmptyString l = EmptyString :: l.
Proof. destruct l as [|y l]; cbn; [reflexivity|]. now rewrite ltb_empty. Qed.

Lemma sort_by_app {A} (less : A -> A -> bool) (l1 l2 : list A) :
  sort_by less (l1 ++ l2) = fold_right (insert_by less) (sort_by less l2) l1.
Proof. unfold sort_by. now rewrite fold_right_app. Qed.

(** The empty strings the slice starts with stay in front. *)
Lemma sort_by_padding (n : nat) (l : list string) :
  sort_by String.ltb (repeat EmptyString n ++ l)
  = repeat EmptyString n ++ sort_by String.ltb l.
Proof.
  rewrite sort_by_app. induction n as [|n IH]; cbn; [reflexivity|].
  now rewrite IH, insert_by_empty.
Qed.

Lemma sort_by_ltb_sorted (l : list string) :
  StronglySorted (not_after String.ltb) (sort_by String.ltb l).
Proof.
  apply sort_by_sorted.
  - intros x y. apply StringOrder.ltb_asym.
  - intros x y z. unfold not_after. apply StringOrder.not_ltb_trans.
Qed.

(** A list of strings has one sorted arrangement. *)
Lemma sorted_unique (l1 : list string) : forall l2,
  StronglySorted (not_after String.ltb) l1 ->
  StronglySorted (not_after String.ltb) l2 ->
  Permutation l1 l2 -> l1 = l2.
Proof.
  induction l1 as [|a l1 IH]; intros l2 H1 H2 HP.
  - apply Permutation_nil in HP. now subst.
  - destruct l2 as [|b l2]; [symmetry in HP; apply Permutation_nil in HP; discriminate|].
    inversion H1 as [|? ? H1' Ha]; subst. inversion H2 as [|? ? H2' Hb]; subst.
    assert (Hab : a = b).
    { assert (Hina : a ∈ b :: l2) by (rewrite <- HP; apply list_elem_of_here).
      assert (Hinb : b ∈ a :: l1) by (rewrite HP; apply list_elem_of_here).
      apply elem_of_cons in Hina as [E|Hina]; [exact E|].
      apply elem_of_cons in Hinb as [E|Hinb]; [now symmetry|].
      rewrite Forall_forall in Ha, Hb.
      specialize (Ha b Hinb). specialize (Hb a Hina). unfold not_after in *.
      now apply StringOrder.ltb_connex. }
    subst b. f_equal. apply IH; try assumption.
    now apply Permutation_cons_inv in HP.
Qed.

Lemma sort_by_ltb_perm (l1 l2 : list string) :
  Permutation l1 l2 -> sort_by String.ltb l1 = sort_by String.ltb l2.
Proof.
  intros HP. apply sorted_unique; try apply sort_by_ltb_sorted.
  rewrite !sort_by_perm. exact HP.
Qed.

(** Writing an empty key that has no value leaves the hash state as it
    is. *)
Lemma hash_padding (r : Row) (n : nat) (keys : list string) : forall h,
  Tags r !! EmptyString = None ->
  fold_left
    (fun h k =>
       let h1 := Fnv64a.Write h (Tagset.bytes_of k) in
       Fnv64a.Write h1 (Tagset.bytes_of (default EmptyString (Tags r !! k))))
    (repeat EmptyString n ++ keys) h
  = fold_left
      (fun h k =>
         let h1 := Fnv64a.Write h (Tagset.bytes_of k) in
         Fnv64a.Write h1 (Tagset.bytes_of (default EmptyString (Tags r !! k))))
      keys h.
Proof.
  intros h Hnone. induction n as [|n IH]; [reflexivity|].
  cbn [repeat app fold_left]. rewrite Hnone. exact IH.
Qed.

Lemma normalize_values_timestamped values n rest :
  values = VInt n :: rest ->
  ExecutorSend.normalize_values values = Done (normalized_values values).
Proof. now intros ->. Qed.

Lemma normalize_row_timestamped row :
  RowsSpec.timestamped row -> ExecutorSend.normalize_row row = Done (normalized row).
Proof.
  unfold RowsSpec.timestamped, ExecutorSend.normalize_row, normalized. intros Hrow.
  assert (G : forall l acc,
            Forall (fun values => exists n rest, values = VInt n :: rest) l ->
            ofoldl (fun acc values =>
                      v ← ExecutorSend.normalize_values values; Done (acc ++ [v]))
                   l acc = Done (acc ++ map normalized_values l)).
  { induction l as [|values l IH]; intros acc Hall; cbn [ofoldl map].
    - now rewrite app_nil_r.
    - inversion Hall as [|? ? (n & rest & E) Hall']; subst.
      cbn [ExecutorSend.normalize_values mbind outcome_bind obind].
      rewrite IH by exact Hall'. now rewrite <- app_assoc. }
  rewrite (G _ [] Hrow). reflexivity.
Qed.

End RowsVisitFacts.

(** X20. [Row.tagsKeys] returns twice as many strings as the row has
    tags: the slice is made with [len(r.Tags)] empty strings and the keys
    are appended to it, so after the sort it holds these empty strings
    followed by the keys in increasing order; and the result is the same
    in whatever order [range] visits the tags. *)
Theorem tagsKeys_padded_and_sorted (r : Row) :
  Rows.tagsKeys r
  = repeat EmptyString (size (Tags r)) ++ sort_by String.ltb (RowsVisit.keys_of r)
  /\ length (Rows.tagsKeys r) = (2 * size (Tags r))%nat
  /\ StronglySorted (fun a b => String.ltb b a = false) (Rows.tagsKeys r)
  /\ forall visit, Permutation visit (RowsVisit.keys_of r) ->
                   RowsVisit.tagsKeys_visiting r visit = Rows.tagsKeys r.
Proof.
  unfold Rows.tagsKeys, RowsVisit.tagsKeys_visiting, RowsVisit.keys_of.
  split; [apply RowsVisitFacts.sort_by_padding|]. split.
  - rewrite (Permutation_length (sort_by_perm _ _)), length_app, repeat_length,
      length_map, length_map_to_list. lia.
  - split; [apply RowsVisitFacts.sort_by_ltb_sorted|].
    intros visit HP. apply RowsVisitFacts.sort_by_ltb_perm.
    now apply Permutation_app_head.
Qed.

(** X21. The empty strings in front of the keys do not show in the hash
    of a row that has no empty tag key: [Row.tagsHash] is the FNV-1a
    state after writing each key, in increasing order, followed by its
    value; so it is a function of the tags alone and the same in whatever
    order [range] visits them. *)
Theorem tagsHash_of_sorted_tags (r : Row) :
  Tags r !! EmptyString = None ->
  Rows.tagsHash r = RowsVisit.hash_over r (sort_by String.ltb (RowsVisit.keys_of r))
  /\ forall visit, Permutation visit (RowsVisit.keys_of r) ->
       RowsVisit.hash_over r (RowsVisit.tagsKeys_visiting r visit) = Rows.tagsHash r.
Proof.
  intros Hnone.
  assert (E : Rows.tagsHash r
              = RowsVisit.hash_over r (sort_by String.ltb (RowsVisit.keys_of r))).
  { unfold Rows.tagsHash, RowsVisit.hash_over, Rows.tagsKeys, RowsVisit.keys_of.
    rewrite RowsVisitFacts.sort_by_padding.
    now apply RowsVisitFacts.hash_padding. }
  split; [exact E|].
  intros visit HP. unfold RowsVisit.tagsKeys_visiting.
  rewrite (RowsVisitFacts.sort_by_ltb_perm _ (repeat EmptyString (size (Tags r))
                                                ++ RowsVisit.keys_of r))
    by now apply Permutation_app_head.
  reflexivity.
Qed.

Lemma tagsHash_of_sorted_tags_witness :
  Rows.tagsHash (row_host "A" 10)
    = RowsVisit.hash_over (row_host "A" 10)
        (sort_by String.ltb (RowsVisit.keys_of (row_host "A" 10)))
  /\ forall visit, Permutation visit (RowsVisit.keys_of (row_host "A" 10)) ->
       RowsVisit.hash_over (row_host "A" 10)
         (RowsVisit.tagsKeys_visiting (row_host "A" 10) visit)
       = Rows.tagsHash (row_host "A" 10).
Proof.
  apply (tagsHash_of_sorted_tags (row_host "A" 10)). reflexivity.
Defined.

(** X22. The end of [Executor.execute] on rows whose value arrays all
    start with an [int64] timestamp: it does not panic and sends every
    row of the map once, its name, tags and columns as they are and each
    timestamp converted to a time, in the order of [Rows.Less]. *)
Theorem send_sends_every_row (rows : gmap string Row) :
  map_Forall (fun _ row => RowsSpec.timestamped row) rows ->
  exists out,
    ExecutorSend.send rows = Done out
    /\ Permutation out (map RowsVisit.normalized (map snd (map_to_list rows)))
    /\ StronglySorted RowsSpec.le_name_hash out.
Proof.
  intros Hrows. unfold ExecutorSend.send.
  assert (Hl : Forall RowsSpec.timestamped (map snd (map_to_list rows))).
  { apply Forall_forall. intros row Hin.
    apply list_elem_of_fmap in Hin as ([k r] & -> & Hin).
    apply elem_of_map_to_list in Hin. exact (Hrows k r Hin). }
  assert (G : forall l acc, Forall RowsSpec.timestamped l ->
            ofoldl (fun a row => r ← ExecutorSend.normalize_row row; Done (a ++ [r]))
                   l acc = Done (acc ++ map RowsVisit.normalized l)).
  { induction l as [|row l IH]; intros acc Hall; cbn [ofoldl map].
    - now rewrite app_nil_r.
    - inversion Hall as [|? ? Hrow Hall']; subst.
      rewrite RowsVisitFacts.normalize_row_timestamped by exact Hrow.
      cbn [mbind outcome_bind obind]. rewrite IH by exact Hall'.
      now rewrite <- app_assoc. }
  rewrite (G _ [] Hl). cbn [mbind outcome_bind obind app].
  eexists. split; [reflexivity|]. split.
  - apply sort_by_perm.
  - apply RowsFacts.sort_by_Less_sorted.
Qed.

Lemma send_sends_every_row_witness :
  exists out,
    ExecutorSend.send two_rows = Done out
    /\ Permutation out (map RowsVisit.normalized (map snd (map_to_list two_rows)))
    /\ StronglySorted RowsSpec.le_name_hash out.
Proof.
  apply (send_sends_every_row two_rows).
  intros k row Hk. unfold two_rows in Hk.
  apply lookup_insert_Some in Hk as [[_ <-] | [_ Hk]].
  - repeat constructor. eexists _, _. reflexivity.
  - apply lookup_singleton_Some in Hk as [_ <-].
    repeat constructor. eexists _, _. reflexivity.
Defined.

(** ** Row assembly *)

Module RowAssemblyFacts.

Import RowAssembly.

Lemma nth_error_lookup {A} (l : list A) : forall i, nth_error l i = l !! i.
Proof. induction l as [|x l IH]; intros [|i]; cbn; auto. Qed.

Lemma index_lookup {A} (l : list A) (i : nat) (x : A) :
  l !! i = Some x -> Catalog.index l (Z.of_nat i) = Done x.
Proof.
  intros Hi. unfold Catalog.index.
  assert (Hlt : (i < length l)%nat) by (eapply lookup_lt_Some; exact Hi).
  replace ((Z.of_nat i <? 0) || (len l <=? Z.of_nat i)) with false.
  - now rewrite Nat2Z.id, nth_error_lookup, Hi.
  - symmetry. apply orb_false_iff. split; [apply Z.ltb_ge; lia|].
    apply Z.leb_gt. unfold len. lia.
Qed.

Lemma index_beyond {A} (l : list A) (i : nat) :
  (length l <= i)%nat -> Catalog.index l (Z.of_nat i) = Panicked IndexOutOfRange.
Proof.
  intros Hi. unfold Catalog.index.
  replace ((Z.of_nat i <? 0) || (len l <=? Z.of_nat i)) with true; [reflexivity|].
  symmetry. apply orb_true_iff. right. apply Z.leb_le. unfold len. lia.
Qed.

Lemma ofoldl_app {A B} (f : A -> B -> outcome A) (l1 l2 : list B) (a : A) :
  ofoldl f (l1 ++ l2) a = (a' ← ofoldl f l1 a; ofoldl f l2 a').
Proof.
  revert a. induction l1 as [|x l1 IH]; intros a; cbn [ofoldl app]; [reflexivity|].
  destruct (f a x) as [a'|p]; cbn; [apply IH | reflexivity].
Qed.

(** The loop that fills the tag map, when there are tag keys enough. *)
Lemma tags_loop (tags : list string) (vs : list string) :
  (length vs <= length tags)%nat ->
  NoDup (take (length vs) tags) ->
  exists m : gmap string string,
    ofoldl (fun m iv =>
              k ← Catalog.index tags (Z.of_nat (fst iv));
              Done (<[k := snd iv]> m))
           (imap pair vs) ∅ = Done m
    /\ forall k v, m !! k = Some v <-> exists i : nat, tags !! i = Some k /\ vs !! i = Some v.
Proof.
  induction vs as [|x vs IH] using rev_ind; intros Hlen Hnd.
  - exists ∅. split; [reflexivity|]. intros k v. rewrite lookup_empty. split.
    + discriminate.
    + intros (i & _ & H). discriminate.
  - rewrite length_app in Hlen, Hnd. cbn [length] in Hlen, Hnd.
    destruct IH as (m & Hm & Hlook); [lia | |].
    { replace (length vs) with (Nat.min (length vs) (length vs + 1)) by lia.
      rewrite <- take_take. eapply sublist_NoDup; [exact Hnd | apply sublist_take]. }
    destruct (lookup_lt_is_Some_2 tags (length vs)) as [kn Hkn]; [lia|].
    rewrite imap_app, ofoldl_app, Hm. cbn [imap ofoldl mbind outcome_bind obind fst snd].
    rewrite Nat.add_0_r, (index_lookup _ _ _ Hkn). cbn [mbind outcome_bind obind].
    eexists. split; [reflexivity|].
    intros k v. destruct (decide (kn = k)) as [<-|Hne].
    + rewrite lookup_insert_eq. split.
      * intros [= <-]. exists (length vs). split; [exact Hkn|].
        rewrite lookup_app_r by lia. now rewrite Nat.sub_diag.
      * intros (i & Hi & Hv).
        assert (Hilt : (i < length vs + 1)%nat).
        { apply lookup_lt_Some in Hv. rewrite length_app in Hv. cbn in Hv. lia. }
        assert (i = length vs).
        { eapply (NoDup_lookup (take (length vs + 1) tags)); [exact Hnd | |].
          - rewrite lookup_take_lt by lia. exact Hi.
          - rewrite lookup_take_lt by lia. exact Hkn. }
        subst i. rewrite lookup_app_r in Hv by lia.
        rewrite Nat.sub_diag in Hv. cbn in Hv. congruence.
    + rewrite lookup_insert_ne by exact Hne. rewrite Hlook. split.
      * intros (i & Hi & Hv). exists i. split; [exact Hi|].
        rewrite lookup_app_l; [exact Hv | eapply lookup_lt_Some; exact Hv].
      * intros (i & Hi & Hv). exists i. split; [exact Hi|].
        destruct (decide (i < length vs)%nat) as [Hlt|Hge].
        -- now rewrite lookup_app_l in Hv by exact Hlt.
        -- exfalso. apply lookup_lt_Some in Hv as Hilt. rewrite length_app in Hilt.
           cbn in Hilt. assert (i = length vs) by lia. subst i. congruence.
Qed.

(** The loop panics when the tagset holds more strings than there are
    tag keys. *)
Lemma tags_loop_beyond (tags : list string) (vs : list string) :
  (length tags < length vs)%nat ->
  forall m : gmap string string,
    ofoldl (fun m iv =>
              k ← Catalog.index tags (Z.of_nat (fst iv));
              Done (<[k := snd iv]> m))
           (imap pair vs) m = Panicked IndexOutOfRange.
Proof.
  intros Hlen m.
  rewrite <- (take_drop (length tags) vs).
  destruct (drop (length tags) vs) as [|x rest] eqn:E.
  { apply (f_equal length) in E. rewrite length_drop in E. cbn in E. lia. }
  rewrite imap_app, ofoldl_app.
  assert (Hpre : exists m', ofoldl (fun m iv =>
                                      k ← Catalog.index tags (Z.of_nat (fst iv));
                                      Done (<[k := snd iv]> m))
                                   (imap pair (take (length tags) vs)) m = Done m').
  { apply binaryRunFacts.ofoldl_Done. intros a [i v] Hiv.
    apply elem_of_lookup_imap in Hiv as (j & y & [= -> ->] & Hj).
    apply lookup_lt_Some in Hj. rewrite length_take in Hj.
    destruct (lookup_lt_is_Some_2 tags j) as [k Hk]; [lia|].
    cbn [fst snd]. rewrite (index_lookup _ _ _ Hk). cbn. eauto. }
  destruct Hpre as [m' ->]. cbn [mbind outcome_bind obind imap ofoldl fst].
  rewrite length_take, Nat.add_0_r.
  rewrite index_beyond by lia. reflexivity.
Qed.

Lemma index_head (v : Value) (rest : list Value) : Catalog.index (v :: rest) 0 = Done v.
Proof. apply (index_lookup (v :: rest) 0 v). reflexivity. Qed.

Lemma differs_new_values c timestamp : differs (new_values c timestamp) timestamp = Done false.
Proof.
  unfold differs, new_values. rewrite index_head. cbn [mbind outcome_bind obind].
  now rewrite Z.eqb_refl.
Qed.

End RowAssemblyFacts.

(** X23. [createRowValuesIfNotExists] finds its row by the tagset alone,
    and makes a value array for a timestamp once: a second call with the
    same tagset and timestamp, under any name, changes nothing in the
    rows and returns the row and the value array of the first call. *)
Theorem createRowValuesIfNotExists_again
    (c : RowContext) (rows rows1 : gmap string Row) (name name' : string)
    (timestamp : Z) (tagset : string) (row1 : Row) (values1 : list Value) :
  RowAssembly.createRowValuesIfNotExists c rows name timestamp tagset
    = Done (rows1, row1, values1) ->
  RowAssembly.createRowValuesIfNotExists c rows1 name' timestamp tagset
    = Done (rows1, row1, values1).
Proof.
  unfold RowAssembly.createRowValuesIfNotExists. intros Hfirst.
  assert (H1 : rows1 = <[tagset := row1]> rows
               /\ last (RowValues row1) = Some values1
               /\ RowAssembly.differs values1 timestamp = Done false).
  { destruct (match rows !! tagset with
              | Some row => Done row
              | None => _
              end) as [row|p]; [|discriminate].
    cbn [mbind outcome_bind obind] in Hfirst.
    destruct (last (RowValues row)) as [values|] eqn:El.
    - destruct (RowAssembly.differs values timestamp) as [[|]|p] eqn:Ed;
        cbn [mbind outcome_bind obind] in Hfirst; try discriminate.
      + cbn [RowValues] in Hfirst. rewrite last_snoc in Hfirst.
        injection Hfirst as <- <- <-. cbn [RowValues]. rewrite last_snoc.
        repeat split. apply RowAssemblyFacts.differs_new_values.
      + rewrite El in Hfirst. injection Hfirst as <- <- <-. auto.
    - cbn [mbind outcome_bind obind RowValues] in Hfirst.
      rewrite last_snoc in Hfirst.
      injection Hfirst as <- <- <-. cbn [RowValues]. rewrite last_snoc.
      repeat split. apply RowAssemblyFacts.differs_new_values. }
  destruct H1 as (-> & Hlast & Hsame).
  rewrite lookup_insert_eq. cbn [mbind outcome_bind obind].
  rewrite Hlast, Hsame. cbn [mbind outcome_bind obind]. rewrite Hlast.
  now rewrite insert_insert_eq.
Qed.

Lemma createRowValuesIfNotExists_again_witness :
  RowAssembly.createRowValuesIfNotExists demo_context
    {[ Tagset.string_of (Tagset.MarshalStrings ["A"; "east"]%string)
       := mkRow "cpu" {[ "host"%string := "A"%string; "region"%string := "east"%string ]}
                ["time"; "count"; "col1"]%string [[VInt 10; VNil; VNil]] ]}
    "mem" 10 (Tagset.string_of (Tagset.MarshalStrings ["A"; "east"]%string))
  = Done ({[ Tagset.string_of (Tagset.MarshalStrings ["A"; "east"]%string)
             := mkRow "cpu" {[ "host"%string := "A"%string; "region"%string := "east"%string ]}
                      ["time"; "count"; "col1"]%string [[VInt 10; VNil; VNil]] ]},
          mkRow "cpu" {[ "host"%string := "A"%string; "region"%string := "east"%string ]}
                ["time"; "count"; "col1"]%string [[VInt 10; VNil; VNil]],
          [VInt 10; VNil; VNil]).
Proof.
  apply (createRowValuesIfNotExists_again demo_context ∅ _ "cpu" "mem" 10
           (Tagset.string_of (Tagset.MarshalStrings ["A"; "east"]%string))).
  vm_compute. reflexivity.
Defined.

(** X24. A tagset that has no row yet gets one: for the encoding of the
    strings [vs] (of at most 65533 bytes each), with tag keys enough and
    distinct, the new row has the name given, the tag map that sends the
    tag key number [i] to the string number [i], the column "time"
    followed by the field names, and one value array holding the
    timestamp and a nil for each processor. With more strings than tag
    keys the call panics on [e.tags[i]]. *)
Theorem createRowValuesIfNotExists_new
    (c : RowContext) (rows : gmap string Row) (name : string) (timestamp : Z)
    (vs : list string) :
  rows !! Tagset.string_of (Tagset.MarshalStrings vs) = None ->
  Forall (fun s => Tagset.len s <= 65533) vs ->
  ((length vs <= length (ctags c))%nat ->
   NoDup (take (length vs) (ctags c)) ->
   exists row,
     RowAssembly.createRowValuesIfNotExists c rows name timestamp
       (Tagset.string_of (Tagset.MarshalStrings vs))
     = Done (<[Tagset.string_of (Tagset.MarshalStrings vs) := row]> rows, row,
             RowAssembly.new_values c timestamp)
     /\ Name row = name
     /\ Columns row = RowAssembly.new_columns (fieldNames c)
     /\ RowValues row = [RowAssembly.new_values c timestamp]
     /\ forall k v, Tags row !! k = Some v
                    <-> exists i : nat, ctags c !! i = Some k /\ vs !! i = Some v)
  /\ ((length (ctags c) < length vs)%nat ->
      RowAssembly.createRowValuesIfNotExists c rows name timestamp
        (Tagset.string_of (Tagset.MarshalStrings vs))
      = Panicked IndexOutOfRange).
Proof.
  intros Hnone Hvs.
  assert (Hdec : Tagset.UnmarshalStrings
                   (Tagset.bytes_of (Tagset.string_of (Tagset.MarshalStrings vs)))
                 = Done vs).
  { unfold Tagset.bytes_of, Tagset.string_of.
    rewrite list_byte_of_string_of_list_byte.
    now apply TagsetFacts.Unmarshal_Marshal_upto_65533. }
  unfold RowAssembly.createRowValuesIfNotExists, RowAssembly.new_tags.
  rewrite Hnone, Hdec. cbn [mbind outcome_bind obind]. split.
  - intros Hlen Hnd.
    destruct (RowAssemblyFacts.tags_loop (ctags c) vs Hlen Hnd) as (m & -> & Hm).
    cbn [mbind outcome_bind obind RowValues last app Name Tags Columns].
    eexists. split; [reflexivity|]. cbn [Name Tags Columns RowValues]. auto.
  - intros Hlen. now rewrite RowAssemblyFacts.tags_loop_beyond.
Qed.

Lemma createRowValuesIfNotExists_new_witness :
  (exists row,
     RowAssembly.createRowValuesIfNotExists demo_context ∅ "cpu" 10
       (Tagset.string_of (Tagset.MarshalStrings ["A"; "east"]%string))
     = Done (<[Tagset.string_of (Tagset.MarshalStrings ["A"; "east"]%string) := row]> ∅,
             row, RowAssembly.new_values demo_context 10)
     /\ Name row = "cpu"%string
     /\ Columns row = RowAssembly.new_columns (fieldNames demo_context)
     /\ RowValues row = [RowAssembly.new_values demo_context 10]
     /\ forall k v, Tags row !! k = Some v
                    <-> exists i : nat, ctags demo_context !! i = Some k
                                        /\ ["A"; "east"]%string !! i = Some v)
  /\ RowAssembly.new_columns (fieldNames demo_context) = ["time"; "count"; "col1"]%string.
Proof.
  destruct (createRowValuesIfNotExists_new demo_context ∅ "cpu" 10
              ["A"; "east"]%string) as [Hnew _].
  - apply lookup_empty.
  - repeat constructor; vm_compute; discriminate.
  - split; [|reflexivity]. apply Hnew.
    + cbn. lia.
    + cbn. apply NoDup_cons. split; [|apply NoDup_singleton].
      intros H. apply list_elem_of_singleton in H. discriminate.
Defined.

(** ** From the points of one series to its counts *)

Module SingleSeries.

Import BufInput ReducerRun ReducerMergeSpec MergeFacts.

Lemma take_drop_fresh T (l : list Record_) :
  Forall (fun r => T < ts r) l -> take_eq T l = [] /\ drop_eq T l = l.
Proof.
  destruct l as [|r l]; intros H; [split; reflexivity|].
  inversion H; subst. cbn. Zb_false (ts r =? T). split; reflexivity.
Qed.

(** [Reducer.run] over a single input whose timestamps are positive and
    increase strictly: every record is reduced alone, in the order of
    the input. *)
Lemma run_single (fn : ReduceFunc) (l : list Record_) :
  forall (fuel : nat) (b : bufInput) (e : Emitter),
    pending b = l ->
    Forall (fun r => 0 < ts r) l ->
    StronglySorted (fun r1 r2 => ts r1 < ts r2) l ->
    (length l < fuel)%nat ->
    run_loop fuel (reduce_keys fn) [b] e = each_record fn l e.
Proof.
  induction l as [|r l IH]; intros fuel b e Hb Hpos Hsort Hfuel;
    (destruct fuel as [|fuel]; [simpl in Hfuel; lia|]); cbn [run_loop].
  - rewrite pick_timestamp_eq. cbn [fold_left map]. unfold min_step. rewrite Hb.
    destruct (read_inputs_spec 0 [snd (peek b)]) as (bs' & -> & _).
    cbn [map concat]. rewrite pending_peek, Hb. reflexivity.
  - inversion Hpos as [|? ? Hr Hpos']; subst.
    inversion Hsort as [|? ? Hsort' Hlt]; subst.
    rewrite pick_timestamp_eq. cbn [fold_left map]. unfold min_step. rewrite Hb.
    cbn [Z.eqb orb].
    destruct (read_inputs_spec (ts r) [snd (peek b)]) as (bs' & -> & Hbs').
    cbn [map concat]. rewrite app_nil_r.
    inversion Hbs' as [|? b' ? ? Hb' Hnil]; subst. inversion Hnil; subst.
    rewrite pending_peek, Hb in Hb' |- *. cbn [take_eq drop_eq] in Hb' |- *.
    rewrite Z.eqb_refl in Hb' |- *.
    destruct (take_drop_fresh (ts r) l Hlt) as [-> Hdrop]. rewrite Hdrop in Hb'.
    cbn [fold_left]. unfold append_value. rewrite lookup_empty. cbn [default app].
    rewrite insert_empty, map_size_singleton. change (Z.of_nat 1 =? 0) with false.
    unfold sorted_keys. rewrite map_to_list_singleton.
    cbn [map fst sort_by fold_right insert_by].
    cbn [reduce_keys]. rewrite lookup_singleton_eq.
    cbn [default from_option id each_record].
    destruct (fn (fst r) [snd r] e) as [e' [[]|p]]; [|reflexivity].
    apply IH; try assumption. simpl in Hfuel. lia.
Qed.

(** [ReduceSum] passes a single count on as it is. *)
Lemma each_record_counts (l : list (Key * Z)) : forall e,
  Forall (fun kn => 0 <= snd kn <= 2 ^ 53) l ->
  each_record Catalog.ReduceSum
    (map (fun kn => (fst kn, VFloat (Float64.of_int (snd kn)))) l) e
  = (e ++ map (fun kn => (fst kn, VFloat (Float64.of_int (snd kn)))) l, Done true).
Proof.
  induction l as [|[k n] l IH]; intros e Hl; cbn [map each_record fst snd].
  - now rewrite app_nil_r.
  - inversion Hl as [|? ? Hn Hl']; subst. cbn [snd] in Hn.
    unfold Catalog.ReduceSum at 1. cbn [ofoldl asFloat mbind outcome_bind obind].
    change Float64.zero with (Float64.of_int 0).
    rewrite Float64Facts.of_int_add by lia. rewrite Z.add_0_l.
    rewrite IH by exact Hl'. unfold Emit. now rewrite <- app_assoc.
Qed.

(** A loop of the Mapper that reaches its end has made fewer calls than
    it was given rounds. *)
Lemma run_loop_calls_length interval : forall fuel b acc tmin ext,
  MapperRun.run_loop fuel MapperRun.record_call interval b acc tmin
  = (acc ++ ext, Done true) ->
  (length ext < fuel)%nat.
Proof.
  induction fuel as [|fuel IH]; intros b acc tmin ext Hrun; cbn [MapperRun.run_loop] in Hrun.
  - discriminate.
  - destruct (BufIterator.EOF _) as [[|] b2].
    + injection Hrun as Hacc. 
      assert (ext = []) as ->; [|simpl; lia].
      rewrite <- (app_nil_r acc) in Hacc at 1. now apply app_inv_head in Hacc.
    + destruct (BufIterator.drain b2) as [ps b3].
      rewrite MapperFacts.record_call_eq in Hrun.
      rewrite MapperCalls.run_loop_acc in Hrun.
      destruct (MapperRun.run_loop fuel MapperRun.record_call interval b3 []
                  (Int64.add tmin interval)) as [ext' fin] eqn:E.
      cbn [fst snd] in Hrun. injection Hrun as Hacc ->.
      rewrite <- app_assoc in Hacc. apply app_inv_head in Hacc. subst ext.
      specialize (IH b3 [] (Int64.add tmin interval) ext' E).
      cbn [app length]. lia.
Qed.

(** Once the stream is at its end the Mapper makes no call. *)
Lemma run_loop_ended interval :
  0 < interval ->
  forall b, MapperSpec.ended b ->
  forall fuel acc tmin,
    fst (MapperRun.run_loop fuel MapperRun.record_call interval b acc tmin) = acc.
Proof.
  intros HI b He [|fuel] acc tmin; [reflexivity|].
  cbn [MapperRun.run_loop]. Zb_true (interval >? 0).
  destruct (MapperFacts.EOF_ended b (Int64.sub (Int64.add tmin interval) 1) He)
    as [b' ->].
  reflexivity.
Qed.

End SingleSeries.

(** X25. A count grouped by time over one series. For a stream of at most
    [2^53] points with non-decreasing timestamps (each at most
    [2^63 - 1 - I]), the first one at least the interval [I > 0], the
    Mapper with [MapCount] and the Reducer with [ReduceSum] over it come
    to their ends, and the Reducer sends, window after window from the
    first window to the last, the start of the window and the number of
    points of the stream that lie in it (also for a window in between
    that holds no point, with count 0). *)
Theorem count_by_time_of_one_series (ival : Z) (pts : list Point) (tg : string) :
  0 < ival <= Int64.max_int ->
  MapperSpec.time_ordered pts ->
  Forall (MapperSpec.timestamp_ok ival) pts ->
  Forall (fun p => ival <= key p) pts ->
  len pts <= 2 ^ 53 ->
  exists rounds : nat,
    forall fuel, (rounds <= fuel)%nat ->
      exists cs,
        MapperRun.calls fuel ival (mkIterator pts tg) = (cs, Done true)
        /\ concat (map snd cs) = pts
        /\ Forall (MapperSpec.in_window ival) cs
        /\ ReducerRun.Reduce fuel Catalog.ReduceSum
             [mkMapper _ Catalog.MapCount (mkIterator pts tg) ival]
           = (map (fun c => (mkKey (fst c) tg, VFloat (Float64.of_int (len (snd c))))) cs,
              Done true).
Proof.
  intros HI Hsort Hok Hfirst Hlen.
  pose proof (MapperFacts.start_state ival pts tg HI Hsort Hok) as Hstart.
  assert (HM : exists M, 0 <= M /\ Forall (fun q => key q <= M) pts).
  { clear. induction pts as [|q l [M [HM0 HM]]].
    - exists 0. split; [lia | constructor].
    - exists (Z.max M (key q)). split; [lia|]. constructor; [lia|].
      eapply Forall_impl; [exact HM|]. simpl. intros; lia. }
  destruct HM as (M & HM0 & HM).
  exists (Z.to_nat (M + 2 * ival + 2)). intros fuel Hfuel.
  unfold ReducerRun.Reduce, ReducerRun.run. cbn [map].
  unfold MapperRun.calls, MapperRun.run in *. cbn [interval mitr fn] in *.
  destruct (MapperRun.start ival _) as [tmin b].
  destruct Hstart as (Hinv & Hpts & Htags & Htmin).
  assert (Htmin0 : 0 < tmin \/ pts = []).
  { subst tmin. destruct pts as [|p0 rest]; [now right|]. left.
    inversion Hfirst as [|? ? Hp0 _]; subst.
    pose proof (Z.quot_rem' (key p0) ival) as E.
    assert (1 <= key p0 ÷ ival) by (apply Z.quot_le_lower_bound; lia).
    nia. }
  destruct (MapperFacts.run_loop_finishes ival M HI fuel b tmin [] Hinv)
    as (ext & Hrun & Hcat); [now rewrite Hpts | | lia |].
  { destruct Htmin0 as [Hpos | Hnil]; [nia|].
    subst tmin. rewrite Hnil. nia. }
  destruct (MapperFacts.run_loop_calls ival HI fuel b tmin [] Hinv)
    as (ext1 & fin1 & Hrun1 & Hwin & _).
  destruct (MapperWindows.run_loop_starts ival HI fuel b tmin [] Hinv)
    as (ext2 & fin2 & Hrun2 & Hstarts).
  rewrite Hrun in Hrun1, Hrun2. cbn [app] in *.
  injection Hrun1 as <- _. injection Hrun2 as <- _.
  exists ext. rewrite Hrun, Hcat, Hpts. cbn [app].
  split; [reflexivity|]. split; [reflexivity|]. split; [exact Hwin|].
  (* what the Mapper sends *)
  rewrite MapperCalls.run_loop_map_calls by reflexivity.
  rewrite Hrun, Htags. cbn [fst snd].
  assert (Hmax : 2 ^ 53 <= Int64.max_int) by (vm_compute; discriminate).
  rewrite CatalogFacts.map_calls_MapCount by (rewrite Hcat, Hpts; lia).
  cbn [fst app].
  (* what the Reducer makes of it *)
  pose proof (SingleSeries.run_loop_calls_length ival fuel b [] tmin ext Hrun) as Hcalls.
  assert (Hcount : forall c, c ∈ ext -> 0 <= len (snd c) <= 2 ^ 53).
  { intros c Hc. split; [apply CatalogFacts.len_nonneg|].
    apply list_elem_of_In, in_split in Hc as (l1 & l2 & ->).
    rewrite map_app, concat_app in Hcat. cbn [map concat snd] in Hcat.
    rewrite Hpts in Hcat. rewrite <- Hcat in Hlen.
    rewrite !CatalogFacts.len_app in Hlen.
    pose proof (CatalogFacts.len_nonneg (concat (map snd l1))).
    pose proof (CatalogFacts.len_nonneg (concat (map snd l2))). lia. }
  set (em := map (fun c => (mkKey (fst c) tg, VFloat (Float64.of_int (len (snd c))))) ext).
  assert (Eem : em = map (fun kn => (fst kn, VFloat (Float64.of_int (snd kn))))
                         (map (fun c => (mkKey (fst c) tg, len (snd c))) ext)).
  { subst em. rewrite map_map. reflexivity. }
  rewrite (SingleSeries.run_single Catalog.ReduceSum em).
  - rewrite Eem.
    rewrite SingleSeries.each_record_counts; [reflexivity|].
    apply Forall_map. apply Forall_forall. intros c Hc. cbn [snd]. now apply Hcount.
  - reflexivity.
  - subst em. apply Forall_map. apply Forall_forall. intros c Hc.
    unfold ReducerMergeSpec.ts. cbn [fst Timestamp].
    apply list_elem_of_lookup_1 in Hc as [k Hk].
    rewrite (Hstarts k c Hk).
    destruct Htmin0 as [Hpos | Hnil]; [nia|].
    exfalso. rewrite Hnil in Hpts.
    destruct Hinv as [Hl | He].
    + rewrite (MapperFacts.pending_loaded _ _ _ Hl) in Hpts. discriminate.
    + pose proof (SingleSeries.run_loop_ended ival (proj1 HI) b He fuel [] tmin) as Hnone.
      rewrite Hrun in Hnone. cbn [fst] in Hnone. subst ext. discriminate.
  - subst em. clear - Hstarts HI.
    assert (G : forall (l : list (Z * list Point)) (t0 : Z),
               (forall (k : nat) c, l !! k = Some c -> fst c = t0 + ival * Z.of_nat k) ->
               StronglySorted (fun r1 r2 => ReducerMergeSpec.ts r1 < ReducerMergeSpec.ts r2)
                 (map (fun c => (mkKey (fst c) tg, VFloat (Float64.of_int (len (snd c))))) l)).
    { induction l as [|c l IHl]; intros t0 Hl; cbn [map]; constructor.
      - apply (IHl (t0 + ival)). intros k c' Hk.
        rewrite (Hl (S k) c' Hk). lia.
      - apply Forall_map. apply Forall_forall. intros c' Hc'.
        unfold ReducerMergeSpec.ts. cbn [fst Timestamp].
        apply list_elem_of_lookup_1 in Hc' as [k Hk].
        rewrite (Hl 0%nat c eq_refl), (Hl (S k) c' Hk). nia. }
    apply (G ext tmin). exact Hstarts.
  - subst em. rewrite length_map. exact Hcalls.
Qed.

Lemma count_by_time_of_one_series_witness :
  exists rounds : nat,
    forall fuel, (rounds <= fuel)%nat ->
      exists cs,
        MapperRun.calls fuel 10
          (mkIterator [mkPoint 12 [] VNil; mkPoint 15 [] VNil; mkPoint 47 [] VNil] "a")
        = (cs, Done true)
        /\ concat (map snd cs) = [mkPoint 12 [] VNil; mkPoint 15 [] VNil; mkPoint 47 [] VNil]
        /\ Forall (MapperSpec.in_window 10) cs
        /\ ReducerRun.Reduce fuel Catalog.ReduceSum
             [mkMapper _ Catalog.MapCount
                (mkIterator [mkPoint 12 [] VNil; mkPoint 15 [] VNil; mkPoint 47 [] VNil] "a")
                10]
           = (map (fun c => (mkKey (fst c) "a", VFloat (Float64.of_int (len (snd c))))) cs,
              Done true).
Proof.
  apply (count_by_time_of_one_series 10
           [mkPoint 12 [] VNil; mkPoint 15 [] VNil; mkPoint 47 [] VNil] "a").
  - unfold Int64.max_int. lia.
  - unfold MapperSpec.time_ordered. repeat (constructor; simpl; try lia).
  - unfold MapperSpec.timestamp_ok, Int64.max_int. repeat (constructor; simpl; try lia).
  - repeat (constructor; simpl; try lia).
  - vm_compute. discriminate.
Defined.

(** ** One tick for the keys without a timestamp *)

Module SingleTick.

Import BufInput ReducerRun ReducerSpec ReducerMergeSpec MergeFacts.

Lemma min_step_zero (bs : list bufInput) :
  Forall (fun b => Forall (fun r => ts r = 0) (pending b)) bs ->
  fold_left min_step bs 0 = 0.
Proof.
  induction 1 as [|b bs Hb _ IH]; [reflexivity|].
  cbn [fold_left]. unfold min_step at 2.
  destruct (pending b) as [|r l]; [exact IH|].
  inversion Hb as [|? ? Hr _]; subst. cbn [Z.eqb orb]. now rewrite Hr.
Qed.

Lemma take_drop_all T (l : list Record_) :
  Forall (fun r => ts r = T) l -> take_eq T l = l /\ drop_eq T l = [].
Proof.
  induction 1 as [|r l Hr _ [IH1 IH2]]; [split; reflexivity|].
  cbn. rewrite Hr, Z.eqb_refl, IH1, IH2. split; reflexivity.
Qed.

(** The values the grouping table holds for a key. *)
Lemma append_value_values (l : list Record_) (k : Key) : forall data,
  default [] (fold_left append_value l data !! k)
  = default [] (data !! k) ++ values_of k l.
Proof.
  unfold values_of.
  induction l as [|r l IH]; intros data; cbn [fold_left List.filter map].
  - now rewrite app_nil_r.
  - rewrite IH. unfold append_value.
    destruct (decide (fst r = k)) as [E|E].
    + rewrite bool_decide_eq_true_2 by exact E. subst k.
      rewrite lookup_insert_eq. cbn [default from_option id map].
      now rewrite <- app_assoc.
    + rewrite bool_decide_eq_false_2 by exact E.
      now rewrite lookup_insert_ne by exact E.
Qed.

Lemma reduce_keys_in_order (fn : ReduceFunc) (l : list Record_) (keys : list Key) :
  forall e,
    reduce_in_order fn keys l e
    = match reduce_keys fn keys (fold_left append_value l ∅) e with
      | (e', Done _) => (e', Done true)
      | (e', Panicked p) => (e', Panicked p)
      end.
Proof.
  induction keys as [|k keys IH]; intros e; cbn [reduce_in_order reduce_keys];
    [reflexivity|].
  rewrite append_value_values, lookup_empty. cbn [default app].
  destruct (fn k (values_of k l) e) as [e' [[]|p]]; [apply IH | reflexivity].
Qed.

(** The outer loop on inputs that are all exhausted. *)
Lemma run_loop_exhausted {E} (round : list Key -> gmap Key (list Value) -> E -> emitted E)
    (bs : list bufInput) (fuel : nat) (e : E) :
  Forall (fun b => pending b = []) bs ->
  run_loop (S fuel) round bs e = (e, Done true).
Proof.
  intros Hnil. cbn [run_loop]. rewrite pick_timestamp_eq.
  destruct (read_inputs_spec (fold_left min_step bs 0) (map (fun b => snd (peek b)) bs))
    as (bs2 & -> & _).
  rewrite map_map.
  rewrite (map_ext (fun b => take_eq (fold_left min_step bs 0) (pending (snd (peek b))))
                   (fun b => take_eq (fold_left min_step bs 0) (pending b)))
    by (intros b; now rewrite pending_peek).
  rewrite (proj2 (all_pending_nil bs Hnil)). reflexivity.
Qed.

(** The outer loop on inputs whose records all have timestamp 0: one
    round over everything. *)
Lemma run_loop_single_tick {E}
    (round : list Key -> gmap Key (list Value) -> E -> emitted E)
    (inputs : list (list Record_)) (fuel : nat) (e : E) :
  Forall (fun r => ts r = 0) (concat inputs) ->
  concat inputs <> [] ->
  (2 <= fuel)%nat ->
  run_loop fuel round (map (mkBufInput None) inputs) e
  = match round (sorted_keys (fold_left append_value (concat inputs) ∅))
                (fold_left append_value (concat inputs) ∅) e with
    | (e', Done _) => (e', Done true)
    | (e', Panicked p) => (e', Panicked p)
    end
  /\ snd (read_inputs 0 (map (fun b => snd (peek b)) (map (mkBufInput None) inputs)))
     = fold_left append_value (concat inputs) ∅.
Proof.
  intros Hzero Hne Hfuel. destruct fuel as [|[|fuel]]; try lia.
  set (bs := map (mkBufInput None) inputs).
  assert (Hpend : map pending bs = inputs).
  { subst bs. rewrite map_map. cbn. apply map_id. }
  assert (Hall : Forall (fun b => Forall (fun r => ts r = 0) (pending b)) bs).
  { apply Forall_forall. intros b Hb. apply Forall_forall. intros r Hr.
    rewrite Forall_forall in Hzero. apply Hzero. rewrite <- Hpend.
    apply list_elem_of_In, in_concat. exists (pending b). split.
    - apply in_map. now apply list_elem_of_In.
    - now apply list_elem_of_In. }
  cbn [run_loop]. rewrite pick_timestamp_eq, (min_step_zero bs Hall).
  destruct (read_inputs_spec 0 (map (fun b => snd (peek b)) bs)) as (bs2 & Hread & Hbs2).
  rewrite Hread. cbn [snd]. rewrite map_map in *.
  assert (Htaken : concat (map (fun b => take_eq 0 (pending (snd (peek b)))) bs)
                   = concat inputs).
  { rewrite <- Hpend. f_equal. rewrite <- map_map with (g := fun l => l) (f := pending).
    rewrite map_id. apply map_ext_in. intros b Hb. rewrite pending_peek.
    rewrite Forall_forall in Hall.
    apply (take_drop_all 0 (pending b)). apply Hall. now apply list_elem_of_In. }
  rewrite Htaken. split; [|reflexivity].
  assert (Hsize : size (fold_left append_value (concat inputs) ∅) <> 0%nat).
  { destruct (concat inputs) as [|r l] eqn:Ec; [contradiction|].
    intros Hsize. apply map_size_empty_iff in Hsize.
    assert (Hk : is_Some (fold_left append_value (r :: l) ∅ !! fst r)).
    { apply append_value_keys. right. cbn. apply list_elem_of_here. }
    rewrite Hsize, lookup_empty in Hk. destruct Hk; discriminate. }
  replace (Z.of_nat (size (fold_left append_value (concat inputs) ∅)) =? 0) with false
    by (symmetry; apply Z.eqb_neq; lia).
  destruct (round _ _ e) as [e' [[]|p]]; [|reflexivity].
  apply run_loop_exhausted.
  apply Forall2_fmap_l in Hbs2.
  clear - Hbs2 Hall. induction Hbs2 as [|b b' bs bs2 Hb _ IH]; [constructor|].
  inversion Hall as [|? ? Hb0 Hall']; subst.
  constructor; [|now apply IH].
  cbn in Hb. rewrite pending_peek in Hb. rewrite Hb.
  now apply (take_drop_all 0 (pending b)).
Qed.

End SingleTick.

(** X26. The merge of [Reducer.run] when no record has a timestamp (what
    Mappers send without a grouping interval, and for raw queries): the
    timestamp of the round stays 0, so one round takes every record of
    every input; its keys are the keys received, in strictly increasing
    order of their tagsets; the reduce function is called once for each
    of them with all the values received for the key, in the order of
    the inputs and, within an input, of arrival; and the next round finds
    nothing and ends the loop. *)
Theorem reducer_single_tick
    (fn : ReduceFunc) (inputs : list (list Record_)) (fuel : nat) (e : Emitter) :
  Forall (fun r => ReducerMergeSpec.ts r = 0) (concat inputs) ->
  concat inputs <> [] ->
  (2 <= fuel)%nat ->
  exists keys,
    ReducerRun.rounds fuel inputs = ([keys], Done true)
    /\ (forall k, k ∈ keys <-> k ∈ map fst (concat inputs))
    /\ StronglySorted (fun a b => ReducerSpec.valuesLess a b = true) keys
    /\ ReducerRun.run fuel fn inputs e
       = ReducerMergeSpec.reduce_in_order fn keys (concat inputs) e.
Proof.
  intros Hzero Hne Hfuel.
  exists (ReducerRun.sorted_keys (fold_left ReducerRun.append_value (concat inputs) ∅)).
  split; [|split; [|split]].
  - unfold ReducerRun.rounds.
    now rewrite (proj1 (SingleTick.run_loop_single_tick ReducerRun.record_round
                          inputs fuel [] Hzero Hne Hfuel)).
  - intros k. rewrite MergeFacts.sorted_keys_elem, MergeFacts.append_value_keys,
      lookup_empty. split.
    + intros [[v Hv]|H]; [discriminate | exact H].
    + now right.
  - pose proof (ReducerFacts.round_keys_sorted 0
                  (map (fun b => snd (BufInput.peek b)) (map (mkBufInput None) inputs)))
      as Hsorted.
    cbv zeta in Hsorted.
    rewrite (proj2 (SingleTick.run_loop_single_tick ReducerRun.record_round
                      inputs fuel [] Hzero Hne Hfuel)) in Hsorted.
    exact (proj2 Hsorted).
  - unfold ReducerRun.run.
    rewrite (proj1 (SingleTick.run_loop_single_tick (ReducerRun.reduce_keys fn)
                      inputs fuel e Hzero Hne Hfuel)).
    now rewrite SingleTick.reduce_keys_in_order.
Qed.

Lemma reducer_single_tick_witness :
  exists keys,
    ReducerRun.rounds 2
      [[(mkKey 0 "b", VFloat 1%float); (mkKey 0 "b", VFloat 2%float)];
       [(mkKey 0 "a", VFloat 3%float)]]
    = ([keys], Done true)
    /\ (forall k, k ∈ keys
                  <-> k ∈ map fst (concat
                        [[(mkKey 0 "b", VFloat 1%float); (mkKey 0 "b", VFloat 2%float)];
                         [(mkKey 0 "a", VFloat 3%float)]]))
    /\ StronglySorted (fun a b => ReducerSpec.valuesLess a b = true) keys
    /\ ReducerRun.run 2 Catalog.ReduceSum
         [[(mkKey 0 "b", VFloat 1%float); (mkKey 0 "b", VFloat 2%float)];
          [(mkKey 0 "a", VFloat 3%float)]] []
       = ReducerMergeSpec.reduce_in_order Catalog.ReduceSum keys
           (concat [[(mkKey 0 "b", VFloat 1%float); (mkKey 0 "b", VFloat 2%float)];
                    [(mkKey 0 "a", VFloat 3%float)]]) [].
Proof.
  apply (reducer_single_tick Catalog.ReduceSum
           [[(mkKey 0 "b", VFloat 1%float); (mkKey 0 "b", VFloat 2%float)];
            [(mkKey 0 "a", VFloat 3%float)]] 2%nat []).
  - repeat constructor.
  - discriminate.
  - lia.
Defined.
